(** * mbedcrypto: the symmetric-cipher wrapper of [src/cipher.cpp]

    The wrapper drives the mbedtls cipher layer.  mbedtls itself, the
    enumerations of [types.hpp], the conversions of [conversions.hpp]
    and the storage behind a [buffer_t] are collaborators: they are
    taken as parameters ([mbedtls], [conversions], [buffers]).  The
    functions of [cipher.cpp] are embedded as functions over an explicit
    state: the C++ object ([cipher_impl]) and the journal of the calls
    made to the mbedtls layer. *)

From Stdlib Require Import String Bool Arith PeanoNat ZArith Lia.
From Stdlib Require Import Strings.Byte List.
Import ListNotations.

Set Implicit Arguments.

(** ** Buffers *)

(** [buffer_t] and [buffer_view_t] are byte sequences; a view is the
    sequence it refers to. *)
Definition buffer_t := list byte.

(** [buffer_t(n, '\0')] *)
Definition zeros (n : nat) : buffer_t := repeat x00 n.

(** [b.resize(n)]: shrinks to the first [n] bytes, or grows with zero bytes. *)
Definition resize (n : nat) (b : buffer_t) : buffer_t :=
  firstn n b ++ repeat x00 (n - length b).

(** The bytes [w] stored through the pointer [to_ptr(b) + off].  The
    length of [b] never changes; a store that runs past the end of [b]
    is outside the C++ object and is cut at its end. *)
Definition store (b : buffer_t) (off : nat) (w : buffer_t) : buffer_t :=
  firstn off b ++ firstn (length b - off) w ++ skipn (off + length w) b.

(** [{p.data() + off, count}]: [count] bytes read from offset [off]. *)
Definition view (b : buffer_t) (off count : nat) : buffer_t :=
  firstn count (skipn off b).

(** ** Enumerations of [types.hpp] *)

(** Modelled from the spec: [cipher_bm] is declared in [types.hpp], which
    is not part of the sources at hand; the spec lists the block-mode
    categories {stream, ECB, CBC, CFB, OFB, CTR, GCM, CCM, XTS, none}. *)
Module cipher_bm.
Inductive t : Set :=
  none | ecb | cbc | cfb | ofb | ctr | gcm | ccm | xts | stream.

Definition eqb (a b : t) : bool :=
  match a, b with
  | none, none | ecb, ecb | cbc, cbc | cfb, cfb | ofb, ofb
  | ctr, ctr | gcm, gcm | ccm, ccm | xts, xts | stream, stream => true
  | _, _ => false
  end.

Lemma bm_eqb_spec (a b : t) : reflect (a = b) (eqb a b).
Proof. destruct a, b; simpl; constructor; congruence. Qed.
End cipher_bm.

(** Modelled from the spec: [padding_t] is declared in [types.hpp]; the
    spec lists {none, PKCS7, one-and-zeros, zeros-and-len, zeros}. *)
Module padding_t.
Inductive t : Set := none | pkcs7 | one_and_zeros | zeros_and_len | zeros.

Definition eqb (a b : t) : bool :=
  match a, b with
  | none, none | pkcs7, pkcs7 | one_and_zeros, one_and_zeros
  | zeros_and_len, zeros_and_len | zeros, zeros => true
  | _, _ => false
  end.

Lemma padding_eqb_spec (a b : t) : reflect (a = b) (eqb a b).
Proof. destruct a, b; simpl; constructor; congruence. Qed.
End padding_t.

(** [cipher::mode] *)
Inductive mode : Set := encrypt_mode | decrypt_mode.

(** ** Exceptions ([exception.hpp]) *)

(** [exception{code, message}] carries the mbedtls code; the others are
    the members of namespace [exceptions] thrown by [cipher.cpp]. *)
Inductive exn : Set :=
| exception (code : Z) (message : string)
| unknown_cipher
| usage_error (message : string)
| aead_error
| gcm_error.

Inductive outcome (A : Type) : Type :=
| Ok (a : A)
| Throw (e : exn).
Arguments Ok {A} a.
Arguments Throw {A} e.

(** ** The mbedtls cipher layer *)

(** [mbedtls_operation_t] *)
Inductive operation_t : Set := MBEDTLS_ENCRYPT | MBEDTLS_DECRYPT.

(** mbedtls error codes used by the wrapper ([mbedtls/cipher.h]). *)
Definition MBEDTLS_ERR_CIPHER_FULL_BLOCK_EXPECTED : Z := (-25216)%Z. (* -0x6280 *)
Definition MBEDTLS_ERR_CIPHER_AUTH_FAILED : Z := (-25344)%Z.         (* -0x6300 *)

(** What a primitive leaves behind through its output pointers: the
    bytes stored from the output pointer on, and the value stored into
    [*olen] ([None]: [*olen] is left as it was). *)
Record written : Set := { stored : buffer_t; olen : option nat }.

(** [*olen] after the call, when it held [n] before. *)
Definition olen_after (n : nat) (w : written) : nat :=
  match olen w with Some k => k | None => n end.

(** [mbedtls_cipher_info_t], the fields the wrapper reads. *)
Record cipher_info_t (cipher_mode_t : Type) : Type := {
  info_block_size : nat;
  info_iv_size : nat;
  info_key_bitlen : nat;
  info_mode : cipher_mode_t
}.

(** The functions of [mbedtls/cipher.h] called by [cipher.cpp], as
    functions of the context they are handed.  Each returns its [int]
    code, the context afterwards and what it stored through its output
    pointers. *)
Class mbedtls : Type := {
  cipher_type_t : Type;
  cipher_mode_t : Type;
  cipher_padding_t : Type;
  cipher_context_t : Type;
  (* build configuration *)
  MBEDTLS_CIPHER_MODE_AEAD : bool;
  (* mbedtls_cipher_init: the zeroed context *)
  cipher_init : cipher_context_t;
  (* ctx.cipher_info, a pointer that is null before setup *)
  cipher_info : cipher_context_t -> option (cipher_info_t cipher_mode_t);
  cipher_get_block_size : cipher_context_t -> nat;
  cipher_info_from_type : cipher_type_t -> option (cipher_info_t cipher_mode_t);
  cipher_setup :
    cipher_context_t -> cipher_info_t cipher_mode_t -> Z * cipher_context_t;
  cipher_set_iv : cipher_context_t -> buffer_t -> Z * cipher_context_t;
  cipher_setkey :
    cipher_context_t -> buffer_t -> nat -> operation_t -> Z * cipher_context_t;
  cipher_set_padding_mode :
    cipher_context_t -> cipher_padding_t -> Z * cipher_context_t;
  cipher_reset : cipher_context_t -> Z * cipher_context_t;
  cipher_update :
    cipher_context_t -> buffer_t -> Z * cipher_context_t * written;
  cipher_finish : cipher_context_t -> Z * cipher_context_t * written;
  (* iv, input *)
  cipher_crypt :
    cipher_context_t -> buffer_t -> buffer_t -> Z * cipher_context_t * written;
  (* iv, ad, input, tag_len; the last component is the tag stored *)
  cipher_auth_encrypt :
    cipher_context_t -> buffer_t -> buffer_t -> buffer_t -> nat ->
    Z * cipher_context_t * written * buffer_t;
  (* iv, ad, input, tag *)
  cipher_auth_decrypt :
    cipher_context_t -> buffer_t -> buffer_t -> buffer_t -> buffer_t ->
    Z * cipher_context_t * written
}.

(** The conversions of [conversions.hpp] and the enumeration [cipher_t]
    of [types.hpp], neither of which is among the sources at hand. *)
Class conversions (L : mbedtls) : Type := {
  cipher_t : Type;
  to_native : cipher_t -> cipher_type_t;
  to_native_padding : padding_t.t -> cipher_padding_t;
  from_native : cipher_mode_t -> cipher_bm.t
}.

Local Open Scope string_scope.
Local Open Scope nat_scope.
Local Open Scope list_scope.

(** ** Journal of the calls made to mbedtls, and the state monad *)

Section Effects.

Context {L : mbedtls}.

(** One entry per call: the arguments handed over, the code returned and
    what the primitive stored. *)
Inductive call : Type :=
| call_setup (i : cipher_info_t cipher_mode_t) (r : Z)
| call_set_iv (iv_data : buffer_t) (r : Z)
| call_setkey (key_data : buffer_t) (bitlen : nat) (op : operation_t) (r : Z)
| call_set_padding_mode (p : cipher_padding_t) (r : Z)
| call_reset (r : Z)
| call_update (input : buffer_t) (r : Z) (w : written)
| call_finish (r : Z) (w : written)
| call_crypt (iv_data input : buffer_t) (r : Z) (w : written)
| call_auth_encrypt (iv_data ad input : buffer_t) (tag_len : nat) (r : Z)
    (w : written) (tag : buffer_t)
| call_auth_decrypt (iv_data ad input tag : buffer_t) (r : Z) (w : written).

Definition journal := list call.

(** The data members of [struct cipher_impl]. *)
Record cipher_impl : Type := {
  ctx_ : cipher_context_t;
  iv_data_ : buffer_t
}.

(** The state a member function runs in: the object and the journal. *)
Record world : Type := { self : cipher_impl; calls : journal }.

(** Computations that may throw; the state survives a throw, as the
    object does in C++. *)
Definition M (A : Type) : Type := world -> outcome A * world.

Definition ret {A} (a : A) : M A := fun s => (Ok a, s).
Definition throw {A} (e : exn) : M A := fun s => (Throw e, s).
Definition lift {A} (o : outcome A) : M A := fun s => (o, s).
Definition bind {A B} (m : M A) (k : A -> M B) : M B :=
  fun s => match m s with
           | (Ok a, s') => k a s'
           | (Throw e, s') => (Throw e, s')
           end.

(** The object after a primitive ran on its context. *)
Definition after (s : world) (c : cipher_context_t) (e : call) : world :=
  {| self := {| ctx_ := c; iv_data_ := iv_data_ (self s) |};
     calls := calls s ++ [e] |}.

(** The mbedtls functions applied to [&ctx_], each journalled. *)
Definition mbedtls_cipher_setup (i : cipher_info_t cipher_mode_t) : M Z :=
  fun s => let '(r, c) := cipher_setup (ctx_ (self s)) i in
           (Ok r, after s c (call_setup i r)).

Definition mbedtls_cipher_set_iv (iv_data : buffer_t) : M Z :=
  fun s => let '(r, c) := cipher_set_iv (ctx_ (self s)) iv_data in
           (Ok r, after s c (call_set_iv iv_data r)).

Definition mbedtls_cipher_setkey (key_data : buffer_t) (bitlen : nat)
    (op : operation_t) : M Z :=
  fun s => let '(r, c) := cipher_setkey (ctx_ (self s)) key_data bitlen op in
           (Ok r, after s c (call_setkey key_data bitlen op r)).

Definition mbedtls_cipher_set_padding_mode (p : cipher_padding_t) : M Z :=
  fun s => let '(r, c) := cipher_set_padding_mode (ctx_ (self s)) p in
           (Ok r, after s c (call_set_padding_mode p r)).

Definition mbedtls_cipher_reset : M Z :=
  fun s => let '(r, c) := cipher_reset (ctx_ (self s)) in
           (Ok r, after s c (call_reset r)).

Definition mbedtls_cipher_update (input : buffer_t) : M (Z * written) :=
  fun s => let '(r, c, w) := cipher_update (ctx_ (self s)) input in
           (Ok (r, w), after s c (call_update input r w)).

Definition mbedtls_cipher_finish : M (Z * written) :=
  fun s => let '(r, c, w) := cipher_finish (ctx_ (self s)) in
           (Ok (r, w), after s c (call_finish r w)).

Definition mbedtls_cipher_crypt (iv_data input : buffer_t)
    : M (Z * written) :=
  fun s => let '(r, c, w) := cipher_crypt (ctx_ (self s)) iv_data input in
           (Ok (r, w), after s c (call_crypt iv_data input r w)).

Definition mbedtls_cipher_auth_encrypt (iv_data ad input : buffer_t)
    (tag_len : nat) : M (Z * (written * buffer_t)) :=
  fun s =>
    let '(r, c, w, t) :=
      cipher_auth_encrypt (ctx_ (self s)) iv_data ad input tag_len in
    (Ok (r, (w, t)),
     after s c (call_auth_encrypt iv_data ad input tag_len r w t)).

Definition mbedtls_cipher_auth_decrypt (iv_data ad input tag : buffer_t)
    : M (Z * written) :=
  fun s =>
    let '(r, c, w) :=
      cipher_auth_decrypt (ctx_ (self s)) iv_data ad input tag in
    (Ok (r, w), after s c (call_auth_decrypt iv_data ad input tag r w)).

(** [c_call_impl] of [exception.hpp]: throws [exception(ret, error_tag)]
    when the C function returns a non-zero code. *)
Definition c_call_impl (error_tag : string) (c_func : M Z) : M unit :=
  bind c_func (fun r =>
  if (r =? 0)%Z then ret tt else throw (exception r error_tag)).

(** The same for a C function with output pointers: what it stored is
    handed on when it returns zero. *)
Definition c_call_out {A} (error_tag : string) (c_func : M (Z * A)) : M A :=
  bind c_func (fun rw =>
  if (fst rw =? 0)%Z then ret (snd rw)
  else throw (exception (fst rw) error_tag)).

End Effects.

Notation "x <- m ;; k" := (bind m (fun x => k))
  (at level 61, m at next level, right associativity).
Notation "m ;;; k" := (bind m (fun _ => k))
  (at level 61, right associativity).

(** ** Storage of [buffer_t]

    Modelled from the spec: [buffer_t] and [buffer_view_t] are declared
    in [types.hpp], which is not among the sources at hand; the spec has
    a view as a non-owning pointer and length, and an output as an owned
    buffer.  [cipher.cpp] reads through a pointer into [iv_data_] in two
    places where the bytes read need not be those [iv_data_] holds:
    [crypt_engine::compute] reads [iv_size()] bytes from its start,
    however many it has, and [reset_last_iv] hands [iv] a view of
    [iv_data_], which [iv] assigns anew before the primitive reads the
    view.  What is found in memory there is not decided by [cipher.cpp]:
    it is a parameter of the embedding, and may depend on the object. *)
Class buffers (L : mbedtls) : Type := {
  (* the byte [k] places past the last byte of [iv_data_] *)
  past_the_end : cipher_impl -> nat -> byte;
  (* the byte at offset [k] of the storage [iv_data_] had before it was
     assigned anew *)
  released : cipher_impl -> nat -> byte
}.

(** [n] bytes read from [to_const_ptr(iv_data_)] on. *)
Definition over_read {L : mbedtls} {B : buffers L} (o : cipher_impl)
    (n : nat) : buffer_t :=
  firstn n (iv_data_ o) ++
  map (past_the_end o) (seq 0 (n - length (iv_data_ o))).

(** The bytes a view of [iv_data_] shows once [iv_data_] was assigned
    anew: as many as [iv_data_] had, read from its former storage. *)
Definition stale_view {L : mbedtls} {B : buffers L} (o : cipher_impl)
    : buffer_t :=
  map (released o) (seq 0 (length (iv_data_ o))).

(** ** The member functions of [struct cipher_impl] *)

Module cipher_impl.
Section Members.

Context {L : mbedtls} {V : conversions L} {B : buffers L}.

(** [native_info] *)
Definition native_info (type : cipher_t)
    : outcome (cipher_info_t cipher_mode_t) :=
  match cipher_info_from_type (to_native type) with
  | None => Throw unknown_cipher
  | Some cinfot => Ok cinfot
  end.

(** [cipher_impl::cipher_impl] *)
Definition new : cipher_impl :=
  {| ctx_ := cipher_init; iv_data_ := [] |}.

(** [cipher_impl::setup] *)
Definition setup (type : cipher_t) : M unit :=
  cinfot <- lift (native_info type) ;;
  c_call_impl "mbedtls_cipher_setup" (mbedtls_cipher_setup cinfot).

(** [cipher_impl::block_size] *)
Definition block_size (c : cipher_impl) : nat :=
  cipher_get_block_size (ctx_ c).

(** [cipher_impl::iv_size], [key_bitlen], [block_mode] read through
    [ctx_.cipher_info]; the pointer is set by a successful [setup],
    which every constructor of the wrapper runs first.  At a null
    pointer the model answers with the zero value of the type. *)
Definition iv_size (c : cipher_impl) : nat :=
  match cipher_info (ctx_ c) with Some i => info_iv_size i | None => 0 end.

Definition key_bitlen (c : cipher_impl) : nat :=
  match cipher_info (ctx_ c) with Some i => info_key_bitlen i | None => 0 end.

Definition block_mode (c : cipher_impl) : cipher_bm.t :=
  match cipher_info (ctx_ c) with
  | Some i => from_native (info_mode i)
  | None => cipher_bm.none
  end.

(** The body of [cipher_impl::iv(buffer_view_t iv_data)].  The view is
    read twice: by [iv_data.to<buffer_t>()] for the copy assigned to
    [iv_data_], and then by the primitive.  [at_copy] and [at_call] are
    the bytes it shows at these two moments. *)
Definition iv_through (at_copy at_call : buffer_t) : M unit :=
  (fun s => (Ok tt, {| self := {| ctx_ := ctx_ (self s);
                                  iv_data_ := at_copy |};
                       calls := calls s |})) ;;;
  c_call_impl "mbedtls_cipher_set_iv" (mbedtls_cipher_set_iv at_call).

(** [cipher_impl::iv] on a view of the caller's memory, which the
    assignment to [iv_data_] does not touch: it remembers the IV, then
    hands it to the primitive. *)
Definition iv (iv_data : buffer_t) : M unit :=
  iv_through iv_data iv_data.

(** [cipher_impl::reset_last_iv]: [iv(iv_data_)], the argument being a
    view of [iv_data_] itself.  The copy is taken while the view is
    good; the primitive reads it after [iv_data_] was assigned anew. *)
Definition reset_last_iv : M unit :=
  fun s => iv_through (iv_data_ (self s)) (stale_view (self s)) s.

(** [cipher_impl::key] *)
Definition key (key_data : buffer_t) (m : mode) : M unit :=
  c_call_impl "mbedtls_cipher_setkey"
    (mbedtls_cipher_setkey key_data (Nat.shiftl (length key_data) 3)
       (match m with
        | encrypt_mode => MBEDTLS_ENCRYPT
        | decrypt_mode => MBEDTLS_DECRYPT
        end)).

(** [cipher_impl::padding] *)
Definition padding (p : padding_t.t) : M unit :=
  if padding_t.eqb p padding_t.none then ret tt
  else c_call_impl "mbedtls_cipher_set_padding_mode"
         (mbedtls_cipher_set_padding_mode (to_native_padding p)).

(** The loop of [update_chunked]: [n] iterations are left, [i_index] and
    [o_index] are the running offsets.  The output pointer [poutput] is
    the buffer [out] at offset [base].  The last component is the value
    of the reference [osize] on return. *)
Fixpoint update_chunked_loop (n : nat) (achunk : buffer_t) (bsize : nat)
    (i_index o_index : nat) (out : buffer_t) (base osize : nat)
    : M (Z * buffer_t * nat) :=
  match n with
  | O => ret (0%Z, out, o_index)
  | S n' =>
      rw <- mbedtls_cipher_update (view achunk i_index bsize) ;;
      let out' := store out (base + o_index) (stored (snd rw)) in
      let usize := olen_after 0 (snd rw) in
      if (fst rw <? 0)%Z then ret (fst rw, out', osize)
      else update_chunked_loop n' achunk bsize
             (i_index + bsize) (o_index + usize) out' base osize
  end.

(** [cipher_impl::update_chunked].  [%] and [/] by a zero block size are
    undefined in C++; here they are those of [nat]. *)
Definition update_chunked (achunk : buffer_t) (out : buffer_t)
    (base osize : nat) : M (Z * buffer_t * nat) :=
  fun s =>
    let bsize := block_size (self s) in
    if negb (length achunk mod bsize =? 0)
    then (Ok (MBEDTLS_ERR_CIPHER_FULL_BLOCK_EXPECTED, out, osize), s)
    else update_chunked_loop (length achunk / bsize) achunk bsize
           0 0 out base osize s.

End Members.
End cipher_impl.

(** ** [class cipher] and the one-shot engine *)

Module cipher.

Section Registry.
Context {L : mbedtls} {V : conversions L}.

(** The static lookups [cipher::block_size(type)], [cipher::iv_size(type)],
    [cipher::block_mode(type)] and [cipher::key_bitlen(type)]. *)
Definition on_info {A} (f : cipher_info_t cipher_mode_t -> A)
    (type : cipher_t) : outcome A :=
  match cipher_impl.native_info type with
  | Ok cinfot => Ok (f cinfot)
  | Throw e => Throw e
  end.

Definition block_size : cipher_t -> outcome nat :=
  on_info (fun i => info_block_size i).
Definition iv_size : cipher_t -> outcome nat :=
  on_info (fun i => info_iv_size i).
Definition block_mode : cipher_t -> outcome cipher_bm.t :=
  on_info (fun i => from_native (info_mode i)).
Definition key_bitlen : cipher_t -> outcome nat :=
  on_info (fun i => info_key_bitlen i).

End Registry.

(** [class crypt_engine]; its member [cim_] is the object of the state. *)
Module crypt_engine.

Record t : Set := {
  block_mode_ : cipher_bm.t;
  block_size_ : nat;
  input_size_ : nat;
  chunks_ : nat;
  input_ : buffer_t
}.

Section Engine.
Context {L : mbedtls} {V : conversions L} {B : buffers L}.

(** The constructor [crypt_engine::crypt_engine]. *)
Definition make (type : cipher_t) (pad : padding_t.t)
    (iv key : buffer_t) (m : mode) (input : buffer_t) : M t :=
  bm <- lift (block_mode type) ;;
  bs <- lift (block_size type) ;;
  let isz := length input in
  (fun s => (Ok tt, {| self := cipher_impl.new; calls := calls s |})) ;;;
  cipher_impl.setup type ;;;
  cipher_impl.padding pad ;;;
  cipher_impl.iv iv ;;;
  cipher_impl.key key m ;;;
  if cipher_bm.eqb bm cipher_bm.ecb then
    if (isz =? 0) || negb (isz mod bs =? 0) then
      throw (usage_error
        "ecb cipher block: a valid input size must be dividable by block size")
    else
      ret {| block_mode_ := bm; block_size_ := bs; input_size_ := isz;
             chunks_ := isz / bs; input_ := input |}
  else
    ret {| block_mode_ := bm; block_size_ := bs; input_size_ := isz;
           chunks_ := 1; input_ := input |}.

(** [crypt_engine::output_size] *)
Definition output_size (e : t) : nat := 32 + input_size_ e + block_size_ e.

(** [mbedtls_cipher_crypt(&cim_.ctx_, to_const_ptr(cim_.iv()),
    cim_.iv_size(), pSrc, n, ...)] under [mbedcrypto_c_call]: the IV
    argument is [iv_size()] bytes read from the start of the remembered
    IV, whatever its length. *)
Definition crypt_call (src : buffer_t) : M written :=
  fun s =>
    c_call_out "mbedtls_cipher_crypt"
      (mbedtls_cipher_crypt
         (over_read (self s) (cipher_impl.iv_size (self s))) src) s.

(** The loop of [compute] for more than one chunk: [pSrc] and [pDes] are
    offsets into the input and into [output]. *)
Fixpoint compute_loop (n : nat) (e : t) (pSrc pDes osize : nat)
    (output : buffer_t) : M (nat * buffer_t) :=
  match n with
  | O => ret (osize, output)
  | S n' =>
      w <- crypt_call (view (input_ e) pSrc (block_size_ e)) ;;
      let done_size := olen_after 0 w in
      compute_loop n' e (pSrc + block_size_ e) (pDes + block_size_ e)
        (osize + done_size) (store output pDes (stored w))
  end.

(** [crypt_engine::compute] *)
Definition compute (e : t) : M buffer_t :=
  let osize := output_size e in
  let output := zeros osize in
  if chunks_ e =? 1 then
    w <- crypt_call (view (input_ e) 0 (input_size_ e)) ;;
    ret (resize (olen_after osize w) (store output 0 (stored w)))
  else
    r <- compute_loop (chunks_ e) e 0 0 0 output ;;
    ret (resize (fst r) (snd r)).

(** [crypt_engine::run]: the engine is a local object; the journal is
    what remains of the state. *)
Definition run (type : cipher_t) (pad : padding_t.t) (iv key : buffer_t)
    (m : mode) (input : buffer_t) (j : journal)
    : outcome buffer_t * journal :=
  let r := (cengine <- make type pad iv key m input ;; compute cengine)
             {| self := cipher_impl.new; calls := j |} in
  (fst r, calls (snd r)).

End Engine.
End crypt_engine.

Section Members.
Context {L : mbedtls} {V : conversions L} {B : buffers L}.

(** The constructor [cipher::cipher(type)]. *)
Definition make (type : cipher_t) (j : journal) : outcome unit * world :=
  cipher_impl.setup type {| self := cipher_impl.new; calls := j |}.

(** [cipher::encrypt] and [cipher::decrypt] (static) *)
Definition encrypt (type : cipher_t) (pad : padding_t.t)
    (iv key input : buffer_t) : journal -> outcome buffer_t * journal :=
  crypt_engine.run type pad iv key encrypt_mode input.

Definition decrypt (type : cipher_t) (pad : padding_t.t)
    (iv key input : buffer_t) : journal -> outcome buffer_t * journal :=
  crypt_engine.run type pad iv key decrypt_mode input.

(** [cipher::supports_aead] *)
Definition supports_aead : bool := MBEDTLS_CIPHER_MODE_AEAD.

(** [cipher::encrypt_aead] (static): returns (tag, output). *)
Definition encrypt_aead (type : cipher_t) (iv key ad input : buffer_t)
    (j : journal) : outcome (buffer_t * buffer_t) * journal :=
  if MBEDTLS_CIPHER_MODE_AEAD then
    let r :=
      (cipher_impl.setup type ;;;
       cipher_impl.key key encrypt_mode ;;;
       fun s =>
         let olen := length input + cipher_impl.block_size (self s) in
         let output := zeros olen in
         let tag := zeros 16 in
         (wt <- c_call_out "mbedtls_cipher_auth_encrypt"
                  (mbedtls_cipher_auth_encrypt iv ad input 16) ;;
          ret (store tag 0 (snd wt),
               resize (olen_after olen (fst wt))
                 (store output 0 (stored (fst wt))))) s)
        {| self := cipher_impl.new; calls := j |} in
    (fst r, calls (snd r))
  else (Throw aead_error, j).

(** [cipher::decrypt_aead] (static): returns (authenticated, output). *)
Definition decrypt_aead (type : cipher_t) (iv key ad tag input : buffer_t)
    (j : journal) : outcome (bool * buffer_t) * journal :=
  if MBEDTLS_CIPHER_MODE_AEAD then
    let r :=
      (cipher_impl.setup type ;;;
       cipher_impl.key key decrypt_mode ;;;
       fun s =>
         let olen := length input + cipher_impl.block_size (self s) in
         let output := zeros olen in
         (rw <- mbedtls_cipher_auth_decrypt iv ad input tag ;;
          let output' :=
            resize (olen_after olen (snd rw))
              (store output 0 (stored (snd rw))) in
          if (fst rw =? MBEDTLS_ERR_CIPHER_AUTH_FAILED)%Z
          then ret (false, output')
          else if (fst rw =? 0)%Z then ret (true, output')
          else throw (exception (fst rw) "decrypt_aead")) s)
        {| self := cipher_impl.new; calls := j |} in
    (fst r, calls (snd r))
  else (Throw aead_error, j).

(** [cipher::iv], [cipher::key], [cipher::padding] forward to [pimpl]. *)
Definition iv : buffer_t -> M unit := cipher_impl.iv.
Definition key : buffer_t -> mode -> M unit := cipher_impl.key.
Definition padding : padding_t.t -> M unit := cipher_impl.padding.

(** [cipher::start] *)
Definition start : M unit :=
  cipher_impl.reset_last_iv ;;;
  c_call_impl "mbedtls_cipher_reset" mbedtls_cipher_reset.

(** [buffer_t cipher::update(buffer_view_t input)] *)
Definition update (input : buffer_t) : M buffer_t :=
  fun s =>
    let osize := length input + cipher_impl.block_size (self s) + 32 in
    let output := zeros osize in
    if cipher_bm.eqb (cipher_impl.block_mode (self s)) cipher_bm.ecb then
      (r <- cipher_impl.update_chunked input output 0 osize ;;
       if negb (fst (fst r) =? 0)%Z
       then throw (exception (fst (fst r)) "update")
       else ret (resize (snd r) (snd (fst r)))) s
    else
      (w <- c_call_out "mbedtls_cipher_update" (mbedtls_cipher_update input) ;;
       ret (resize (olen_after osize w) (store output 0 (stored w)))) s.

(** [size_t cipher::update(input, in_index, count, output, out_index)]:
    [output] is the caller's buffer; it is returned next to the outcome,
    since what was stored into it stays there when the call throws. *)
Definition update_at (input : buffer_t) (in_index count : nat)
    (output : buffer_t) (out_index : nat)
    : world -> outcome nat * buffer_t * world :=
  fun s =>
    if cipher_bm.eqb (cipher_impl.block_mode (self s)) cipher_bm.ecb then
      match cipher_impl.update_chunked (view input in_index count)
              output out_index 0 s with
      | (Ok (r, output', usize), s') =>
          if negb (r =? 0)%Z
          then (Throw (exception r "update"), output', s')
          else (Ok usize, output', s')
      | (Throw e, s') => (Throw e, output, s')
      end
    else
      match mbedtls_cipher_update (view input in_index count) s with
      | (Ok (r, w), s') =>
          let output' := store output out_index (stored w) in
          if (r =? 0)%Z then (Ok (olen_after 0 w), output', s')
          else (Throw (exception r "mbedtls_cipher_update"), output', s')
      | (Throw e, s') => (Throw e, output, s')
      end.

(** [int cipher::update(input, unsigned char* output, size_t& output_size)
    noexcept]: returns the code, the caller's memory at [output] and the
    value of [output_size] afterwards. *)
Definition update_noexcept (input : buffer_t) (output : buffer_t)
    (output_size : nat) : M (Z * buffer_t * nat) :=
  fun s =>
    if cipher_bm.eqb (cipher_impl.block_mode (self s)) cipher_bm.ecb then
      cipher_impl.update_chunked input output 0 output_size s
    else
      (rw <- mbedtls_cipher_update input ;;
       ret (fst rw, store output 0 (stored (snd rw)),
            olen_after output_size (snd rw))) s.

(** [buffer_t cipher::finish()] *)
Definition finish : M buffer_t :=
  fun s =>
    let osize := cipher_impl.block_size (self s) + 32 in
    let output := zeros osize in
    (w <- c_call_out "mbedtls_cipher_finish" mbedtls_cipher_finish ;;
     ret (resize (olen_after osize w) (store output 0 (stored w)))) s.

(** [size_t cipher::finish(buffer_t& output, size_t out_index)] *)
Definition finish_at (output : buffer_t) (out_index : nat)
    : world -> outcome nat * buffer_t * world :=
  fun s =>
    match mbedtls_cipher_finish s with
    | (Ok (r, w), s') =>
        let output' := store output out_index (stored w) in
        if (r =? 0)%Z then (Ok (olen_after 0 w), output', s')
        else (Throw (exception r "mbedtls_cipher_finish"), output', s')
    | (Throw e, s') => (Throw e, output, s')
    end.

(** [int cipher::finish(unsigned char* output, size_t& output_size)
    noexcept] *)
Definition finish_noexcept (output : buffer_t) (output_size : nat)
    : M (Z * buffer_t * nat) :=
  rw <- mbedtls_cipher_finish ;;
  ret (fst rw, store output 0 (stored (snd rw)),
       olen_after output_size (snd rw)).

(** [buffer_t cipher::crypt(buffer_view_t input)] *)
Definition crypt (input : buffer_t) : M buffer_t :=
  start ;;;
  fun s =>
    let osize := 32 + length input + cipher_impl.block_size (self s) in
    let output := zeros osize in
    (w <- c_call_out "mbedtls_cipher_update" (mbedtls_cipher_update input) ;;
     let out_index := olen_after 0 w in
     let output1 := store output 0 (stored w) in
     f <- c_call_out "mbedtls_cipher_finish" mbedtls_cipher_finish ;;
     let fin_len := olen_after 0 f in
     ret (resize (out_index + fin_len)
            (store output1 out_index (stored f)))) s.

End Members.
End cipher.

(** ** Two instances of the mbedtls layer

    They serve to evaluate the wrapper on concrete inputs. *)

(** *** A scripted primitive

    The context is the script of what the data-processing functions
    answer, call after call; configuration calls succeed and leave it
    alone. *)
Module scripted.

Record script : Set := {
  updates : list (Z * written);
  finishes : list (Z * written);
  crypts : list (Z * written);
  auth_encrypts : list (Z * written * buffer_t);
  auth_decrypts : list (Z * written)
}.

Definition quiet : written := {| stored := []; olen := Some 0 |}.

Definition pop {A} (d : A) (l : list A) : A * list A :=
  match l with [] => (d, []) | a :: l' => (a, l') end.

Definition update (c : script) : Z * script * written :=
  let '(r, w, l) := pop (0%Z, quiet) (updates c) in
  (r, {| updates := l; finishes := finishes c; crypts := crypts c;
         auth_encrypts := auth_encrypts c;
         auth_decrypts := auth_decrypts c |}, w).

Definition finish (c : script) : Z * script * written :=
  let '(r, w, l) := pop (0%Z, quiet) (finishes c) in
  (r, {| updates := updates c; finishes := l; crypts := crypts c;
         auth_encrypts := auth_encrypts c;
         auth_decrypts := auth_decrypts c |}, w).

Definition crypt (c : script) : Z * script * written :=
  let '(r, w, l) := pop (0%Z, quiet) (crypts c) in
  (r, {| updates := updates c; finishes := finishes c; crypts := l;
         auth_encrypts := auth_encrypts c;
         auth_decrypts := auth_decrypts c |}, w).

Definition auth_encrypt (c : script) : Z * script * written * buffer_t :=
  let '(r, w, t, l) := pop (0%Z, quiet, []) (auth_encrypts c) in
  (r, {| updates := updates c; finishes := finishes c; crypts := crypts c;
         auth_encrypts := l; auth_decrypts := auth_decrypts c |}, w, t).

Definition auth_decrypt (c : script) : Z * script * written :=
  let '(r, w, l) := pop (0%Z, quiet) (auth_decrypts c) in
  (r, {| updates := updates c; finishes := finishes c; crypts := crypts c;
         auth_encrypts := auth_encrypts c; auth_decrypts := l |}, w).

(** One cipher type, of block mode [bm] and block size [bs]; the native
    enumerations are those of the wrapper. *)
Definition the_info (bm : cipher_bm.t) (bs : nat) : cipher_info_t cipher_bm.t :=
  {| info_block_size := bs; info_iv_size := 0; info_key_bitlen := 8;
     info_mode := bm |}.

Definition lib (bm : cipher_bm.t) (bs : nat) (sc : script) : mbedtls :=
  {| cipher_type_t := unit;
     cipher_mode_t := cipher_bm.t;
     cipher_padding_t := padding_t.t;
     cipher_context_t := script;
     MBEDTLS_CIPHER_MODE_AEAD := true;
     cipher_init := sc;
     cipher_info := fun _ => Some (the_info bm bs);
     cipher_get_block_size := fun _ => bs;
     cipher_info_from_type := fun _ => Some (the_info bm bs);
     cipher_setup := fun c _ => (0%Z, c);
     cipher_set_iv := fun c _ => (0%Z, c);
     cipher_setkey := fun c _ _ _ => (0%Z, c);
     cipher_set_padding_mode := fun c _ => (0%Z, c);
     cipher_reset := fun c => (0%Z, c);
     cipher_update := fun c _ => update c;
     cipher_finish := finish;
     cipher_crypt := fun c _ _ => crypt c;
     cipher_auth_encrypt := fun c _ _ _ _ => auth_encrypt c;
     cipher_auth_decrypt := fun c _ _ _ _ => auth_decrypt c |}.

Definition conv (bm : cipher_bm.t) (bs : nat) (sc : script)
    : conversions (lib bm bs sc) :=
  @Build_conversions (lib bm bs sc) unit
    (fun t => t) (fun p => p) (fun m => m).

End scripted.

(** *** Scripts and states used in the evaluations *)
Module sample.
Import scripted.

Definition no_script : script :=
  {| updates := []; finishes := []; crypts := [];
     auth_encrypts := []; auth_decrypts := [] |}.

Definition says (bs : list byte) : written :=
  {| stored := bs; olen := Some (length bs) |}.

(** The first block is answered with the positive code 1, the second
    with 0. *)
Definition positive_first : script :=
  {| updates := [(1%Z, says [x01; x02]); (0%Z, says [x03; x04])];
     finishes := []; crypts := [];
     auth_encrypts := []; auth_decrypts := [] |}.

(** [mbedtls_cipher_finish] clears [*olen] and then fails. *)
Definition failing_finish : script :=
  {| updates := [];
     finishes := [(MBEDTLS_ERR_CIPHER_FULL_BLOCK_EXPECTED,
                   {| stored := []; olen := Some 0 |})];
     crypts := []; auth_encrypts := []; auth_decrypts := [] |}.

(** [MBEDTLS_ERR_CIPHER_BAD_INPUT_DATA] *)
Definition BAD_INPUT_DATA : Z := (-24832)%Z. (* -0x6100 *)

(** [mbedtls_cipher_update] clears [*olen] and then fails. *)
Definition failing_update : script :=
  {| updates := [(BAD_INPUT_DATA, {| stored := []; olen := Some 0 |})];
     finishes := []; crypts := [];
     auth_encrypts := []; auth_decrypts := [] |}.

(** The first block goes through, the second fails. *)
Definition second_block_fails : script :=
  {| updates := [(0%Z, says [x01; x02]);
                 (BAD_INPUT_DATA, {| stored := []; olen := Some 0 |})];
     finishes := []; crypts := [];
     auth_encrypts := []; auth_decrypts := [] |}.

(** A freshly constructed [cipher] over the scripted primitive. *)
Definition fresh (bm : cipher_bm.t) (bs : nat) (sc : script)
    : world (L := lib bm bs sc) :=
  snd (cipher.make (V := conv bm bs sc) tt []).

End sample.

(** *** A keystream cipher

    A primitive that processes data: every byte is combined by exclusive
    or with a keystream byte drawn from the key and the IV at the running
    position.  [xor_ecb] works on blocks of two bytes and restarts the
    keystream with each block; [xor_stream] takes any length and moves
    on.  It is of no cryptographic value; it stands in for mbedtls where
    a statement assumes a well-behaved primitive. *)
Module keystream.

Definition bxor (a b : byte) : byte :=
  let '(a0, (a1, (a2, (a3, (a4, (a5, (a6, a7))))))) := Byte.to_bits a in
  let '(b0, (b1, (b2, (b3, (b4, (b5, (b6, b7))))))) := Byte.to_bits b in
  Byte.of_bits
    (xorb a0 b0, (xorb a1 b1, (xorb a2 b2, (xorb a3 b3,
     (xorb a4 b4, (xorb a5 b5, (xorb a6 b6, xorb a7 b7))))))).

Inductive type : Set := xor_ecb | xor_stream | xor_unknown.

Definition info := cipher_info_t cipher_bm.t.

Definition info_of (t : type) : option info :=
  match t with
  | xor_ecb =>
      Some {| info_block_size := 2; info_iv_size := 0;
              info_key_bitlen := 16; info_mode := cipher_bm.ecb |}
  | xor_stream =>
      Some {| info_block_size := 1; info_iv_size := 2;
              info_key_bitlen := 16; info_mode := cipher_bm.stream |}
  | xor_unknown => None
  end.

Record context : Set := {
  c_info : option info;
  c_key : buffer_t;
  c_iv : buffer_t;
  c_pos : nat
}.

Definition BAD_INPUT_DATA : Z := (-24832)%Z. (* -0x6100 *)

Definition says (bs : buffer_t) : written :=
  {| stored := bs; olen := Some (length bs) |}.

Definition nothing : written := {| stored := []; olen := Some 0 |}.

Definition key_byte (key iv : buffer_t) (p : nat) : byte :=
  bxor (nth (p mod length key) key x00) (nth (p mod length iv) iv x00).

Fixpoint mask (key iv : buffer_t) (p : nat) (x : buffer_t) : buffer_t :=
  match x with
  | [] => []
  | b :: x' => bxor b (key_byte key iv p) :: mask key iv (S p) x'
  end.

Definition setup (c : context) (i : info) : Z * context :=
  (0%Z, {| c_info := Some i; c_key := c_key c; c_iv := c_iv c;
           c_pos := c_pos c |}).

Definition set_iv (c : context) (iv : buffer_t) : Z * context :=
  (0%Z, {| c_info := c_info c; c_key := c_key c; c_iv := iv;
           c_pos := c_pos c |}).

Definition setkey (c : context) (k : buffer_t) (bitlen : nat)
    (op : operation_t) : Z * context :=
  match c_info c with
  | Some i =>
      if bitlen =? info_key_bitlen i
      then (0%Z, {| c_info := c_info c; c_key := k; c_iv := c_iv c;
                    c_pos := c_pos c |})
      else (BAD_INPUT_DATA, c)
  | None => (BAD_INPUT_DATA, c)
  end.

Definition reset (c : context) : Z * context :=
  (0%Z, {| c_info := c_info c; c_key := c_key c; c_iv := c_iv c;
           c_pos := 0 |}).

Definition update (c : context) (x : buffer_t) : Z * context * written :=
  match c_info c with
  | None => (BAD_INPUT_DATA, c, nothing)
  | Some i =>
      if cipher_bm.eqb (info_mode i) cipher_bm.ecb then
        if length x =? info_block_size i
        then (0%Z, c, says (mask (c_key c) (c_iv c) 0 x))
        else (MBEDTLS_ERR_CIPHER_FULL_BLOCK_EXPECTED, c, nothing)
      else
        (0%Z,
         {| c_info := c_info c; c_key := c_key c; c_iv := c_iv c;
            c_pos := c_pos c + length x |},
         says (mask (c_key c) (c_iv c) (c_pos c) x))
  end.

Definition finish (c : context) : Z * context * written :=
  (0%Z, c, nothing).

(** As in mbedtls: set the IV, reset, update, finish. *)
Definition crypt (c : context) (iv x : buffer_t) : Z * context * written :=
  update {| c_info := c_info c; c_key := c_key c; c_iv := iv; c_pos := 0 |} x.

Definition the_tag (n : nat) : buffer_t := repeat x2a n.

Definition auth_encrypt (c : context) (iv ad x : buffer_t) (tag_len : nat)
    : Z * context * written * buffer_t :=
  (0%Z, c, says (mask (c_key c) iv 0 x), the_tag tag_len).

Definition auth_decrypt (c : context) (iv ad x tag : buffer_t)
    : Z * context * written :=
  (if forallb (Byte.eqb x2a) tag then 0%Z else MBEDTLS_ERR_CIPHER_AUTH_FAILED,
   c, says (mask (c_key c) iv 0 x)).

Definition block_size_of (c : context) : nat :=
  match c_info c with Some i => info_block_size i | None => 0 end.

Definition lib : mbedtls :=
  {| cipher_type_t := type;
     cipher_mode_t := cipher_bm.t;
     cipher_padding_t := padding_t.t;
     cipher_context_t := context;
     MBEDTLS_CIPHER_MODE_AEAD := true;
     cipher_init := {| c_info := None; c_key := []; c_iv := []; c_pos := 0 |};
     cipher_info := c_info;
     cipher_get_block_size := block_size_of;
     cipher_info_from_type := info_of;
     cipher_setup := setup;
     cipher_set_iv := set_iv;
     cipher_setkey := setkey;
     cipher_set_padding_mode := fun c _ => (0%Z, c);
     cipher_reset := reset;
     cipher_update := update;
     cipher_finish := finish;
     cipher_crypt := crypt;
     cipher_auth_encrypt := auth_encrypt;
     cipher_auth_decrypt := auth_decrypt |}.

Definition conv : conversions lib :=
  @Build_conversions lib type (fun t => t) (fun p => p) (fun m => m).

(** Contexts of the two directions under one cipher and one key. *)
Definition paired (i : info) (cE cD : context) : Prop :=
  c_info cE = Some i /\ c_info cD = Some i /\ c_key cE = c_key cD.

(** What stays the same through a session: the cipher and the key. *)
Definition session (c : context) : option info * buffer_t :=
  (c_info c, c_key c).

End keystream.

(** *** A block cipher with padding

    One cipher type, in CBC mode, of block size 2.  Encryption pads its
    input to whole blocks the PKCS7 way, with [k] bytes of value [k]
    ([k] is 1 or 2).  Decryption stores the whole decrypted input,
    padding included, and reports the length without the padding, which
    it reads off the last byte. *)
Module padded.

Definition the_info : cipher_info_t cipher_bm.t :=
  {| info_block_size := 2; info_iv_size := 2; info_key_bitlen := 16;
     info_mode := cipher_bm.cbc |}.

Definition info_eqb (i : cipher_info_t cipher_bm.t) : bool :=
  (info_block_size i =? 2) && (info_iv_size i =? 2) &&
  (info_key_bitlen i =? 16) && cipher_bm.eqb (info_mode i) cipher_bm.cbc.

Record context : Set := { p_key : buffer_t; p_op : operation_t }.

Definition BAD_INPUT_DATA : Z := (-24832)%Z.        (* -0x6100 *)
Definition FEATURE_UNAVAILABLE : Z := (-24704)%Z.   (* -0x6080 *)
Definition INVALID_PADDING : Z := (-25088)%Z.       (* -0x6200 *)

Definition pad (x : buffer_t) : buffer_t :=
  if Nat.even (length x) then [x02; x02] else [x01].

Definition pad_len (p : buffer_t) : option nat :=
  match last p x00 with
  | x01 => Some 1
  | x02 => Some 2
  | _ => None
  end.

Definition setup (c : context) (i : cipher_info_t cipher_bm.t)
    : Z * context :=
  if info_eqb i then (0%Z, c) else (BAD_INPUT_DATA, c).

Definition setkey (c : context) (k : buffer_t) (bitlen : nat)
    (op : operation_t) : Z * context :=
  if bitlen =? 16 then (0%Z, {| p_key := k; p_op := op |})
  else (BAD_INPUT_DATA, c).

Definition crypt (c : context) (iv x : buffer_t) : Z * context * written :=
  match p_op c with
  | MBEDTLS_ENCRYPT =>
      (0%Z, c, keystream.says (keystream.mask (p_key c) iv 0 (x ++ pad x)))
  | MBEDTLS_DECRYPT =>
      let p := keystream.mask (p_key c) iv 0 x in
      match pad_len p with
      | Some k =>
          if (k <=? length p) && Nat.even (length p)
          then (0%Z, c, {| stored := p; olen := Some (length p - k) |})
          else (INVALID_PADDING, c, keystream.nothing)
      | None => (INVALID_PADDING, c, keystream.nothing)
      end
  end.

Definition lib : mbedtls :=
  {| cipher_type_t := unit;
     cipher_mode_t := cipher_bm.t;
     cipher_padding_t := padding_t.t;
     cipher_context_t := context;
     MBEDTLS_CIPHER_MODE_AEAD := true;
     cipher_init := {| p_key := []; p_op := MBEDTLS_ENCRYPT |};
     cipher_info := fun _ => Some the_info;
     cipher_get_block_size := fun _ => 2;
     cipher_info_from_type := fun _ => Some the_info;
     cipher_setup := setup;
     cipher_set_iv := fun c _ => (0%Z, c);
     cipher_setkey := setkey;
     cipher_set_padding_mode := fun c _ => (0%Z, c);
     cipher_reset := fun c => (0%Z, c);
     cipher_update := fun c _ => (0%Z, c, keystream.nothing);
     cipher_finish := fun c => (0%Z, c, keystream.nothing);
     cipher_crypt := crypt;
     cipher_auth_encrypt := fun c _ _ _ _ =>
       (FEATURE_UNAVAILABLE, c, keystream.nothing, []);
     cipher_auth_decrypt := fun c _ _ _ _ =>
       (FEATURE_UNAVAILABLE, c, keystream.nothing) |}.

Definition conv : conversions lib :=
  @Build_conversions lib unit (fun t => t) (fun p => p) (fun m => m).

(** Contexts of the two directions under one key. *)
Definition paired (i : cipher_info_t cipher_bm.t) (cE cD : context) : Prop :=
  i = the_info /\ p_op cE = MBEDTLS_ENCRYPT /\ p_op cD = MBEDTLS_DECRYPT /\
  p_key cE = p_key cD.

End padded.

(** *** Keys, IVs and states used in the evaluations *)
Module keyed_sample.
Import keystream.

Definition key2 : buffer_t := [x6b; x65].
Definition iv2 : buffer_t := [x01; x02].

(** A [cipher] of the given type, constructed, keyed for encryption and
    given an IV through the public interface. *)
Definition ready (t : type) : world (L := lib) :=
  snd ((cipher.key (L := lib) key2 encrypt_mode ;;; cipher.iv iv2)
         (snd (cipher.make (V := conv) t []))).

(** The same with an IV of 16 bytes. *)
Definition iv16 : buffer_t :=
  [x01; x02; x03; x04; x05; x06; x07; x08;
   x09; x0a; x0b; x0c; x0d; x0e; x0f; x10].

Definition ready16 (t : type) : world (L := lib) :=
  snd ((cipher.key (L := lib) key2 encrypt_mode ;;; cipher.iv iv16)
         (snd (cipher.make (V := conv) t []))).

End keyed_sample.

(** *** Two instances of the storage of [buffer_t]

    [in_place]: the bytes stay where they are when the buffer is
    assigned anew, and a zero byte follows them.  [scrubbing n]: contents
    of up to [n] bytes are kept in place; longer ones live in a block of
    their own, which is released when the buffer is assigned anew and
    then reads as bytes [0xdd]. *)
Definition in_place (L : mbedtls) : buffers L :=
  {| past_the_end := fun _ _ => x00;
     released := fun o k => nth k (iv_data_ o) x00 |}.

Definition scrubbing (L : mbedtls) (n : nat) : buffers L :=
  {| past_the_end := fun _ _ => x00;
     released := fun o k =>
       if length (iv_data_ o) <=? n then nth k (iv_data_ o) x00 else xdd |}.

(** ** The GCM members of [class cipher]

    [gcm_additional_data], [gcm_encryption_tag] and
    [gcm_check_decryption_tag] call three more functions of mbedtls,
    compiled in under [MBEDTLS_GCM_C].  The journal keeps to the calls
    of the layer above; these three change the context only. *)

Class mbedtls_gcm (L : mbedtls) : Type := {
  MBEDTLS_GCM_C : bool;
  cipher_update_ad : cipher_context_t -> buffer_t -> Z * cipher_context_t;
  (* the bytes stored at [tag], for a requested [tag_len] *)
  cipher_write_tag : cipher_context_t -> nat ->
                     Z * cipher_context_t * buffer_t;
  cipher_check_tag : cipher_context_t -> buffer_t -> Z * cipher_context_t
}.

Section GcmMembers.
Context {L : mbedtls} {G : mbedtls_gcm L}.

Definition with_ctx (s : world) (c : cipher_context_t) : world :=
  {| self := {| ctx_ := c; iv_data_ := iv_data_ (self s) |};
     calls := calls s |}.

Definition mbedtls_cipher_update_ad (ad : buffer_t) : M Z :=
  fun s => let '(r, c) := cipher_update_ad (ctx_ (self s)) ad in
           (Ok r, with_ctx s c).

Definition mbedtls_cipher_write_tag (tag_len : nat) : M (Z * buffer_t) :=
  fun s => let '(r, c, t) := cipher_write_tag (ctx_ (self s)) tag_len in
           (Ok (r, t), with_ctx s c).

Definition mbedtls_cipher_check_tag (tag : buffer_t) : M Z :=
  fun s => let '(r, c) := cipher_check_tag (ctx_ (self s)) tag in
           (Ok r, with_ctx s c).

(** [cipher::gcm_additional_data] *)
Definition gcm_additional_data (ad : buffer_t) : M unit :=
  if MBEDTLS_GCM_C then
    c_call_impl "mbedtls_cipher_update_ad" (mbedtls_cipher_update_ad ad)
  else throw gcm_error.

(** [cipher::gcm_encryption_tag] *)
Definition gcm_encryption_tag (length : nat) : M buffer_t :=
  if MBEDTLS_GCM_C then
    let tag := zeros length in
    t <- c_call_out "mbedtls_cipher_write_tag"
           (mbedtls_cipher_write_tag length) ;;
    ret (store tag 0 t)
  else throw gcm_error.

(** [cipher::gcm_check_decryption_tag] *)
Definition gcm_check_decryption_tag (tag : buffer_t) : M bool :=
  if MBEDTLS_GCM_C then
    r <- mbedtls_cipher_check_tag tag ;;
    if (r =? 0)%Z then ret true
    else if (r =? MBEDTLS_ERR_CIPHER_AUTH_FAILED)%Z then ret false
    else throw (exception r "gcm_check_decryption_tag")
  else throw gcm_error.

End GcmMembers.

(** The keystream cipher with a tag of fixed bytes, and a build without
    GCM. *)
Definition keystream_gcm : mbedtls_gcm keystream.lib :=
  {| MBEDTLS_GCM_C := true;
     cipher_update_ad := fun c _ => (0%Z, c);
     cipher_write_tag := fun c n => (0%Z, c, keystream.the_tag n);
     cipher_check_tag := fun c tag =>
       (if forallb (Byte.eqb x2a) tag then 0%Z
        else MBEDTLS_ERR_CIPHER_AUTH_FAILED, c) |}.

Definition without_gcm (L : mbedtls) : mbedtls_gcm L :=
  {| MBEDTLS_GCM_C := false;
     cipher_update_ad := fun c _ => (0%Z, c);
     cipher_write_tag := fun c _ => (0%Z, c, []);
     cipher_check_tag := fun c _ => (0%Z, c) |}.

(** ** Vocabulary of the statements *)

(** The blocks the chunk loops read: [n] views of [bsize] bytes, from
    offset [i_index] on. *)
Fixpoint blocks_from (n : nat) (b : buffer_t) (bsize i_index : nat)
    : list buffer_t :=
  match n with
  | O => []
  | S n' => view b i_index bsize :: blocks_from n' b bsize (i_index + bsize)
  end.

(** One call of [mbedtls_cipher_update] as the journal shows it: the
    input fed, the code returned, what was stored. *)
Definition fed : Set := buffer_t * Z * written.

Definition fed_input (e : fed) : buffer_t := fst (fst e).
Definition fed_code (e : fed) : Z := snd (fst e).
Definition fed_len (e : fed) : nat := olen_after 0 (snd e).

Definition fed_call {L : mbedtls} (e : fed) : call :=
  call_update (fed_input e) (fed_code e) (snd e).

(** The sum of the lengths the calls reported. *)
Definition total_len (es : list fed) : nat :=
  fold_right (fun e a => fed_len e + a) 0 es.

(** The output after the calls stored their bytes one after the other,
    each at the offset the reported lengths before it add up to. *)
Fixpoint stores_at (out : buffer_t) (pos : nat) (es : list fed) : buffer_t :=
  match es with
  | [] => out
  | e :: es' => stores_at (store out pos (stored (snd e))) (pos + fed_len e) es'
  end.

(** The local object of [encrypt_aead] and [decrypt_aead] once [setup]
    and [key] went through. *)
Definition keyed {L : mbedtls} {V : conversions L}
    (type : cipher_t) (key : buffer_t) (m : mode)
    (j : journal) (s : world) : Prop :=
  (cipher_impl.setup type ;;; cipher_impl.key key m)
    {| self := cipher_impl.new; calls := j |} = (Ok tt, s).

(** The code a journalled call returned, and the kinds of calls. *)
Definition call_code {L : mbedtls} (c : call) : Z :=
  match c with
  | call_setup _ r | call_set_iv _ r | call_setkey _ _ _ r
  | call_set_padding_mode _ r | call_reset r | call_update _ r _
  | call_finish r _ | call_crypt _ _ r _
  | call_auth_encrypt _ _ _ _ r _ _ | call_auth_decrypt _ _ _ _ r _ => r
  end.

(** Configuration calls: they process no data. *)
Definition is_config {L : mbedtls} (c : call) : bool :=
  match c with
  | call_setup _ _ | call_set_iv _ _ | call_setkey _ _ _ _
  | call_set_padding_mode _ _ => true
  | _ => false
  end.

(** The native direction of a [cipher::mode], as [cipher_impl::key]
    chooses it. *)
Definition operation_of (m : mode) : operation_t :=
  match m with
  | encrypt_mode => MBEDTLS_ENCRYPT
  | decrypt_mode => MBEDTLS_DECRYPT
  end.

(** The message of the [usage_error] of the one-shot engine. *)
Definition ecb_usage_message : string :=
  "ecb cipher block: a valid input size must be dividable by block size".

(** The configuration part of the constructor of the one-shot engine:
    a fresh [cim_], then [setup], [padding], [iv], [key]. *)
Definition config_chain {L : mbedtls} {V : conversions L}
    (type : cipher_t) (pad : padding_t.t) (iv key : buffer_t) (m : mode)
    : M unit :=
  (fun s => (Ok tt, {| self := cipher_impl.new; calls := calls s |})) ;;;
  cipher_impl.setup type ;;;
  cipher_impl.padding pad ;;;
  cipher_impl.iv iv ;;;
  cipher_impl.key key m.

(** The size check that ends the constructor, and the engine it leaves. *)
Definition engine_of (bm : cipher_bm.t) (bs : nat) (input : buffer_t)
    : outcome cipher.crypt_engine.t :=
  let isz := length input in
  if cipher_bm.eqb bm cipher_bm.ecb then
    if (isz =? 0) || negb (isz mod bs =? 0) then
      Throw (usage_error ecb_usage_message)
    else
      Ok {| cipher.crypt_engine.block_mode_ := bm;
            cipher.crypt_engine.block_size_ := bs;
            cipher.crypt_engine.input_size_ := isz;
            cipher.crypt_engine.chunks_ := isz / bs;
            cipher.crypt_engine.input_ := input |}
  else
    Ok {| cipher.crypt_engine.block_mode_ := bm;
          cipher.crypt_engine.block_size_ := bs;
          cipher.crypt_engine.input_size_ := isz;
          cipher.crypt_engine.chunks_ := 1;
          cipher.crypt_engine.input_ := input |}.

(** [cipher::encrypt] or [cipher::decrypt], by direction. *)
Definition one_shot {L : mbedtls} {V : conversions L} {B : buffers L}
    (m : mode)
    : cipher_t -> padding_t.t -> buffer_t -> buffer_t -> buffer_t ->
      journal -> outcome buffer_t * journal :=
  match m with
  | encrypt_mode => cipher.encrypt
  | decrypt_mode => cipher.decrypt
  end.

Unset Implicit Arguments.

(** ** What the wrapper relies on from mbedtls

    The statements below that depend on how the primitives behave take
    these as hypotheses.  They say what [mbedtls/cipher.h] documents. *)

(** The context remembers the cipher it was set up for, and the
    primitives report lengths within the bounds the header documents
    for their output buffers. *)
Class documented_lengths {L : mbedtls} (V : conversions L) : Prop := {
  setup_sets_info : forall c i c',
    cipher_setup c i = (0%Z, c') -> cipher_info c' = Some i;
  set_padding_keeps_info : forall c p c',
    cipher_set_padding_mode c p = (0%Z, c') -> cipher_info c' = cipher_info c;
  set_iv_keeps_info : forall c iv c',
    cipher_set_iv c iv = (0%Z, c') -> cipher_info c' = cipher_info c;
  setkey_keeps_info : forall c k n op c',
    cipher_setkey c k n op = (0%Z, c') -> cipher_info c' = cipher_info c;
  update_keeps_info : forall c x r c' w,
    cipher_update c x = (r, c', w) -> cipher_info c' = cipher_info c;
  crypt_keeps_info : forall c iv x c' w,
    cipher_crypt c iv x = (0%Z, c', w) -> cipher_info c' = cipher_info c;
  block_size_of_info : forall c i,
    cipher_info c = Some i -> cipher_get_block_size c = info_block_size i;
  (* at most ilen + block_size bytes *)
  update_length : forall c x c' w n,
    cipher_update c x = (0%Z, c', w) -> olen w = Some n ->
    n <= length x + cipher_get_block_size c;
  (* at most block_size bytes *)
  finish_length : forall c c' w n,
    cipher_finish c = (0%Z, c', w) -> olen w = Some n ->
    n <= cipher_get_block_size c;
  crypt_length : forall c iv x c' w n,
    cipher_crypt c iv x = (0%Z, c', w) -> olen w = Some n ->
    n <= length x + cipher_get_block_size c;
  auth_encrypt_length : forall c iv ad x tl c' w t n,
    cipher_auth_encrypt c iv ad x tl = (0%Z, c', w, t) -> olen w = Some n ->
    n <= length x + cipher_get_block_size c;
  (* in ECB mode a block gives a block *)
  ecb_update_length : forall c i x r c' w n,
    cipher_info c = Some i -> from_native (info_mode i) = cipher_bm.ecb ->
    cipher_update c x = (r, c', w) -> (0 <= r)%Z -> olen w = Some n ->
    n <= length x;
  ecb_crypt_length : forall c i iv x c' w n,
    cipher_info c = Some i -> from_native (info_mode i) = cipher_bm.ecb ->
    cipher_crypt c iv x = (0%Z, c', w) -> olen w = Some n ->
    n <= length x
}.

(** The IV handed to [mbedtls_cipher_crypt] by the one-shot engine when
    the context is [c] and the remembered IV is [ivd]. *)
Definition crypt_iv {L : mbedtls} {V : conversions L} {B : buffers L}
    (ivd : buffer_t) (c : cipher_context_t) : buffer_t :=
  over_read {| ctx_ := c; iv_data_ := ivd |}
    (cipher_impl.iv_size {| ctx_ := c; iv_data_ := ivd |}).

(** Successive successful calls of [mbedtls_cipher_crypt] on the same
    context: the inputs with what was stored for each, from the context
    before the first call to the context after the last. *)
Inductive crypt_chain {L : mbedtls} {V : conversions L} {B : buffers L}
    (ivd : buffer_t)
    : cipher_context_t -> list (buffer_t * written) -> cipher_context_t
      -> Prop :=
| chain_nil c : crypt_chain ivd c [] c
| chain_cons c x w c1 l c2 :
    cipher_crypt c (crypt_iv ivd c) x = (0%Z, c1, w) ->
    crypt_chain ivd c1 l c2 ->
    crypt_chain ivd c ((x, w) :: l) c2.

(** The output after the blocks were stored [bsize] bytes apart. *)
Fixpoint stores_fixed (out : buffer_t) (pos bsize : nat) (ws : list written)
    : buffer_t :=
  match ws with
  | [] => out
  | w :: ws' => stores_fixed (store out pos (stored w)) (pos + bsize) bsize ws'
  end.

(** The sum of the lengths reported, each counter starting at zero. *)
Definition reported (ws : list written) : nat :=
  fold_right (fun w a => olen_after 0 w + a) 0 ws.

(** The primitive calls of a configuration that goes through, from the
    zeroed context to the context [c4] the engine computes with. *)
Definition configured {L : mbedtls} {V : conversions L}
    (i : cipher_info_t cipher_mode_t) (pad : padding_t.t)
    (iv key : buffer_t) (m : mode) (c4 : cipher_context_t) : Prop :=
  exists c1 c2 c3,
    cipher_setup cipher_init i = (0%Z, c1) /\
    (pad = padding_t.none /\ c2 = c1 \/
     pad <> padding_t.none /\
     cipher_set_padding_mode c1 (to_native_padding pad) = (0%Z, c2)) /\
    cipher_set_iv c2 iv = (0%Z, c3) /\
    cipher_setkey c3 key (Nat.shiftl (length key) 3) (operation_of m)
      = (0%Z, c4).

(** A configuration supported in both directions: whenever it
    configures a context for encryption, it configures one for
    decryption, and the two are paired. *)
Definition supported {L : mbedtls} {V : conversions L}
    (paired : cipher_info_t cipher_mode_t ->
              cipher_context_t -> cipher_context_t -> Prop)
    (type : cipher_t) (pad : padding_t.t) (iv key : buffer_t) : Prop :=
  forall i cE,
    cipher_impl.native_info type = Ok i ->
    configured i pad iv key encrypt_mode cE ->
    exists cD, configured i pad iv key decrypt_mode cD /\ paired i cE cD.

(** Decryption undoes encryption.  [paired i cE cD] relates a context
    keyed for encryption and one keyed for decryption, both set up for
    the cipher [i] with the same key.  Decrypting the bytes an
    encryption reported gives the input back: it is reported in full and
    lies at the front of what the decryption stored, which may hold more
    (a padded last block, of which only the data is reported). *)
Class crypt_inverts {L : mbedtls} (V : conversions L)
    (paired : cipher_info_t cipher_mode_t ->
              cipher_context_t -> cipher_context_t -> Prop) : Prop := {
  inverts_lengths : documented_lengths V;
  (* [*olen] is set, to no more than the number of bytes stored *)
  reported_was_stored : forall c iv x c' w,
    cipher_crypt c iv x = (0%Z, c', w) ->
    exists n, olen w = Some n /\ n <= length (stored w);
  (* in ECB mode the output is as long as the input, and all reported *)
  ecb_same_length : forall c i iv x c' w,
    cipher_info c = Some i -> from_native (info_mode i) = cipher_bm.ecb ->
    cipher_crypt c iv x = (0%Z, c', w) ->
    length (stored w) = length x /\ olen w = Some (length x);
  paired_info : forall i cE cD,
    paired i cE cD -> cipher_info cE = Some i /\ cipher_info cD = Some i;
  paired_after_encrypt : forall i cE cD iv x cE' w,
    paired i cE cD -> cipher_crypt cE iv x = (0%Z, cE', w) -> paired i cE' cD;
  paired_after_decrypt : forall i cE cD iv y cD' w,
    paired i cE cD -> cipher_crypt cD iv y = (0%Z, cD', w) -> paired i cE cD';
  decrypt_inverts : forall i cE cD iv x cE' w n,
    paired i cE cD -> cipher_crypt cE iv x = (0%Z, cE', w) ->
    olen w = Some n ->
    exists cD' w',
      cipher_crypt cD iv (firstn n (stored w)) = (0%Z, cD', w') /\
      olen w' = Some (length x) /\ firstn (length x) (stored w') = x
}.

(** Streaming a message: [update] on each piece in turn, collecting
    what comes back, and a whole message from [start] to [finish]. *)
Fixpoint updates {L : mbedtls} {V : conversions L} (inputs : list buffer_t)
    : M (list buffer_t) :=
  match inputs with
  | [] => ret []
  | x :: rest =>
      o <- cipher.update x ;;
      os <- updates rest ;;
      ret (o :: os)
  end.

Definition message {L : mbedtls} {V : conversions L} {B : buffers L}
    (inputs : list buffer_t) : M (list buffer_t * buffer_t) :=
  cipher.start ;;;
  os <- updates inputs ;;
  f <- cipher.finish ;;
  ret (os, f).

(** Restarting.  [session c] is what a context keeps for as long as it
    is neither set up nor keyed again; [alike] relates contexts that
    answer alike from then on.  Setting the same IV and resetting brings
    any two contexts of one session to contexts that are alike. *)
Class restartable {L : mbedtls} (V : conversions L) {K : Type}
    (session : cipher_context_t -> K)
    (alike : cipher_context_t -> cipher_context_t -> Prop) : Prop := {
  alike_info : forall c1 c2,
    alike c1 c2 ->
    cipher_info c1 = cipher_info c2 /\
    cipher_get_block_size c1 = cipher_get_block_size c2;
  alike_update : forall c1 c2 x r c1' w,
    alike c1 c2 -> cipher_update c1 x = (r, c1', w) ->
    exists c2', cipher_update c2 x = (r, c2', w) /\ alike c1' c2';
  alike_finish : forall c1 c2 r c1' w,
    alike c1 c2 -> cipher_finish c1 = (r, c1', w) ->
    exists c2', cipher_finish c2 = (r, c2', w) /\ alike c1' c2';
  session_update : forall c x r c' w,
    cipher_update c x = (r, c', w) -> session c' = session c;
  session_finish : forall c r c' w,
    cipher_finish c = (r, c', w) -> session c' = session c;
  session_set_iv : forall c iv c',
    cipher_set_iv c iv = (0%Z, c') -> session c' = session c;
  session_reset : forall c c',
    cipher_reset c = (0%Z, c') -> session c' = session c;
  restart_alike : forall c1 c2 iv a1 b1,
    session c1 = session c2 ->
    cipher_set_iv c1 iv = (0%Z, a1) -> cipher_reset a1 = (0%Z, b1) ->
    exists a2 b2,
      cipher_set_iv c2 iv = (0%Z, a2) /\ cipher_reset a2 = (0%Z, b2) /\
      alike b1 b2
}.

(** States whose contexts are alike. *)
Definition states_alike {L : mbedtls}
    (alike : cipher_context_t -> cipher_context_t -> Prop)
    (s t : world) : Prop :=
  alike (ctx_ (self s)) (ctx_ (self t)).

(** The streaming primitives store what they report, return no positive
    code, and leave the block size alone. *)
Class streams_as_reported {L : mbedtls} (V : conversions L) : Prop := {
  streams_lengths : documented_lengths V;
  update_code_not_positive : forall c x r c' w,
    cipher_update c x = (r, c', w) -> (r <= 0)%Z;
  update_stores_reported : forall c x c' w,
    cipher_update c x = (0%Z, c', w) -> olen w = Some (length (stored w));
  finish_stores_reported : forall c c' w,
    cipher_finish c = (0%Z, c', w) -> olen w = Some (length (stored w));
  update_keeps_block_size : forall c x c' w,
    cipher_update c x = (0%Z, c', w) ->
    cipher_get_block_size c' = cipher_get_block_size c;
  (* in ECB mode a block gives a whole block *)
  ecb_update_whole_block : forall c i x c' w,
    cipher_info c = Some i -> from_native (info_mode i) = cipher_bm.ecb ->
    cipher_update c x = (0%Z, c', w) -> length (stored w) = length x
}.

(** The bytes the update calls stored, end to end. *)
Definition fed_bytes (es : list fed) : buffer_t :=
  concat (map (fun e => stored (snd e)) es).

(** A remembered IV that a view of it still shows after [iv_data_] was
    assigned anew, whatever the context: so with a [buffer_t] that keeps
    such contents in place. *)
Definition iv_stays_readable {L : mbedtls} {B : buffers L} (x : buffer_t)
    : Prop :=
  forall c, stale_view {| ctx_ := c; iv_data_ := x |} = x.

(** The four calls of [cipher::crypt(input)] when all of them return
    zero: from the state [s] to the state [s1], [w1] and [w2] being what
    update and finish stored. *)
Definition crypt_steps {L : mbedtls} {B : buffers L} (s : world)
    (input : buffer_t) (w1 w2 : written) (s1 : world) (bsize : nat) : Prop :=
  exists a b c1 c2,
    cipher_set_iv (ctx_ (self s)) (stale_view (self s)) = (0%Z, a) /\
    cipher_reset a = (0%Z, b) /\
    cipher_update b input = (0%Z, c1, w1) /\
    cipher_finish c1 = (0%Z, c2, w2) /\
    bsize = cipher_get_block_size b /\
    s1 = {| self := {| ctx_ := c2; iv_data_ := iv_data_ (self s) |};
            calls := calls s ++
              [call_set_iv (stale_view (self s)) 0; call_reset 0;
               call_update input 0 w1; call_finish 0 w2] |}.

(** Successive calls of [mbedtls_cipher_update] on the same context,
    whatever their codes: what was fed, returned and stored, from the
    context before the first call to the context after the last. *)
Inductive fed_chain {L : mbedtls}
    : cipher_context_t -> list fed -> cipher_context_t -> Prop :=
| fed_nil c : fed_chain c [] c
| fed_cons c x r w c1 l c2 :
    cipher_update c x = (r, c1, w) ->
    fed_chain c1 l c2 ->
    fed_chain c ((x, r, w) :: l) c2.

(** A call that reported the number of bytes it stored. *)
Definition fed_exact (e : fed) : Prop :=
  olen (snd e) = Some (length (stored (snd e))).

(** Authenticated decryption undoes authenticated encryption: a key
    accepted for one direction is accepted for the other, the ciphertext
    is as long as the plaintext, the tag as long as asked for, and the
    context keyed for decryption gives the plaintext back and accepts
    the tag. *)
Class aead_inverts {L : mbedtls} (V : conversions L) : Prop := {
  aead_key_both_ways : forall c k n cE,
    cipher_setkey c k n MBEDTLS_ENCRYPT = (0%Z, cE) ->
    exists cD, cipher_setkey c k n MBEDTLS_DECRYPT = (0%Z, cD);
  aead_encrypt_exact : forall c iv ad x tl c' w t,
    cipher_auth_encrypt c iv ad x tl = (0%Z, c', w, t) ->
    olen w = Some (length (stored w)) /\
    length (stored w) = length x /\ length t = tl;
  aead_decrypt_inverts : forall c k n cE cD iv ad x tl cE' w t,
    cipher_setkey c k n MBEDTLS_ENCRYPT = (0%Z, cE) ->
    cipher_setkey c k n MBEDTLS_DECRYPT = (0%Z, cD) ->
    cipher_auth_encrypt cE iv ad x tl = (0%Z, cE', w, t) ->
    exists cD' w',
      cipher_auth_decrypt cD iv ad (stored w) t = (0%Z, cD', w') /\
      stored w' = x /\ olen w' = Some (length x)
}.


(** * Properties *)

(** ** Buffers *)

Lemma length_zeros (n : nat) : length (zeros n) = n.
Proof. apply repeat_length. Qed.

Lemma length_resize (n : nat) (b : buffer_t) : length (resize n b) = n.
Proof.
  unfold resize. rewrite length_app, length_firstn, repeat_length. lia.
Qed.

Lemma length_store (b : buffer_t) (off : nat) (w : buffer_t) :
  length (store b off w) = length b.
Proof.
  unfold store. rewrite !length_app, !length_firstn, length_skipn. lia.
Qed.

(** A store that fits at the start of a buffer puts the bytes in front. *)
Lemma store_front (b w : buffer_t) :
  length w <= length b -> store b 0 w = w ++ skipn (length w) b.
Proof.
  intros H. unfold store. simpl. rewrite Nat.sub_0_r.
  now rewrite firstn_all2 by exact H.
Qed.

Lemma resize_front (n : nat) (w r : buffer_t) :
  n = length w -> resize n (w ++ r) = w.
Proof.
  intros ->. unfold resize.
  rewrite firstn_app, firstn_all, Nat.sub_diag, length_app. simpl.
  replace (length w - (length w + length r)) with 0 by lia.
  simpl. now rewrite !app_nil_r.
Qed.

(** What a buffer-returning operation hands back when the primitive
    stored exactly the bytes it reported and they fit. *)
Lemma resize_store_exact (cap : nat) (w : buffer_t) :
  length w <= cap -> resize (length w) (store (zeros cap) 0 w) = w.
Proof.
  intros H. rewrite store_front by (rewrite length_zeros; exact H).
  now apply resize_front.
Qed.


(** On a buffer of [n] whole blocks the views are the blocks: they have
    [bsize] bytes each and, put end to end, they are the buffer. *)
Lemma blocks_from_exact n b bsize i :
  length b = i + n * bsize ->
  Forall (fun x => length x = bsize) (blocks_from n b bsize i) /\
  concat (blocks_from n b bsize i) = skipn i b.
Proof.
  revert i. induction n as [|n IH]; simpl; intros i H.
  - split; [constructor|]. rewrite skipn_all2; [reflexivity|lia].
  - destruct (IH (i + bsize)) as [F C]; [lia|]. split.
    + constructor; [|exact F]. unfold view.
      rewrite length_firstn, length_skipn. lia.
    + rewrite C. unfold view.
      rewrite Nat.add_comm, <- skipn_skipn. apply firstn_skipn.
Qed.

(** ** Storage *)

Lemma nth_seq_from (pre suf : buffer_t) :
  map (fun k => nth k (pre ++ suf) x00) (seq (length pre) (length suf)) = suf.
Proof.
  revert pre. induction suf as [|b suf IH]; intros pre; simpl; [reflexivity|].
  f_equal.
  - rewrite app_nth2 by lia. now rewrite Nat.sub_diag.
  - specialize (IH (pre ++ [b])).
    rewrite length_app, <- app_assoc in IH. simpl in IH.
    rewrite Nat.add_1_r in IH. exact IH.
Qed.

(** With the bytes kept in place every remembered IV stays readable;
    with a [buffer_t] that keeps short contents in place, the short
    ones do. *)
Lemma in_place_readable (L : mbedtls) (x : buffer_t) :
  iv_stays_readable (B := in_place L) x.
Proof. intros c. exact (nth_seq_from [] x). Qed.

Lemma scrubbing_readable (L : mbedtls) (n : nat) (x : buffer_t) :
  length x <= n -> iv_stays_readable (B := scrubbing L n) x.
Proof.
  intros H c. unfold stale_view. simpl.
  replace (length x <=? n) with true by (symmetry; now apply Nat.leb_le).
  exact (nth_seq_from [] x).
Qed.

(** ** The ECB chunk driver *)

Section ChunkDriver.
Context {L : mbedtls} {V : conversions L} {B : buffers L}.

Ltac step_update s input :=
  unfold bind at 1, mbedtls_cipher_update at 1;
  destruct (cipher_update (ctx_ (self s)) input) as [[r c] w] eqn:Hupd.

(** The loop, whatever the primitive answers: it returns (never throws),
    the calls it made are updates on consecutive blocks, and it stops
    either after all [n] blocks with code 0, or at the first negative
    code, which it returns. *)
Lemma update_chunked_loop_spec n achunk bsize out base osize :
  forall i o s,
  exists (es : list fed) r out' osize' s',
    cipher_impl.update_chunked_loop n achunk bsize i o out base osize s
      = (Ok (r, out', osize'), s') /\
    calls s' = calls s ++ map fed_call es /\
    iv_data_ (self s') = iv_data_ (self s) /\
    map fed_input es = blocks_from (length es) achunk bsize i /\
    out' = stores_at out (base + o) es /\
    ((r = 0%Z /\ length es = n /\
      Forall (fun e => (0 <= fed_code e)%Z) es /\ osize' = o + total_len es)
     \/
     (exists pre last, es = pre ++ [last] /\ length es <= n /\
        Forall (fun e => (0 <= fed_code e)%Z) pre /\
        fed_code last = r /\ (r < 0)%Z /\ osize' = osize)).
Proof.
  revert out. induction n as [|n IH]; intros out i o s; simpl.
  - exists [], 0%Z, out, o, s. unfold ret. simpl.
    rewrite app_nil_r. do 5 (split; [reflexivity|]).
    left. repeat split; auto.
  - step_update s (view achunk i bsize). simpl.
    destruct (r <? 0)%Z eqn:Hneg.
    + exists [(view achunk i bsize, r, w)], r,
        (store out (base + o) (stored w)), osize,
        (after s c (call_update (view achunk i bsize) r w)).
      unfold ret. simpl. do 5 (split; [reflexivity|]).
      right. exists [], (view achunk i bsize, r, w). simpl.
      repeat split; auto; lia.
    + destruct (IH (store out (base + o) (stored w)) (i + bsize)
                  (o + olen_after 0 w)
                  (after s c (call_update (view achunk i bsize) r w)))
        as (es & r' & out' & osize' & s' & Hrun & Hcalls & Hiv & Hin & Hout & Hres).
      exists ((view achunk i bsize, r, w) :: es), r', out', osize', s'.
      split; [exact Hrun|]. split.
      { rewrite Hcalls. simpl. now rewrite <- app_assoc. }
      split; [rewrite Hiv; reflexivity|]. split.
      { simpl. now rewrite Hin. }
      split.
      { simpl. unfold fed_len at 1. simpl.
        now rewrite Hout, Nat.add_assoc. }
      apply Z.ltb_ge in Hneg.
      destruct Hres as [(Hr & Hlen & Hall & Hsz) | (pre & last & He & Hlen & Hall & Hc & Hlt & Hsz)].
      * left. repeat split; auto.
        -- simpl; lia.
        -- simpl. unfold fed_len at 1. simpl. lia.
      * right. exists ((view achunk i bsize, r, w) :: pre), last.
        repeat split; auto.
        -- now rewrite He.
        -- simpl; lia.
Qed.

Lemma blocks_from_firstn k n b bsize i :
  k <= n -> blocks_from k b bsize i = firstn k (blocks_from n b bsize i).
Proof.
  revert n i. induction k as [|k IH]; intros n i H; [reflexivity|].
  destruct n as [|n]; [lia|]. simpl. f_equal. apply IH. lia.
Qed.

Lemma Forall_firstn {A} (P : A -> Prop) k (l : list A) :
  Forall P l -> Forall P (firstn k l).
Proof.
  intros H. revert k. induction H; intros [|k]; simpl; constructor; auto.
Qed.

(** C3 (as amended): on a block-aligned input the chunk driver never
    throws; every call it makes to the primitive is an update fed exactly
    one block, the blocks being taken in order from the input; each
    call's output is stored at the offset the lengths reported so far add
    up to.  It stops either after the last block, returning 0 with
    [osize] set to the sum of the reported lengths (no code was
    negative), or at the first call that returns a negative code: it
    returns that code at once, makes no further call and leaves [osize]
    as it was.  A positive code does not stop it. *)
Theorem update_chunked_feeds_blocks achunk out base osize s :
  let bsize := cipher_impl.block_size (self s) in
  let all_blocks := blocks_from (length achunk / bsize) achunk bsize 0 in
  0 < bsize ->
  length achunk mod bsize = 0 ->
  concat all_blocks = achunk /\
  exists (es : list fed) r out' osize' s',
    cipher_impl.update_chunked achunk out base osize s
      = (Ok (r, out', osize'), s') /\
    calls s' = calls s ++ map fed_call es /\
    map fed_input es = firstn (length es) all_blocks /\
    Forall (fun e => length (fed_input e) = bsize) es /\
    out' = stores_at out base es /\
    ((r = 0%Z /\ length es = length achunk / bsize /\
      Forall (fun e => (0 <= fed_code e)%Z) es /\ osize' = total_len es)
     \/
     (exists pre last, es = pre ++ [last] /\
        Forall (fun e => (0 <= fed_code e)%Z) pre /\
        fed_code last = r /\ (r < 0)%Z /\ osize' = osize)).
Proof.
  intros bsize all_blocks Hpos Hmod.
  assert (Hlen : length achunk = 0 + (length achunk / bsize) * bsize).
  { pose proof (Nat.div_mod_eq (length achunk) bsize). lia. }
  destruct (blocks_from_exact _ _ _ _ Hlen) as [Hsz Hcat].
  split; [exact Hcat|].
  unfold cipher_impl.update_chunked. fold bsize.
  rewrite Hmod. simpl.
  destruct (update_chunked_loop_spec (length achunk / bsize) achunk bsize
              out base osize 0 0 s)
    as (es & r & out' & osize' & s' & Hrun & Hcalls & _ & Hin & Hout & Hres).
  assert (Hk : length es <= length achunk / bsize).
  { destruct Hres as [(_ & H & _) | (pre & last & _ & H & _)]; lia. }
  assert (Hfirst : map fed_input es = firstn (length es) all_blocks).
  { rewrite Hin. now apply blocks_from_firstn. }
  exists es, r, out', osize', s'.
  split; [exact Hrun|]. split; [exact Hcalls|]. split; [exact Hfirst|].
  split.
  { apply (Forall_firstn _ (length es)) in Hsz.
    change (Forall (fun x => length x = bsize)
              (firstn (length es) all_blocks)) in Hsz.
    rewrite <- Hfirst in Hsz. now apply Forall_map in Hsz. }
  split; [now rewrite Nat.add_0_r in Hout|].
  destruct Hres as [(Hr & Hl & Hall & Ho) | (pre & last & He & _ & Hall & Hc & Hlt & Ho)].
  - left. repeat split; auto.
  - right. exists pre, last. repeat split; auto.
Qed.

(** The chunk driver on any input: it returns, never throws; a non-zero
    code leaves [osize] as it was. *)
Lemma update_chunked_total achunk out base osize s :
  exists (es : list fed) r out' osize' s',
    cipher_impl.update_chunked achunk out base osize s
      = (Ok (r, out', osize'), s') /\
    calls s' = calls s ++ map fed_call es /\
    iv_data_ (self s') = iv_data_ (self s) /\
    out' = stores_at out base es /\
    (r <> 0%Z -> osize' = osize) /\
    (r = 0%Z -> osize' = total_len es).
Proof.
  unfold cipher_impl.update_chunked.
  destruct (negb _).
  - exists [], MBEDTLS_ERR_CIPHER_FULL_BLOCK_EXPECTED, out, osize, s.
    simpl. rewrite app_nil_r. repeat split; auto.
    unfold MBEDTLS_ERR_CIPHER_FULL_BLOCK_EXPECTED. discriminate.
  - destruct (update_chunked_loop_spec
                (length achunk / cipher_impl.block_size (self s)) achunk
                (cipher_impl.block_size (self s)) out base osize 0 0 s)
      as (es & r & out' & osize' & s' & Hrun & Hcalls & Hiv & _ & Hout & Hres).
    exists es, r, out', osize', s'. rewrite Nat.add_0_r in Hout.
    repeat split; auto.
    + destruct Hres as [(Hr & _) | (pre & last & _ & _ & _ & _ & _ & Ho)];
        [contradiction | auto].
    + destruct Hres as [(_ & _ & _ & Ho) | (pre & last & _ & _ & _ & _ & Hlt & _)];
        [auto | lia].
Qed.

(** The code the loop returns and the state it leaves do not depend on
    where the output goes. *)
Lemma update_chunked_loop_frame n achunk bsize out1 base1 osize1
    out2 base2 osize2 :
  forall i o s r x k s',
    cipher_impl.update_chunked_loop n achunk bsize i o out1 base1 osize1 s
      = (Ok (r, x, k), s') ->
    exists x2 k2,
      cipher_impl.update_chunked_loop n achunk bsize i o out2 base2 osize2 s
        = (Ok (r, x2, k2), s').
Proof.
  revert out1 out2. induction n as [|n IH]; intros out1 out2 i o s r x k s'; simpl.
  - unfold ret. intros H. injection H as <- _ _ <-. now eexists _, _.
  - unfold bind, mbedtls_cipher_update.
    destruct (cipher_update (ctx_ (self s)) (view achunk i bsize))
      as [[r0 c] w]. simpl.
    destruct (r0 <? 0)%Z.
    + unfold ret. intros H. injection H as <- _ _ <-. now eexists _, _.
    + apply IH.
Qed.

Lemma update_chunked_frame achunk out1 base1 osize1 out2 base2 osize2
    s r x k s' :
  cipher_impl.update_chunked achunk out1 base1 osize1 s = (Ok (r, x, k), s') ->
  exists x2 k2,
    cipher_impl.update_chunked achunk out2 base2 osize2 s
      = (Ok (r, x2, k2), s').
Proof.
  unfold cipher_impl.update_chunked. destruct (negb _).
  - intros H. injection H as <- _ _ <-. now eexists _, _.
  - apply update_chunked_loop_frame.
Qed.

End ChunkDriver.

(** ** The monad *)

Section MonadLaws.
Context {L : mbedtls}.

Lemma bind_ok {A B} (m : M A) (k : A -> M B) s a s' :
  m s = (Ok a, s') -> bind m k s = k a s'.
Proof. unfold bind. now intros ->. Qed.

Lemma bind_throw {A B} (m : M A) (k : A -> M B) s e s' :
  m s = (Throw e, s') -> bind m k s = (Throw e, s').
Proof. unfold bind. now intros ->. Qed.

Lemma bind_assoc {A B C} (m : M A) (k : A -> M B) (h : B -> M C) s :
  bind (bind m k) h s = bind m (fun a => bind (k a) h) s.
Proof. unfold bind. destruct (m s) as [[a|e] s']; reflexivity. Qed.

(** A successful [bind] went through both halves. *)
Lemma bind_inv {A B} (m : M A) (k : A -> M B) s b s' :
  bind m k s = (Ok b, s') ->
  exists a s1, m s = (Ok a, s1) /\ k a s1 = (Ok b, s').
Proof.
  unfold bind. destruct (m s) as [[a|e] s1]; [|discriminate].
  intros H. now exists a, s1.
Qed.

Lemma c_call_impl_inv tag (f : M Z) s s' :
  c_call_impl tag f s = (Ok tt, s') -> f s = (Ok 0%Z, s').
Proof.
  unfold c_call_impl. intros H. apply bind_inv in H.
  destruct H as (r & s1 & Hf & Hk).
  destruct (r =? 0)%Z eqn:E; [|discriminate].
  apply Z.eqb_eq in E. subst r. inversion Hk. now subst.
Qed.

Lemma c_call_out_inv {A} tag (f : M (Z * A)) s (a : A) s' :
  c_call_out tag f s = (Ok a, s') -> f s = (Ok (0%Z, a), s').
Proof.
  unfold c_call_out. intros H. apply bind_inv in H.
  destruct H as ([r x] & s1 & Hf & Hk). simpl in Hk.
  destruct (r =? 0)%Z eqn:E; [|discriminate].
  apply Z.eqb_eq in E. subst r. inversion Hk. now subst.
Qed.

End MonadLaws.

(** ** The configuration calls, one by one *)

Section Configuration.
Context {L : mbedtls} {V : conversions L} {B : buffers L}.

Lemma c_call_impl_run tag (f : M Z) s r s1 :
  f s = (Ok r, s1) ->
  c_call_impl tag f s =
    (if (r =? 0)%Z then Ok tt else Throw (exception r tag), s1).
Proof.
  intros H. unfold c_call_impl. rewrite (bind_ok _ _ _ _ _ H).
  destruct (r =? 0)%Z; reflexivity.
Qed.

Lemma setup_run type i s r c :
  cipher_impl.native_info type = Ok i ->
  cipher_setup (ctx_ (self s)) i = (r, c) ->
  cipher_impl.setup type s =
    (if (r =? 0)%Z then Ok tt
     else Throw (exception r "mbedtls_cipher_setup"),
     after s c (call_setup i r)).
Proof.
  intros Hi Hs. unfold cipher_impl.setup, lift. rewrite Hi.
  unfold bind at 1. apply c_call_impl_run.
  unfold mbedtls_cipher_setup. now rewrite Hs.
Qed.

Lemma setup_unknown type s :
  cipher_impl.native_info type = Throw unknown_cipher ->
  cipher_impl.setup type s = (Throw unknown_cipher, s).
Proof.
  intros Hi. unfold cipher_impl.setup, lift, bind. now rewrite Hi.
Qed.

Lemma native_info_cases type :
  (exists i, cipher_impl.native_info type = Ok i) \/
  cipher_impl.native_info type = Throw unknown_cipher.
Proof.
  unfold cipher_impl.native_info.
  destruct (cipher_info_from_type (to_native type)) as [i|];
    [left; now exists i | now right].
Qed.

Lemma padding_run p s r c :
  p <> padding_t.none ->
  cipher_set_padding_mode (ctx_ (self s)) (to_native_padding p) = (r, c) ->
  cipher_impl.padding p s =
    (if (r =? 0)%Z then Ok tt
     else Throw (exception r "mbedtls_cipher_set_padding_mode"),
     after s c (call_set_padding_mode (to_native_padding p) r)).
Proof.
  intros Hp Hs. unfold cipher_impl.padding.
  destruct (padding_t.padding_eqb_spec p padding_t.none); [contradiction|].
  apply c_call_impl_run.
  unfold mbedtls_cipher_set_padding_mode. now rewrite Hs.
Qed.

Lemma iv_through_run at_copy at_call s r c :
  cipher_set_iv (ctx_ (self s)) at_call = (r, c) ->
  cipher_impl.iv_through at_copy at_call s =
    (if (r =? 0)%Z then Ok tt
     else Throw (exception r "mbedtls_cipher_set_iv"),
     {| self := {| ctx_ := c; iv_data_ := at_copy |};
        calls := calls s ++ [call_set_iv at_call r] |}).
Proof.
  intros Hs. unfold cipher_impl.iv_through. unfold bind at 1.
  erewrite c_call_impl_run; [reflexivity|].
  unfold mbedtls_cipher_set_iv. simpl. now rewrite Hs.
Qed.

Lemma iv_run iv_data s r c :
  cipher_set_iv (ctx_ (self s)) iv_data = (r, c) ->
  cipher_impl.iv iv_data s =
    (if (r =? 0)%Z then Ok tt
     else Throw (exception r "mbedtls_cipher_set_iv"),
     {| self := {| ctx_ := c; iv_data_ := iv_data |};
        calls := calls s ++ [call_set_iv iv_data r] |}).
Proof. apply iv_through_run. Qed.

(** [reset_last_iv] keeps the remembered IV and hands the primitive what
    the view of it shows by then. *)
Lemma reset_last_iv_run s r c :
  cipher_set_iv (ctx_ (self s)) (stale_view (self s)) = (r, c) ->
  cipher_impl.reset_last_iv s =
    (if (r =? 0)%Z then Ok tt
     else Throw (exception r "mbedtls_cipher_set_iv"),
     {| self := {| ctx_ := c; iv_data_ := iv_data_ (self s) |};
        calls := calls s ++ [call_set_iv (stale_view (self s)) r] |}).
Proof. apply iv_through_run. Qed.

Lemma key_run key_data m s r c :
  cipher_setkey (ctx_ (self s)) key_data (Nat.shiftl (length key_data) 3)
    (operation_of m) = (r, c) ->
  cipher_impl.key key_data m s =
    (if (r =? 0)%Z then Ok tt
     else Throw (exception r "mbedtls_cipher_setkey"),
     after s c (call_setkey key_data (Nat.shiftl (length key_data) 3)
                  (operation_of m) r)).
Proof.
  intros Hs. unfold cipher_impl.key. apply c_call_impl_run.
  unfold mbedtls_cipher_setkey. fold (operation_of m). now rewrite Hs.
Qed.

Lemma reset_run s r c :
  cipher_reset (ctx_ (self s)) = (r, c) ->
  c_call_impl "mbedtls_cipher_reset" mbedtls_cipher_reset s =
    (if (r =? 0)%Z then Ok tt
     else Throw (exception r "mbedtls_cipher_reset"),
     after s c (call_reset r)).
Proof.
  intros Hs. apply c_call_impl_run.
  unfold mbedtls_cipher_reset. now rewrite Hs.
Qed.

End Configuration.

(** ** The constructor of the one-shot engine *)

Section EngineConstructor.
Context {L : mbedtls} {V : conversions L} {B : buffers L}.

(** The constructor is the configuration followed by the size check. *)
Lemma make_eq type pad iv key m input i s :
  cipher_impl.native_info type = Ok i ->
  cipher.crypt_engine.make type pad iv key m input s =
    (config_chain type pad iv key m ;;;
     lift (engine_of (from_native (info_mode i)) (info_block_size i) input)) s.
Proof.
  intros Hi.
  unfold cipher.crypt_engine.make, cipher.block_mode, cipher.block_size,
    cipher.on_info, config_chain, engine_of, ecb_usage_message.
  rewrite Hi. unfold lift, throw, ret, bind. simpl.
  destruct (cipher_impl.setup type _) as [[[]|?] s1]; [|reflexivity].
  destruct (cipher_impl.padding pad s1) as [[[]|?] s2]; [|reflexivity].
  destruct (cipher_impl.iv iv s2) as [[[]|?] s3]; [|reflexivity].
  destruct (cipher_impl.key key m s3) as [[[]|?] s4]; [|reflexivity].
  destruct (cipher_bm.eqb _ _); [|reflexivity].
  destruct (_ || _); reflexivity.
Qed.

Lemma make_unknown type pad iv key m input s :
  cipher_impl.native_info type = Throw unknown_cipher ->
  cipher.crypt_engine.make type pad iv key m input s = (Throw unknown_cipher, s).
Proof.
  intros Hi.
  unfold cipher.crypt_engine.make, cipher.block_mode, cipher.on_info.
  rewrite Hi. reflexivity.
Qed.

(** What the configuration leaves in the journal: configuration calls
    only; all of them returned zero when it went through, and the last
    of them did not when it threw. *)
Lemma config_chain_journal type pad iv key m i s :
  cipher_impl.native_info type = Ok i ->
  exists o s' evs,
    config_chain type pad iv key m s = (o, s') /\
    calls s' = calls s ++ evs /\
    forallb is_config evs = true /\
    match o with
    | Ok _ => Forall (fun c => call_code c = 0%Z) evs
    | Throw e =>
        exists r tag pre last,
          e = exception r tag /\ r <> 0%Z /\
          evs = pre ++ [last] /\ call_code last = r
    end.
Proof.
  intros Hi. unfold config_chain.
  set (s0 := {| self := cipher_impl.new; calls := calls s |}).
  rewrite (bind_ok
             (fun x : world =>
                (Ok tt, {| self := cipher_impl.new; calls := calls x |}))
             _ s tt s0 eq_refl).
  change (calls s) with (calls s0).
  (* setup *)
  destruct (cipher_setup (ctx_ (self s0)) i) as [r1 c1] eqn:H1.
  pose proof (setup_run _ _ _ _ _ Hi H1) as R1.
  set (e1 := call_setup i r1) in *.
  destruct (r1 =? 0)%Z eqn:E1; [apply Z.eqb_eq in E1 | apply Z.eqb_neq in E1].
  2:{ rewrite (bind_throw _ _ _ _ _ R1).
      exists (Throw (exception r1 "mbedtls_cipher_setup")), (after s0 c1 e1), [e1].
      repeat split.
      exists r1, "mbedtls_cipher_setup", [], e1. repeat split. exact E1. }
  rewrite (bind_ok _ _ _ _ _ R1).
  set (s1 := after s0 c1 e1) in *.
  assert (Hs1 : calls s1 = calls s0 ++ [e1]) by reflexivity.
  assert (C1 : call_code e1 = 0%Z) by exact E1.
  assert (I1 : is_config e1 = true) by reflexivity.
  clearbody s1 e1. clear R1 H1.
  (* padding *)
  assert (Hpad : exists o2 s2 evp,
             cipher_impl.padding pad s1 = (o2, s2) /\
             calls s2 = calls s1 ++ evp /\ forallb is_config evp = true /\
             match o2 with
             | Ok _ => Forall (fun c => call_code c = 0%Z) evp
             | Throw e => exists r tag last, e = exception r tag /\
                 r <> 0%Z /\ evp = [last] /\ call_code last = r
             end).
  { destruct (padding_t.padding_eqb_spec pad padding_t.none) as [->|Hp].
    - exists (Ok tt), s1, []. rewrite app_nil_r. repeat split. constructor.
    - destruct (cipher_set_padding_mode (ctx_ (self s1))
                  (to_native_padding pad)) as [r2 c2] eqn:H2.
      rewrite (padding_run _ _ _ _ Hp H2).
      do 2 eexists. exists [call_set_padding_mode (to_native_padding pad) r2].
      split; [reflexivity|]. split; [reflexivity|]. split; [reflexivity|].
      destruct (r2 =? 0)%Z eqn:E2;
        [apply Z.eqb_eq in E2 | apply Z.eqb_neq in E2].
      + repeat constructor. exact E2.
      + do 3 eexists. repeat split. exact E2. }
  destruct Hpad as (o2 & s2 & evp & R2 & Hs2 & Hf2 & Ho2).
  destruct o2 as [[]|e2].
  2:{ rewrite (bind_throw _ _ _ _ _ R2).
      destruct Ho2 as (r & tag & last & -> & Hr & -> & Hl).
      exists (Throw (exception r tag)), s2, [e1; last].
      split; [reflexivity|]. split; [now rewrite Hs2, Hs1, <- app_assoc|].
      split; [simpl in *; now rewrite I1, Hf2|].
      exists r, tag, [e1], last. repeat split; assumption. }
  rewrite (bind_ok _ _ _ _ _ R2). clear R2.
  (* iv *)
  destruct (cipher_set_iv (ctx_ (self s2)) iv) as [r3 c3] eqn:H3.
  pose proof (iv_run _ _ _ _ H3) as R3.
  set (e3 := call_set_iv iv r3) in *.
  destruct (r3 =? 0)%Z eqn:E3; [apply Z.eqb_eq in E3 | apply Z.eqb_neq in E3].
  2:{ rewrite (bind_throw _ _ _ _ _ R3).
      do 2 eexists. exists (e1 :: evp ++ [e3]).
      split; [reflexivity|]. simpl calls.
      rewrite Hs2, Hs1, <- !app_assoc. split; [reflexivity|].
      split.
      - simpl. now rewrite I1, forallb_app, Hf2.
      - exists r3, "mbedtls_cipher_set_iv", (e1 :: evp), e3.
        repeat split. exact E3. }
  rewrite (bind_ok _ _ _ _ _ R3).
  set (s3 := {| self := {| ctx_ := c3; iv_data_ := iv |};
                calls := calls s2 ++ [e3] |}) in *.
  (* key *)
  destruct (cipher_setkey (ctx_ (self s3)) key (Nat.shiftl (length key) 3)
              (operation_of m)) as [r4 c4] eqn:H4.
  rewrite (key_run _ _ _ _ _ H4).
  set (e4 := call_setkey key (Nat.shiftl (length key) 3) (operation_of m) r4).
  do 2 eexists. exists (e1 :: evp ++ [e3; e4]).
  split; [reflexivity|]. simpl calls.
  rewrite Hs2, Hs1, <- !app_assoc. split; [reflexivity|].
  split.
  { simpl. now rewrite I1, forallb_app, Hf2. }
  destruct (r4 =? 0)%Z eqn:E4; [apply Z.eqb_eq in E4 | apply Z.eqb_neq in E4].
  - constructor; [exact C1|]. apply Forall_app. split; [exact Ho2|].
    repeat constructor; assumption.
  - exists r4, "mbedtls_cipher_setkey", (e1 :: evp ++ [e3]), e4.
    repeat split; [exact E4|]. simpl. now rewrite <- app_assoc.
Qed.

(** A configuration that goes through is a sequence of four (three
    without padding) primitive calls that return zero. *)
Lemma config_chain_inv type pad iv key m i s s' :
  cipher_impl.native_info type = Ok i ->
  config_chain type pad iv key m s = (Ok tt, s') ->
  exists c4, configured i pad iv key m c4 /\
             self s' = {| ctx_ := c4; iv_data_ := iv |}.
Proof.
  intros Hi H. unfold config_chain in H.
  apply bind_inv in H. destruct H as ([] & s0 & H0 & H).
  injection H0 as <-.
  apply bind_inv in H. destruct H as ([] & s1 & H1 & H).
  apply bind_inv in H. destruct H as ([] & s2 & H2 & H).
  apply bind_inv in H. destruct H as ([] & s3 & H3 & H4).
  (* setup *)
  unfold cipher_impl.setup, lift in H1. rewrite Hi in H1.
  unfold bind at 1 in H1. apply c_call_impl_inv in H1.
  unfold mbedtls_cipher_setup in H1. simpl in H1.
  destruct (cipher_setup cipher_init i) as [r1 c1] eqn:E1.
  injection H1 as -> <-.
  (* padding *)
  assert (P : exists c2,
            (pad = padding_t.none /\ c2 = c1 \/
             pad <> padding_t.none /\
             cipher_set_padding_mode c1 (to_native_padding pad) = (0%Z, c2)) /\
            ctx_ (self s2) = c2 /\ iv_data_ (self s2) = []).
  { unfold cipher_impl.padding in H2.
    destruct (padding_t.padding_eqb_spec pad padding_t.none) as [->|Hp].
    - injection H2 as <-. exists c1. simpl. auto.
    - apply c_call_impl_inv in H2.
      unfold mbedtls_cipher_set_padding_mode in H2. simpl in H2.
      destruct (cipher_set_padding_mode c1 (to_native_padding pad))
        as [r2 c2] eqn:E2.
      injection H2 as -> <-. exists c2. simpl. auto. }
  destruct P as (c2 & Hpad & Hc2 & _).
  (* iv *)
  unfold cipher_impl.iv, cipher_impl.iv_through in H3. unfold bind at 1 in H3.
  apply c_call_impl_inv in H3.
  unfold mbedtls_cipher_set_iv in H3. simpl in H3. rewrite Hc2 in H3.
  destruct (cipher_set_iv c2 iv) as [r3 c3] eqn:E3.
  injection H3 as -> <-.
  (* key *)
  unfold cipher_impl.key in H4. apply c_call_impl_inv in H4.
  unfold mbedtls_cipher_setkey, after in H4. cbn [ctx_ self] in H4.
  fold (operation_of m) in H4.
  destruct (cipher_setkey c3 key (Nat.shiftl (length key) 3) (operation_of m))
    as [r4 c4] eqn:E4.
  injection H4 as -> <-.
  exists c4. split; [|reflexivity]. now exists c1, c2, c3.
Qed.


End EngineConstructor.

(** ** The ECB length checks *)

Section EcbLength.
Context {L : mbedtls} {V : conversions L} {B : buffers L}.

Lemma one_shot_run m type pad iv key input j :
  one_shot m type pad iv key input j =
  cipher.crypt_engine.run type pad iv key m input j.
Proof. destruct m; reflexivity. Qed.

(** The one-shot engine on an ECB input of a bad length. *)
Lemma run_ecb_bad_length type pad iv key m input j i :
  cipher_impl.native_info type = Ok i ->
  from_native (info_mode i) = cipher_bm.ecb ->
  length input = 0 \/ length input mod info_block_size i <> 0 ->
  exists e evs,
    cipher.crypt_engine.run type pad iv key m input j = (Throw e, j ++ evs) /\
    forallb is_config evs = true /\
    (Forall (fun c => call_code c = 0%Z) evs ->
     e = usage_error ecb_usage_message).
Proof.
  intros Hi Hecb Hbad.
  unfold cipher.crypt_engine.run.
  set (s0 := {| self := cipher_impl.new; calls := j |}).
  assert (Heng : engine_of (from_native (info_mode i)) (info_block_size i)
                   input = Throw (usage_error ecb_usage_message)).
  { unfold engine_of. rewrite Hecb. simpl.
    destruct (length input =? 0) eqn:E0; [reflexivity|].
    apply Nat.eqb_neq in E0.
    destruct (length input mod info_block_size i =? 0) eqn:E1;
      [|reflexivity].
    apply Nat.eqb_eq in E1. destruct Hbad; contradiction. }
  destruct (config_chain_journal type pad iv key m i s0 Hi)
    as (o & s' & evs & Hrun & Hcalls & Hcfg & Ho).
  assert (Hmk : exists e,
            cipher.crypt_engine.make type pad iv key m input s0 = (Throw e, s')
            /\ (Forall (fun c => call_code c = 0%Z) evs ->
                e = usage_error ecb_usage_message)).
  { rewrite (make_eq type pad iv key m input i s0 Hi).
    destruct o as [[]|e].
    - rewrite (bind_ok _ _ _ _ _ Hrun). unfold lift. rewrite Heng.
      now exists (usage_error ecb_usage_message).
    - rewrite (bind_throw _ _ _ _ _ Hrun). exists e. split; [reflexivity|].
      intros Hall. destruct Ho as (r & tag & pre & last & -> & Hr & -> & Hl).
      apply Forall_app in Hall. destruct Hall as [_ Hall].
      inversion Hall; subst. contradiction. }
  destruct Hmk as (e & Hmk & He).
  exists e, evs. rewrite (bind_throw _ _ _ _ _ Hmk). simpl.
  rewrite Hcalls. repeat split; auto.
Qed.

(** The chunk count the constructor leaves. *)
Lemma make_chunks type pad iv key m input i s e s' :
  cipher_impl.native_info type = Ok i ->
  cipher.crypt_engine.make type pad iv key m input s = (Ok e, s') ->
  engine_of (from_native (info_mode i)) (info_block_size i) input = Ok e /\
  config_chain type pad iv key m s = (Ok tt, s') /\
  cipher.crypt_engine.chunks_ e =
    (if cipher_bm.eqb (from_native (info_mode i)) cipher_bm.ecb
     then length input / info_block_size i else 1) /\
  (from_native (info_mode i) = cipher_bm.ecb ->
   0 < length input /\ length input mod info_block_size i = 0).
Proof.
  intros Hi Hmake. rewrite (make_eq type pad iv key m input i s Hi) in Hmake.
  apply bind_inv in Hmake. destruct Hmake as ([] & s1 & Hcfg & Hl).
  unfold lift in Hl. injection Hl as H0 Hs. subst s1.
  split; [exact H0|]. split; [exact Hcfg|].
  unfold engine_of in H0.
  destruct (cipher_bm.bm_eqb_spec (from_native (info_mode i)) cipher_bm.ecb)
    as [Hecb|Hne].
  - destruct (length input =? 0) eqn:E0; [discriminate|].
    destruct (length input mod info_block_size i =? 0) eqn:E1;
      [|discriminate].
    simpl in H0. injection H0 as <-. simpl.
    apply Nat.eqb_neq in E0. apply Nat.eqb_eq in E1.
    split; [reflexivity|]. intros _. split; [lia|assumption].
  - injection H0 as <-. simpl. split; [reflexivity|].
    intros H; contradiction.
Qed.

(** The chunk driver on an input that is not block-aligned: the code
    [FULL_BLOCK_EXPECTED], with nothing called and nothing stored. *)
Lemma update_chunked_unaligned achunk out base osize s :
  length achunk mod cipher_impl.block_size (self s) <> 0 ->
  cipher_impl.update_chunked achunk out base osize s =
    (Ok (MBEDTLS_ERR_CIPHER_FULL_BLOCK_EXPECTED, out, osize), s).
Proof.
  intros H. unfold cipher_impl.update_chunked.
  apply Nat.eqb_neq in H. now rewrite H.
Qed.

(** The chunk driver on an empty input: success, nothing called. *)
Lemma update_chunked_empty out base osize s :
  cipher_impl.update_chunked [] out base osize s = (Ok (0%Z, out, 0), s).
Proof.
  unfold cipher_impl.update_chunked. simpl length.
  rewrite Nat.Div0.mod_0_l, Nat.Div0.div_0_l. reflexivity.
Qed.

Lemma view_all (b : buffer_t) : view b 0 (length b) = b.
Proof. unfold view. simpl. apply firstn_all. Qed.

(** C2 (as amended).
    One-shot: for an ECB cipher type with a positive block size and an
    input whose length is zero or not a multiple of the block size,
    [encrypt] and [decrypt] throw; the calls made are configuration calls
    only (no data was handed to the primitive), and when all of them
    returned zero the exception is [usage_error].
    Streaming, ECB context: an input whose length is not a multiple of
    the block size makes every [update] overload fail with
    [FULL_BLOCK_EXPECTED] (thrown, or returned by the noexcept overload),
    the state and the caller's buffer being left as they were; an empty
    input is accepted and produces nothing.
    Chunk count: a constructor that succeeds leaves
    [input_length / block_size] for an ECB type (the length being then a
    positive multiple of the block size) and 1 for any other type. *)
Theorem ecb_length_precondition :
  (forall m type pad iv key input j i,
     cipher_impl.native_info type = Ok i ->
     from_native (info_mode i) = cipher_bm.ecb ->
     0 < info_block_size i ->
     length input = 0 \/ length input mod info_block_size i <> 0 ->
     exists e evs,
       one_shot m type pad iv key input j = (Throw e, j ++ evs) /\
       forallb is_config evs = true /\
       (Forall (fun c => call_code c = 0%Z) evs ->
        e = usage_error ecb_usage_message)) /\
  (forall input output out_index osize s,
     cipher_impl.block_mode (self s) = cipher_bm.ecb ->
     0 < cipher_impl.block_size (self s) ->
     length input mod cipher_impl.block_size (self s) <> 0 ->
     cipher.update input s =
       (Throw (exception MBEDTLS_ERR_CIPHER_FULL_BLOCK_EXPECTED "update"), s) /\
     cipher.update_at input 0 (length input) output out_index s =
       (Throw (exception MBEDTLS_ERR_CIPHER_FULL_BLOCK_EXPECTED "update"),
        output, s) /\
     cipher.update_noexcept input output osize s =
       (Ok (MBEDTLS_ERR_CIPHER_FULL_BLOCK_EXPECTED, output, osize), s)) /\
  (forall output osize s,
     cipher_impl.block_mode (self s) = cipher_bm.ecb ->
     cipher.update [] s = (Ok [], s) /\
     cipher.update_noexcept [] output osize s = (Ok (0%Z, output, 0), s)) /\
  (forall type pad iv key m input i s e s',
     cipher_impl.native_info type = Ok i ->
     cipher.crypt_engine.make type pad iv key m input s = (Ok e, s') ->
     cipher.crypt_engine.chunks_ e =
       (if cipher_bm.eqb (from_native (info_mode i)) cipher_bm.ecb
        then length input / info_block_size i else 1) /\
     (from_native (info_mode i) = cipher_bm.ecb ->
      0 < length input /\ length input mod info_block_size i = 0)).
Proof.
  split; [|split; [|split]].
  - intros m type pad iv key input j i Hi Hecb _ Hbad.
    rewrite one_shot_run. now apply run_ecb_bad_length with (i := i).
  - intros input output out_index osize s Hecb _ Hmod.
    unfold cipher.update, cipher.update_at, cipher.update_noexcept.
    rewrite Hecb, view_all. simpl cipher_bm.eqb. cbv iota.
    rewrite !update_chunked_unaligned by exact Hmod.
    unfold bind. rewrite update_chunked_unaligned by exact Hmod.
    repeat split.
  - intros output osize s Hecb.
    unfold cipher.update, cipher.update_noexcept.
    rewrite Hecb. simpl cipher_bm.eqb. cbv iota.
    rewrite update_chunked_empty.
    unfold bind. rewrite update_chunked_empty. split; reflexivity.
  - intros type pad iv key m input i s e s' Hi Hmake.
    destruct (make_chunks _ _ _ _ _ _ _ _ _ _ Hi Hmake) as (_ & _ & H1 & H2).
    split; assumption.
Qed.

End EcbLength.

(** ** The noexcept overloads *)

Section Noexcept.
Context {L : mbedtls} {V : conversions L} {B : buffers L}.

(** C10 (as amended): the noexcept overloads of [update] and [finish]
    always return normally, with a code.  On the ECB path the code is
    the chunk driver's, and [output_size] is assigned only when it is
    zero.  On the other paths the code is the primitive's own, and
    [output_size] holds whatever the primitive stored through the
    pointer, on failure as on success. *)
Theorem noexcept_overloads_relay_codes :
  (forall input output output_size s,
     exists r out' n s',
       cipher.update_noexcept input output output_size s
         = (Ok (r, out', n), s') /\
       (cipher_impl.block_mode (self s) = cipher_bm.ecb ->
        cipher_impl.update_chunked input output 0 output_size s
          = (Ok (r, out', n), s') /\
        (r <> 0%Z -> n = output_size))) /\
  (forall input output output_size s r c w,
     cipher_impl.block_mode (self s) <> cipher_bm.ecb ->
     cipher_update (ctx_ (self s)) input = (r, c, w) ->
     cipher.update_noexcept input output output_size s =
       (Ok (r, store output 0 (stored w), olen_after output_size w),
        after s c (call_update input r w))) /\
  (forall output output_size s r c w,
     cipher_finish (ctx_ (self s)) = (r, c, w) ->
     cipher.finish_noexcept output output_size s =
       (Ok (r, store output 0 (stored w), olen_after output_size w),
        after s c (call_finish r w))).
Proof.
  split; [|split].
  - intros input output output_size s.
    unfold cipher.update_noexcept.
    destruct (cipher_bm.bm_eqb_spec (cipher_impl.block_mode (self s))
                cipher_bm.ecb) as [Hecb|Hne].
    + destruct (update_chunked_total input output 0 output_size s)
        as (es & r & out' & n & s' & Hrun & _ & _ & _ & Hfail & _).
      exists r, out', n, s'. split; [exact Hrun|].
      intros _. split; [exact Hrun | exact Hfail].
    + unfold bind, mbedtls_cipher_update.
      destruct (cipher_update (ctx_ (self s)) input) as [[r c] w].
      unfold ret. simpl. do 4 eexists. split; [reflexivity|].
      intros H; contradiction.
  - intros input output output_size s r c w Hne Hupd.
    unfold cipher.update_noexcept.
    destruct (cipher_bm.bm_eqb_spec (cipher_impl.block_mode (self s))
                cipher_bm.ecb) as [Hecb|_]; [contradiction|].
    unfold bind, mbedtls_cipher_update. now rewrite Hupd.
  - intros output output_size s r c w Hfin.
    unfold cipher.finish_noexcept, bind, mbedtls_cipher_finish.
    now rewrite Hfin.
Qed.

End Noexcept.

(** ** The compute step of the one-shot engine *)

Section Compute.
Context {L : mbedtls} {V : conversions L} {B : buffers L}.

Lemma crypt_call_run src s r c w :
  cipher_crypt (ctx_ (self s)) (crypt_iv (iv_data_ (self s)) (ctx_ (self s))) src
    = (r, c, w) ->
  cipher.crypt_engine.crypt_call src s =
    (if (r =? 0)%Z then Ok w
     else Throw (exception r "mbedtls_cipher_crypt"),
     after s c (call_crypt (crypt_iv (iv_data_ (self s)) (ctx_ (self s)))
                  src r w)).
Proof.
  intros H. unfold cipher.crypt_engine.crypt_call, c_call_out, bind,
    mbedtls_cipher_crypt.
  unfold crypt_iv in H. destruct s as [[c0 ivd] j]. simpl in *.
  unfold crypt_iv. simpl.
  rewrite H. simpl. destruct (r =? 0)%Z; reflexivity.
Qed.

(** A run of the loop that returns went through a chain of successful
    calls, one per block. *)
Lemma compute_loop_chain n e :
  forall pSrc pDes osize out s k out' s',
    cipher.crypt_engine.compute_loop n e pSrc pDes osize out s
      = (Ok (k, out'), s') ->
    exists l evs,
      map fst l = blocks_from n (cipher.crypt_engine.input_ e)
                    (cipher.crypt_engine.block_size_ e) pSrc /\
      crypt_chain (iv_data_ (self s)) (ctx_ (self s)) l (ctx_ (self s')) /\
      iv_data_ (self s') = iv_data_ (self s) /\
      k = osize + reported (map snd l) /\
      out' = stores_fixed out pDes (cipher.crypt_engine.block_size_ e)
               (map snd l) /\
      calls s' = calls s ++ evs /\
      Forall (fun c => call_code c = 0%Z) evs.
Proof.
  induction n as [|n IH]; intros pSrc pDes osize out s k out' s'; simpl.
  - unfold ret. intros H. injection H as <- <- <-.
    exists [], []. simpl. rewrite app_nil_r, Nat.add_0_r.
    repeat split; constructor.
  - intros H. apply bind_inv in H. destruct H as (w & s1 & Hc & Hrest).
    destruct (cipher_crypt (ctx_ (self s))
                (crypt_iv (iv_data_ (self s)) (ctx_ (self s)))
                (view (cipher.crypt_engine.input_ e) pSrc
                   (cipher.crypt_engine.block_size_ e)))
      as [[r c] w0] eqn:Hprim.
    rewrite (crypt_call_run _ _ _ _ _ Hprim) in Hc.
    destruct (r =? 0)%Z eqn:Er; [|discriminate].
    apply Z.eqb_eq in Er. subst r. injection Hc as <- <-.
    apply IH in Hrest.
    destruct Hrest as (l & evs & Hin & Hch & Hiv & Hk & Hout & Hcalls & Hall).
    exists ((view (cipher.crypt_engine.input_ e) pSrc
               (cipher.crypt_engine.block_size_ e), w0) :: l),
      (call_crypt (crypt_iv (iv_data_ (self s)) (ctx_ (self s)))
         (view (cipher.crypt_engine.input_ e) pSrc
            (cipher.crypt_engine.block_size_ e)) 0 w0 :: evs).
    simpl in *. repeat split.
    + now rewrite Hin.
    + econstructor; [exact Hprim | exact Hch].
    + exact Hiv.
    + lia.
    + exact Hout.
    + rewrite Hcalls. now rewrite <- app_assoc.
    + constructor; [reflexivity | exact Hall].
Qed.


End Compute.

(** ** Output sizing *)

Section Sizing.
Context {L : mbedtls} {V : conversions L} {B : buffers L}
        {HL : documented_lengths V}.

Lemma resize_is_firstn n (b : buffer_t) :
  n <= length b -> resize n b = firstn n b.
Proof.
  intros H. unfold resize. replace (n - length b) with 0 by lia.
  simpl. apply app_nil_r.
Qed.

Lemma length_stores_at out pos es :
  length (stores_at out pos es) = length out.
Proof.
  revert out pos. induction es as [|e es IH]; intros out pos; simpl;
    [reflexivity|]. now rewrite IH, length_store.
Qed.

Lemma length_stores_fixed out pos bsize ws :
  length (stores_fixed out pos bsize ws) = length out.
Proof.
  revert out pos. induction ws as [|w ws IH]; intros out pos; simpl;
    [reflexivity|]. now rewrite IH, length_store.
Qed.

Lemma length_view b off count : length (view b off count) <= count.
Proof. unfold view. rewrite length_firstn. lia. Qed.

(** Consecutive views do not overlap: together they are no longer than
    what is left of the buffer. *)
Lemma length_concat_blocks_from n b bsize i :
  length (concat (blocks_from n b bsize i)) <= length b - i.
Proof.
  revert i. induction n as [|n IH]; intros i; simpl; [lia|].
  rewrite length_app. specialize (IH (i + bsize)).
  unfold view at 1. rewrite length_firstn, length_skipn. lia.
Qed.

Lemma configured_info i pad iv key m c4 :
  configured i pad iv key m c4 -> cipher_info c4 = Some i.
Proof.
  intros (c1 & c2 & c3 & E1 & Hpad & E3 & E4).
  rewrite (setkey_keeps_info _ _ _ _ _ E4), (set_iv_keeps_info _ _ _ E3).
  destruct Hpad as [[_ ->] | [_ E2]].
  - exact (setup_sets_info _ _ _ E1).
  - rewrite (set_padding_keeps_info _ _ _ E2).
    exact (setup_sets_info _ _ _ E1).
Qed.

Lemma block_mode_ecb_info c :
  cipher_impl.block_mode c = cipher_bm.ecb ->
  exists i, cipher_info (ctx_ c) = Some i /\
            from_native (info_mode i) = cipher_bm.ecb.
Proof.
  unfold cipher_impl.block_mode.
  destruct (cipher_info (ctx_ c)) as [i|]; [|discriminate].
  intros H. now exists i.
Qed.

(** In ECB mode the chunk loop reports no more than it was fed. *)
Lemma update_chunked_loop_bound n achunk bsize out base osize info :
  from_native (info_mode info) = cipher_bm.ecb ->
  forall i o s x k s',
    cipher_info (ctx_ (self s)) = Some info ->
    cipher_impl.update_chunked_loop n achunk bsize i o out base osize s
      = (Ok (0%Z, x, k), s') ->
    k <= o + length (concat (blocks_from n achunk bsize i)).
Proof.
  intros Hecb. revert out.
  induction n as [|n IH]; intros out i o s x k s' Hinfo; simpl.
  - unfold ret. intros H. injection H as _ <- _. lia.
  - unfold bind at 1, mbedtls_cipher_update at 1.
    destruct (cipher_update (ctx_ (self s)) (view achunk i bsize))
      as [[r c] w] eqn:Hupd. simpl.
    destruct (r <? 0)%Z eqn:Hneg.
    + unfold ret. intros H. injection H as -> _ _ _. discriminate.
    + apply Z.ltb_ge in Hneg. intros H. apply IH in H.
      2:{ simpl. now rewrite (update_keeps_info _ _ _ _ _ Hupd). }
      rewrite length_app.
      assert (olen_after 0 w <= length (view achunk i bsize)).
      { unfold olen_after. destruct (olen w) as [n0|] eqn:Ho; [|lia].
        exact (ecb_update_length _ _ _ _ _ _ _ Hinfo Hecb Hupd Hneg Ho). }
      lia.
Qed.

(** In ECB mode a chain of one-shot calls reports no more than it was
    fed, and the context stays an ECB context. *)
Lemma crypt_chain_bound ivd info c l c' :
  from_native (info_mode info) = cipher_bm.ecb ->
  cipher_info c = Some info ->
  crypt_chain ivd c l c' ->
  reported (map snd l) <= length (concat (map fst l)) /\
  cipher_info c' = Some info.
Proof.
  intros Hecb Hinfo Hch. induction Hch as [c|c x w c1 l c2 Hprim Hch IH].
  - simpl. auto.
  - destruct IH as [IH1 IH2].
    { now rewrite (crypt_keeps_info _ _ _ _ _ Hprim). }
    split; [|exact IH2]. simpl. rewrite length_app.
    assert (olen_after 0 w <= length x).
    { unfold olen_after. destruct (olen w) as [n0|] eqn:Ho; [|lia].
      exact (ecb_crypt_length _ _ _ _ _ _ _ Hinfo Hecb Hprim Ho). }
    lia.
Qed.

(** The streaming [update]. *)
Lemma update_sizing input s out s' :
  cipher.update input s = (Ok out, s') ->
  let cap := length input + cipher_impl.block_size (self s) + 32 in
  exists buf n,
    length buf = cap /\ n <= cap /\ out = firstn n buf /\ length out = n /\
    if cipher_bm.eqb (cipher_impl.block_mode (self s)) cipher_bm.ecb
    then exists es, calls s' = calls s ++ map fed_call es /\
                    buf = stores_at (zeros cap) 0 es /\ n = total_len es
    else exists c w, cipher_update (ctx_ (self s)) input = (0%Z, c, w) /\
                     buf = store (zeros cap) 0 (stored w) /\
                     n = olen_after cap w.
Proof.
  intros H cap. unfold cipher.update in H. fold cap in H.
  destruct (cipher_bm.bm_eqb_spec (cipher_impl.block_mode (self s))
              cipher_bm.ecb) as [Hecb|Hne].
  - destruct (update_chunked_total input (zeros cap) 0 cap s)
      as (es & r & out' & n & s1 & Hrun & Hcalls & _ & Hout & _ & Hn).
    rewrite (bind_ok _ _ _ _ _ Hrun) in H. simpl in H.
    destruct (r =? 0)%Z eqn:Er; [|discriminate].
    apply Z.eqb_eq in Er. subst r. simpl in H.
    unfold ret in H. injection H as <- <-.
    specialize (Hn eq_refl).
    assert (Hb : n <= length input).
    { destruct (block_mode_ecb_info _ Hecb) as (info & Hinfo & Hm).
      unfold cipher_impl.update_chunked in Hrun.
      destruct (negb _); [discriminate|].
      apply (update_chunked_loop_bound _ _ _ _ _ _ info Hm) in Hrun;
        [|exact Hinfo].
      pose proof (length_concat_blocks_from
                    (length input / cipher_impl.block_size (self s))
                    input (cipher_impl.block_size (self s)) 0). lia. }
    assert (Hlen : length out' = cap).
    { rewrite Hout, length_stores_at. apply length_zeros. }
    exists out', n. split; [exact Hlen|]. split; [lia|].
    split; [apply resize_is_firstn; lia|].
    split; [apply length_resize|].
    exists es. auto.
  - apply bind_inv in H. destruct H as (w & s1 & Hc & Hret).
    apply c_call_out_inv in Hc. unfold mbedtls_cipher_update in Hc.
    destruct (cipher_update (ctx_ (self s)) input) as [[r c] w0] eqn:Hupd.
    injection Hc as -> -> <-.
    unfold ret in Hret. injection Hret as <- <-.
    assert (Hb : olen_after cap w <= cap).
    { unfold olen_after. destruct (olen w) as [n0|] eqn:Ho; [|lia].
      pose proof (update_length _ _ _ _ _ Hupd Ho).
      unfold cap, cipher_impl.block_size. lia. }
    exists (store (zeros cap) 0 (stored w)), (olen_after cap w).
    rewrite length_store, length_zeros.
    split; [reflexivity|]. split; [exact Hb|].
    split; [apply resize_is_firstn;
            now rewrite length_store, length_zeros|].
    split; [apply length_resize|].
    now exists c, w.
Qed.

(** The streaming [finish]: there is no input. *)
Lemma finish_sizing s out s' :
  cipher.finish s = (Ok out, s') ->
  let cap := 0 + cipher_impl.block_size (self s) + 32 in
  exists buf n,
    length buf = cap /\ n <= cap /\ out = firstn n buf /\ length out = n /\
    exists c w, cipher_finish (ctx_ (self s)) = (0%Z, c, w) /\
                buf = store (zeros cap) 0 (stored w) /\
                n = olen_after cap w.
Proof.
  intros H cap. unfold cipher.finish in H.
  change (cipher_impl.block_size (self s) + 32) with cap in H.
  apply bind_inv in H. destruct H as (w & s1 & Hc & Hret).
  apply c_call_out_inv in Hc. unfold mbedtls_cipher_finish in Hc.
  destruct (cipher_finish (ctx_ (self s))) as [[r c] w0] eqn:Hfin.
  injection Hc as -> -> <-.
  unfold ret in Hret. injection Hret as <- <-.
  assert (Hb : olen_after cap w <= cap).
  { unfold olen_after. destruct (olen w) as [n0|] eqn:Ho; [|lia].
    pose proof (finish_length _ _ _ _ Hfin Ho).
    unfold cap, cipher_impl.block_size. lia. }
  exists (store (zeros cap) 0 (stored w)), (olen_after cap w).
  rewrite length_store, length_zeros.
  split; [reflexivity|]. split; [exact Hb|].
  split; [apply resize_is_firstn; now rewrite length_store, length_zeros|].
  split; [apply length_resize|].
  now exists c, w.
Qed.

(** The one-shot [encrypt] and [decrypt]. *)
Lemma one_shot_sizing m type pad iv key input j i out j' :
  cipher_impl.native_info type = Ok i ->
  one_shot m type pad iv key input j = (Ok out, j') ->
  let cap := length input + info_block_size i + 32 in
  exists buf n,
    length buf = cap /\ n <= cap /\ out = firstn n buf /\ length out = n /\
    exists c4 c' l,
      configured i pad iv key m c4 /\ crypt_chain iv c4 l c' /\
      concat (map fst l) = input /\
      ((exists w, map snd l = [w] /\
          buf = store (zeros cap) 0 (stored w) /\ n = olen_after cap w) \/
       (from_native (info_mode i) = cipher_bm.ecb /\
        buf = stores_fixed (zeros cap) 0 (info_block_size i) (map snd l) /\
        n = reported (map snd l))).
Proof.
  intros Hi H cap. rewrite one_shot_run in H.
  unfold cipher.crypt_engine.run in H.
  set (s0 := {| self := cipher_impl.new; calls := j |}) in H.
  destruct ((cengine <- cipher.crypt_engine.make type pad iv key m input ;;
             cipher.crypt_engine.compute cengine) s0) as [o s2] eqn:Hrun.
  simpl in H. injection H as -> <-.
  apply bind_inv in Hrun. destruct Hrun as (e & s1 & Hmake & Hcomp).
  destruct (make_chunks _ _ _ _ _ _ _ _ _ _ Hi Hmake)
    as (Heng & Hcfg & Hchunks & Hecb).
  destruct (config_chain_inv _ _ _ _ _ _ _ _ Hi Hcfg) as (c4 & Hc4 & Hself).
  pose proof (configured_info _ _ _ _ _ _ Hc4) as Hinfo.
  assert (He : cipher.crypt_engine.block_size_ e = info_block_size i /\
               cipher.crypt_engine.input_size_ e = length input /\
               cipher.crypt_engine.input_ e = input).
  { unfold engine_of in Heng.
    destruct (cipher_bm.eqb _ _); [destruct (_ || _); [discriminate|]|];
      injection Heng as <-; auto. }
  destruct He as (Hbs & Hisz & Hinp).
  unfold cipher.crypt_engine.compute, cipher.crypt_engine.output_size in Hcomp.
  rewrite Hbs, Hisz, Hinp in Hcomp.
  replace (32 + length input + info_block_size i) with cap in Hcomp
    by (unfold cap; lia).
  destruct (cipher.crypt_engine.chunks_ e =? 1) eqn:E1.
  - (* one whole-buffer call *)
    apply bind_inv in Hcomp. destruct Hcomp as (w & s3 & Hc & Hret).
    destruct (cipher_crypt (ctx_ (self s1))
                (crypt_iv (iv_data_ (self s1)) (ctx_ (self s1)))
                (view input 0 (length input))) as [[r c] w0] eqn:Hprim.
    rewrite (crypt_call_run _ _ _ _ _ Hprim) in Hc.
    destruct (r =? 0)%Z eqn:Er; [|discriminate].
    apply Z.eqb_eq in Er. subst r. injection Hc as -> <-.
    unfold ret in Hret. injection Hret as <- <-.
    rewrite Hself in Hprim. simpl in Hprim. rewrite view_all in Hprim.
    assert (Hb : olen_after cap w <= cap).
    { unfold olen_after. destruct (olen w) as [n0|] eqn:Ho; [|lia].
      pose proof (crypt_length _ _ _ _ _ _ Hprim Ho) as Hlen.
      rewrite (block_size_of_info _ _ Hinfo) in Hlen. unfold cap. lia. }
    exists (store (zeros cap) 0 (stored w)), (olen_after cap w).
    rewrite length_store, length_zeros.
    split; [reflexivity|]. split; [exact Hb|].
    split; [apply resize_is_firstn; now rewrite length_store, length_zeros|].
    split; [apply length_resize|].
    exists c4, c, [(input, w)]. split; [exact Hc4|].
    split; [econstructor; [exact Hprim | constructor]|].
    split; [simpl; apply app_nil_r|].
    left. now exists w.
  - (* one call per block: the type is ECB *)
    apply Nat.eqb_neq in E1.
    destruct (cipher_bm.bm_eqb_spec (from_native (info_mode i)) cipher_bm.ecb)
      as [Hm|Hm]; [|congruence].
    destruct (Hecb Hm) as [Hpos Hmod].
    apply bind_inv in Hcomp. destruct Hcomp as ([k out'] & s3 & Hloop & Hret).
    unfold ret in Hret. simpl in Hret. injection Hret as <- <-.
    apply compute_loop_chain in Hloop.
    destruct Hloop as (l & evs & Hin & Hch & _ & Hk & Hout & _).
    rewrite Hself in Hch. simpl in Hch. simpl in Hk.
    rewrite Hbs, Hinp, Hchunks in Hin. rewrite Hbs in Hout.
    assert (Hlen : length input = 0 + (length input / info_block_size i)
                                       * info_block_size i).
    { pose proof (Nat.div_mod_eq (length input) (info_block_size i)). lia. }
    destruct (blocks_from_exact _ _ _ _ Hlen) as [_ Hcat].
    rewrite <- Hin in Hcat. simpl in Hcat.
    destruct (crypt_chain_bound _ _ _ _ _ Hm Hinfo Hch) as [Hrep _].
    rewrite Hcat in Hrep.
    exists out', k. subst out' k.
    rewrite length_stores_fixed, length_zeros.
    split; [reflexivity|]. split; [unfold cap; lia|].
    split; [apply resize_is_firstn;
            rewrite length_stores_fixed, length_zeros; unfold cap; lia|].
    split; [apply length_resize|].
    exists c4, (ctx_ (self s3)), l. split; [exact Hc4|].
    split; [exact Hch|]. split; [exact Hcat|].
    right. auto.
Qed.

(** C6: each buffer-producing operation allocates [input_length +
    block_size + 32] zero bytes (for [finish] there is no input), lets
    the primitive store into them, and returns the first [n] of them,
    [n] being the length the primitive reported (for the ECB paths that
    make one call per block, the sum of the lengths reported).  With
    primitives that report lengths within their documented bounds, [n]
    is at most the allocated size; the length returned is [n], whatever
    the length of the input. *)
Theorem output_sizing :
  (forall input s out s',
     cipher.update input s = (Ok out, s') ->
     let cap := length input + cipher_impl.block_size (self s) + 32 in
     exists buf n,
       length buf = cap /\ n <= cap /\ out = firstn n buf /\
       length out = n /\
       if cipher_bm.eqb (cipher_impl.block_mode (self s)) cipher_bm.ecb
       then exists es, calls s' = calls s ++ map fed_call es /\
                       buf = stores_at (zeros cap) 0 es /\ n = total_len es
       else exists c w, cipher_update (ctx_ (self s)) input = (0%Z, c, w) /\
                        buf = store (zeros cap) 0 (stored w) /\
                        n = olen_after cap w) /\
  (forall s out s',
     cipher.finish s = (Ok out, s') ->
     let cap := 0 + cipher_impl.block_size (self s) + 32 in
     exists buf n,
       length buf = cap /\ n <= cap /\ out = firstn n buf /\
       length out = n /\
       exists c w, cipher_finish (ctx_ (self s)) = (0%Z, c, w) /\
                   buf = store (zeros cap) 0 (stored w) /\
                   n = olen_after cap w) /\
  (forall m type pad iv key input j i out j',
     cipher_impl.native_info type = Ok i ->
     one_shot m type pad iv key input j = (Ok out, j') ->
     let cap := length input + info_block_size i + 32 in
     exists buf n,
       length buf = cap /\ n <= cap /\ out = firstn n buf /\
       length out = n /\
       exists c4 c' l,
         configured i pad iv key m c4 /\ crypt_chain iv c4 l c' /\
         concat (map fst l) = input /\
         ((exists w, map snd l = [w] /\
             buf = store (zeros cap) 0 (stored w) /\
             n = olen_after cap w) \/
          (from_native (info_mode i) = cipher_bm.ecb /\
           buf = stores_fixed (zeros cap) 0 (info_block_size i) (map snd l) /\
           n = reported (map snd l)))).
Proof.
  split; [exact update_sizing|]. split; [exact finish_sizing|].
  exact one_shot_sizing.
Qed.

(** C9: when [encrypt_aead] returns, the tag has 16 bytes whatever the
    cipher type (the 16 zero bytes allocated, overwritten by what the
    primitive stored as tag), and the ciphertext is the first [n] bytes
    of the output buffer of [input_length + block_size] bytes, [n] being
    the length the primitive reported; with a primitive that reports
    within its documented bound, [n] is at most
    [input_length + block_size]. *)
Theorem encrypt_aead_sizing type iv key ad input j tag out j' :
  cipher.encrypt_aead type iv key ad input j = (Ok (tag, out), j') ->
  length tag = 16 /\
  exists s c w t,
    keyed type key encrypt_mode j s /\
    cipher_auth_encrypt (ctx_ (self s)) iv ad input 16 = (0%Z, c, w, t) /\
    tag = store (zeros 16) 0 t /\
    let cap := length input + cipher_impl.block_size (self s) in
    let n := olen_after cap w in
    n <= cap /\
    out = firstn n (store (zeros cap) 0 (stored w)) /\
    length out = n.
Proof.
  unfold cipher.encrypt_aead. destruct MBEDTLS_CIPHER_MODE_AEAD; [|discriminate].
  set (s0 := {| self := cipher_impl.new; calls := j |}).
  intros H.
  match type of H with
  | (fst (?m s0), _) = _ => destruct (m s0) as [o s3] eqn:Hrun
  end.
  simpl in H. injection H as -> <-.
  apply bind_inv in Hrun. destruct Hrun as ([] & s1 & Hsetup & Hrun).
  apply bind_inv in Hrun. destruct Hrun as ([] & s & Hkey & Hrun).
  apply bind_inv in Hrun. destruct Hrun as ([w t] & s2 & Hc & Hret).
  apply c_call_out_inv in Hc. unfold mbedtls_cipher_auth_encrypt in Hc.
  destruct (cipher_auth_encrypt (ctx_ (self s)) iv ad input 16)
    as [[[r c] w0] t0] eqn:Hprim.
  injection Hc as -> -> -> <-.
  unfold ret in Hret. simpl in Hret. injection Hret as <- <- <-.
  split; [now rewrite length_store, length_zeros|].
  exists s, c, w, t.
  split.
  { unfold keyed. rewrite (bind_ok _ _ _ _ _ Hsetup). exact Hkey. }
  split; [exact Hprim|]. split; [reflexivity|].
  set (cap := length input + cipher_impl.block_size (self s)).
  set (n := olen_after cap w).
  assert (Hb : n <= cap).
  { unfold n, olen_after. destruct (olen w) as [n0|] eqn:Ho; [|lia].
    pose proof (auth_encrypt_length _ _ _ _ _ _ _ _ _ Hprim Ho).
    unfold cap, cipher_impl.block_size. lia. }
  split; [exact Hb|].
  split; [apply resize_is_firstn; now rewrite length_store, length_zeros|].
  apply length_resize.
Qed.

End Sizing.

(** ** Failures and output *)

Section Failures.
Context {L : mbedtls} {V : conversions L} {B : buffers L}.

Lemma compute_journal e s out s' :
  cipher.crypt_engine.compute e s = (Ok out, s') ->
  exists evs, calls s' = calls s ++ evs /\
              Forall (fun c => call_code c = 0%Z) evs.
Proof.
  unfold cipher.crypt_engine.compute.
  destruct (cipher.crypt_engine.chunks_ e =? 1); intros H;
    apply bind_inv in H.
  - destruct H as (w & s1 & Hc & Hret).
    unfold ret in Hret. injection Hret as _ <-.
    destruct (cipher_crypt (ctx_ (self s))
                (crypt_iv (iv_data_ (self s)) (ctx_ (self s)))
                (view (cipher.crypt_engine.input_ e) 0
                   (cipher.crypt_engine.input_size_ e)))
      as [[r c] w0] eqn:Hprim.
    rewrite (crypt_call_run _ _ _ _ _ Hprim) in Hc.
    destruct (r =? 0)%Z eqn:Er; [|discriminate].
    apply Z.eqb_eq in Er. subst r. injection Hc as _ <-.
    eexists. split; [reflexivity|]. repeat constructor.
  - destruct H as ([k out'] & s1 & Hloop & Hret).
    unfold ret in Hret. injection Hret as _ <-.
    apply compute_loop_chain in Hloop.
    destruct Hloop as (l & evs & _ & _ & _ & _ & _ & Hcalls & Hall).
    now exists evs.
Qed.

(** A one-shot call that returns a buffer made only calls that returned
    zero. *)
Lemma one_shot_journal m type pad iv key input j out j' :
  one_shot m type pad iv key input j = (Ok out, j') ->
  exists evs, j' = j ++ evs /\ Forall (fun c => call_code c = 0%Z) evs.
Proof.
  rewrite one_shot_run. unfold cipher.crypt_engine.run.
  set (s0 := {| self := cipher_impl.new; calls := j |}).
  destruct ((cengine <- cipher.crypt_engine.make type pad iv key m input ;;
             cipher.crypt_engine.compute cengine) s0) as [o s2] eqn:Hrun.
  simpl. intros H. injection H as -> <-.
  apply bind_inv in Hrun. destruct Hrun as (e & s1 & Hmake & Hcomp).
  destruct (native_info_cases type) as [[i Hi]|Hu].
  2:{ rewrite (make_unknown _ _ _ _ _ _ _ Hu) in Hmake. discriminate. }
  destruct (make_chunks _ _ _ _ _ _ _ _ _ _ Hi Hmake) as (_ & Hcfg & _).
  destruct (config_chain_journal type pad iv key m i s0 Hi)
    as (o & s' & evs1 & Hrun & Hcalls1 & _ & Ho).
  rewrite Hcfg in Hrun. injection Hrun as <- <-.
  destruct (compute_journal _ _ _ _ Hcomp) as (evs2 & Hcalls2 & Hall2).
  exists (evs1 ++ evs2). rewrite Hcalls2, Hcalls1, <- app_assoc.
  split; [reflexivity|]. apply Forall_app. now split.
Qed.

End Failures.

(** ** The one-shot engine, taken apart *)

Section OneShot.
Context {L : mbedtls} {V : conversions L} {B : buffers L}.



End OneShot.

(** ** Round trip of the one-shot engine *)

Section BlockLists.

Lemma firstn_front {A} (a r : list A) n :
  n = length a -> firstn n (a ++ r) = a.
Proof.
  intros ->. rewrite firstn_app, firstn_all, Nat.sub_diag. simpl.
  apply app_nil_r.
Qed.

Lemma store_block (out : buffer_t) p (w : buffer_t) :
  p + length w <= length out ->
  firstn (p + length w) (store out p w) = firstn p out ++ w.
Proof.
  intros H. unfold store.
  rewrite (firstn_all2 (n := length out - p) w) by lia.
  rewrite app_assoc. apply firstn_front.
  rewrite length_app, length_firstn. lia.
Qed.





End BlockLists.

Section RoundTrip.
Context {L : mbedtls} {V : conversions L} {B : buffers L}.
Context {paired : cipher_info_t cipher_mode_t ->
                  cipher_context_t -> cipher_context_t -> Prop}.
Context {HI : crypt_inverts V paired}.

#[local] Existing Instance inverts_lengths.






Lemma one_shot_unknown m type pad iv key input j :
  cipher_impl.native_info type = Throw unknown_cipher ->
  one_shot m type pad iv key input j = (Throw unknown_cipher, j).
Proof.
  intros Hu. rewrite one_shot_run. unfold cipher.crypt_engine.run.
  erewrite bind_throw by (apply make_unknown; exact Hu). reflexivity.
Qed.


End RoundTrip.

(** ** Restarting a stream *)

Section Restart.
Context {L : mbedtls} {V : conversions L} {B : buffers L}.
Context {K : Type} {session : cipher_context_t -> K}.
Context {alike : cipher_context_t -> cipher_context_t -> Prop}.
Context {HR : restartable V session alike}.

(** [start] hands the primitive what the view of the remembered IV
    shows, then resets it; the remembered IV stays. *)
Lemma start_inv s s' :
  cipher.start s = (Ok tt, s') ->
  exists a b,
    cipher_set_iv (ctx_ (self s)) (stale_view (self s)) = (0%Z, a) /\
    cipher_reset a = (0%Z, b) /\
    self s' = {| ctx_ := b; iv_data_ := iv_data_ (self s) |} /\
    calls s' = calls s ++ [call_set_iv (stale_view (self s)) 0; call_reset 0].
Proof.
  unfold cipher.start. intros H.
  apply bind_inv in H. destruct H as ([] & s1 & Hiv & Hreset).
  destruct (cipher_set_iv (ctx_ (self s)) (stale_view (self s)))
    as [r1 a] eqn:E1.
  rewrite (reset_last_iv_run _ _ _ E1) in Hiv.
  destruct (r1 =? 0)%Z eqn:Er1; [|discriminate].
  apply Z.eqb_eq in Er1. subst r1. injection Hiv as <-.
  destruct (cipher_reset a) as [r2 b] eqn:E2.
  rewrite (reset_run
             {| self := {| ctx_ := a; iv_data_ := iv_data_ (self s) |};
                calls := calls s ++ [call_set_iv (stale_view (self s)) 0] |}
             _ _ E2) in Hreset.
  destruct (r2 =? 0)%Z eqn:Er2; [|discriminate].
  apply Z.eqb_eq in Er2. subst r2. injection Hreset as <-.
  exists a, b. repeat split; auto.
  unfold after. simpl. now rewrite <- app_assoc.
Qed.

Lemma start_intro s a b :
  cipher_set_iv (ctx_ (self s)) (stale_view (self s)) = (0%Z, a) ->
  cipher_reset a = (0%Z, b) ->
  exists s', cipher.start s = (Ok tt, s') /\
             self s' = {| ctx_ := b; iv_data_ := iv_data_ (self s) |} /\
             calls s' = calls s ++
               [call_set_iv (stale_view (self s)) 0; call_reset 0].
Proof.
  intros E1 E2. unfold cipher.start.
  pose proof (reset_last_iv_run _ _ _ E1) as R1. simpl in R1.
  rewrite (bind_ok _ _ _ _ _ R1).
  eexists. erewrite reset_run by (simpl; exact E2).
  split; [reflexivity|]. split; [reflexivity|].
  unfold after. simpl. now rewrite <- app_assoc.
Qed.

(** Whatever the primitive answers, the first call of [start] is
    [mbedtls_cipher_set_iv] on what the view of the remembered IV
    shows. *)
Lemma start_first_call s :
  exists evs,
    calls (snd (cipher.start s)) =
      calls s ++
      call_set_iv (stale_view (self s))
        (fst (cipher_set_iv (ctx_ (self s)) (stale_view (self s)))) :: evs.
Proof.
  unfold cipher.start.
  destruct (cipher_set_iv (ctx_ (self s)) (stale_view (self s)))
    as [r c] eqn:E.
  pose proof (reset_last_iv_run _ _ _ E) as R.
  simpl fst.
  destruct (r =? 0)%Z.
  - rewrite (bind_ok _ _ _ _ _ R).
    destruct (cipher_reset c) as [r2 c2] eqn:E2.
    erewrite reset_run by (simpl; exact E2).
    exists [call_reset r2]. simpl. now rewrite <- app_assoc.
  - rewrite (bind_throw _ _ _ _ _ R). exists []. reflexivity.
Qed.

(** With a remembered IV that stays readable, the view shows it. *)
Lemma stale_view_readable (o : cipher_impl) :
  iv_stays_readable (iv_data_ o) -> stale_view o = iv_data_ o.
Proof. intros H. destruct o as [c x]. apply H. Qed.

Local Abbreviation alike_states := (states_alike alike).

Lemma alike_states_mode s t :
  alike_states s t ->
  cipher_impl.block_mode (self s) = cipher_impl.block_mode (self t) /\
  cipher_impl.block_size (self s) = cipher_impl.block_size (self t).
Proof.
  intros H. destruct (alike_info _ _ H) as [Hi Hb].
  unfold cipher_impl.block_mode, cipher_impl.block_size.
  now rewrite Hi, Hb.
Qed.

(** The chunk loop answers alike on states that are alike, and stays
    within the session. *)
Lemma update_chunked_loop_alike n achunk bsize out base osize :
  forall i o s t res s',
    alike_states s t ->
    cipher_impl.update_chunked_loop n achunk bsize i o out base osize s
      = (res, s') ->
    session (ctx_ (self s')) = session (ctx_ (self s)) /\
    exists t',
      cipher_impl.update_chunked_loop n achunk bsize i o out base osize t
        = (res, t') /\
      alike_states s' t'.
Proof.
  revert out. induction n as [|n IH]; intros out i o s t res s' Hst; simpl.
  - unfold ret. intros H. injection H as <- <-. split; [reflexivity|].
    now exists t.
  - unfold bind at 1 2, mbedtls_cipher_update at 1 2.
    destruct (cipher_update (ctx_ (self s)) (view achunk i bsize))
      as [[r c] w] eqn:Hs.
    destruct (alike_update _ _ _ _ _ _ Hst Hs) as (c2 & Ht & Hal).
    rewrite Ht. simpl.
    destruct (r <? 0)%Z.
    + unfold ret. intros H. injection H as <- <-. simpl. split.
      * exact (session_update _ _ _ _ _ Hs).
      * eexists. split; [reflexivity | exact Hal].
    + intros H.
      destruct (IH _ _ _
                  (after s c (call_update (view achunk i bsize) r w))
                  (after t c2 (call_update (view achunk i bsize) r w))
                  _ _ Hal H) as (Hsess & t' & Hrun & Hal').
      split; [|now exists t'].
      rewrite Hsess. simpl. exact (session_update _ _ _ _ _ Hs).
Qed.

Lemma update_chunked_alike achunk out base osize s t res s' :
  alike_states s t ->
  cipher_impl.update_chunked achunk out base osize s = (res, s') ->
  session (ctx_ (self s')) = session (ctx_ (self s)) /\
  exists t',
    cipher_impl.update_chunked achunk out base osize t = (res, t') /\
    alike_states s' t'.
Proof.
  intros Hst. destruct (alike_states_mode _ _ Hst) as [_ Hb].
  unfold cipher_impl.update_chunked. rewrite <- Hb.
  destruct (negb _).
  - intros H. injection H as <- <-. split; [reflexivity|]. now exists t.
  - now apply update_chunked_loop_alike.
Qed.

Lemma update_alike x s t o s' :
  alike_states s t ->
  cipher.update x s = (Ok o, s') ->
  session (ctx_ (self s')) = session (ctx_ (self s)) /\
  exists t', cipher.update x t = (Ok o, t') /\ alike_states s' t'.
Proof.
  intros Hst H. destruct (alike_states_mode _ _ Hst) as [Hm Hb].
  unfold cipher.update in *. cbv beta zeta in *. rewrite <- Hm, <- Hb.
  destruct (cipher_bm.eqb (cipher_impl.block_mode (self s)) cipher_bm.ecb).
  - apply bind_inv in H. destruct H as (res & s1 & Hrun & Hret).
    destruct (update_chunked_alike _ _ _ _ _ t _ _ Hst Hrun)
      as (Hsess & t' & Hrun' & Hal).
    destruct (negb (fst (fst res) =? 0)%Z) eqn:E; [discriminate|].
    unfold ret in Hret. injection Hret as <- <-.
    split; [exact Hsess|]. exists t'.
    rewrite (bind_ok _ _ _ _ _ Hrun'). rewrite E. now split.
  - apply bind_inv in H. destruct H as (w & s1 & Hc & Hret).
    apply c_call_out_inv in Hc. unfold mbedtls_cipher_update in Hc.
    destruct (cipher_update (ctx_ (self s)) x) as [[r c] w0] eqn:Hs.
    injection Hc as -> -> <-.
    unfold ret in Hret. injection Hret as <- <-.
    destruct (alike_update _ _ _ _ _ _ Hst Hs) as (c2 & Ht & Hal).
    split; [exact (session_update _ _ _ _ _ Hs)|].
    eexists. unfold c_call_out, bind, mbedtls_cipher_update. rewrite Ht.
    simpl. split; [reflexivity | exact Hal].
Qed.

Lemma finish_alike s t o s' :
  alike_states s t ->
  cipher.finish s = (Ok o, s') ->
  session (ctx_ (self s')) = session (ctx_ (self s)) /\
  exists t', cipher.finish t = (Ok o, t') /\ alike_states s' t'.
Proof.
  intros Hst H. destruct (alike_states_mode _ _ Hst) as [_ Hb].
  unfold cipher.finish in *. cbv beta zeta in *. rewrite <- Hb.
  apply bind_inv in H. destruct H as (w & s1 & Hc & Hret).
  apply c_call_out_inv in Hc. unfold mbedtls_cipher_finish in Hc.
  destruct (cipher_finish (ctx_ (self s))) as [[r c] w0] eqn:Hs.
  injection Hc as -> -> <-.
  unfold ret in Hret. injection Hret as <- <-.
  destruct (alike_finish _ _ _ _ _ Hst Hs) as (c2 & Ht & Hal).
  split; [exact (session_finish _ _ _ _ Hs)|].
  eexists. unfold c_call_out, bind, mbedtls_cipher_finish. rewrite Ht.
  simpl. split; [reflexivity | exact Hal].
Qed.

Lemma updates_alike inputs :
  forall s t os s',
    alike_states s t ->
    updates inputs s = (Ok os, s') ->
    session (ctx_ (self s')) = session (ctx_ (self s)) /\
    exists t', updates inputs t = (Ok os, t') /\ alike_states s' t'.
Proof.
  induction inputs as [|x rest IH]; intros s t os s' Hst; simpl.
  - unfold ret. intros H. injection H as <- <-. split; [reflexivity|].
    now exists t.
  - intros H. apply bind_inv in H. destruct H as (o & s1 & Hu & H).
    apply bind_inv in H. destruct H as (os' & s2 & Hrest & Hret).
    unfold ret in Hret. injection Hret as <- <-.
    destruct (update_alike _ _ _ _ _ Hst Hu) as (Hs1 & t1 & Hu' & Hal1).
    destruct (IH _ _ _ _ Hal1 Hrest) as (Hs2 & t2 & Hrest' & Hal2).
    split; [congruence|]. exists t2.
    rewrite (bind_ok _ _ _ _ _ Hu'), (bind_ok _ _ _ _ _ Hrest').
    now split.
Qed.

(** [update] and [finish] leave the remembered IV alone. *)
Lemma update_keeps_iv x s o s' :
  cipher.update x s = (Ok o, s') -> iv_data_ (self s') = iv_data_ (self s).
Proof.
  unfold cipher.update.
  destruct (cipher_bm.eqb _ _); intros H; apply bind_inv in H.
  - destruct H as (res & s1 & Hrun & Hret).
    destruct (update_chunked_total x
                (zeros (length x + cipher_impl.block_size (self s) + 32)) 0
                (length x + cipher_impl.block_size (self s) + 32) s)
      as (es & r & out' & n & s2 & Hrun2 & _ & Hiv & _).
    rewrite Hrun in Hrun2. injection Hrun2 as -> ->.
    simpl in Hret. destruct (negb _); [discriminate|].
    unfold ret in Hret. injection Hret as _ <-. exact Hiv.
  - destruct H as (w & s1 & Hc & Hret).
    apply c_call_out_inv in Hc. unfold mbedtls_cipher_update in Hc.
    destruct (cipher_update (ctx_ (self s)) x) as [[r c] w0].
    injection Hc as _ _ <-. unfold ret in Hret. injection Hret as _ <-.
    reflexivity.
Qed.

Lemma finish_keeps_iv s o s' :
  cipher.finish s = (Ok o, s') -> iv_data_ (self s') = iv_data_ (self s).
Proof.
  unfold cipher.finish. intros H. apply bind_inv in H.
  destruct H as (w & s1 & Hc & Hret).
  apply c_call_out_inv in Hc. unfold mbedtls_cipher_finish in Hc.
  destruct (cipher_finish (ctx_ (self s))) as [[r c] w0].
  injection Hc as _ _ <-. unfold ret in Hret. injection Hret as _ <-.
  reflexivity.
Qed.

Lemma updates_keeps_iv inputs :
  forall s os s',
    updates inputs s = (Ok os, s') -> iv_data_ (self s') = iv_data_ (self s).
Proof.
  induction inputs as [|x rest IH]; intros s os s'; simpl.
  - unfold ret. intros H. now injection H as _ <-.
  - intros H. apply bind_inv in H. destruct H as (o & s1 & Hu & H).
    apply bind_inv in H. destruct H as (os' & s2 & Hrest & Hret).
    unfold ret in Hret. injection Hret as _ <-.
    rewrite (IH _ _ _ Hrest). exact (update_keeps_iv _ _ _ _ Hu).
Qed.

(** A message that goes through on [s] goes through, with the same
    output, on any state of the same session that remembers the same
    IV. *)
Lemma message_same_session inputs s t outs s1 :
  iv_stays_readable (iv_data_ (self s)) ->
  session (ctx_ (self t)) = session (ctx_ (self s)) ->
  iv_data_ (self t) = iv_data_ (self s) ->
  message inputs s = (Ok outs, s1) ->
  session (ctx_ (self s1)) = session (ctx_ (self s)) /\
  iv_data_ (self s1) = iv_data_ (self s) /\
  exists t1, message inputs t = (Ok outs, t1).
Proof.
  intros Hread Hsess Hiv H. unfold message in *.
  apply bind_inv in H. destruct H as ([] & s0 & Hstart & H).
  apply bind_inv in H. destruct H as (os & s2 & Hupd & H).
  apply bind_inv in H. destruct H as (f & s3 & Hfin & Hret).
  unfold ret in Hret. injection Hret as <- <-.
  destruct (start_inv _ _ Hstart) as (a & b & E1 & E2 & Hself0 & _).
  rewrite (stale_view_readable _ Hread) in E1.
  destruct (restart_alike _ _ _ _ _ (eq_sym Hsess) E1 E2)
    as (a2 & b2 & E1t & E2t & Hal).
  rewrite <- Hiv in E1t.
  rewrite <- (stale_view_readable (self t)) in E1t
    by (rewrite Hiv; exact Hread).
  destruct (start_intro t a2 b2 E1t E2t) as (t0 & Hstart_t & Hself_t & _).
  assert (Hst0 : alike_states s0 t0).
  { unfold states_alike. now rewrite Hself0, Hself_t. }
  destruct (updates_alike _ _ _ _ _ Hst0 Hupd) as (Hs2 & t2 & Hupd_t & Hst2).
  destruct (finish_alike _ _ _ _ Hst2 Hfin) as (Hs3 & t3 & Hfin_t & _).
  split.
  { rewrite Hs3, Hs2, Hself0. simpl.
    rewrite (@session_reset _ _ _ _ _ HR _ _ E2).
    exact (session_set_iv _ _ _ E1). }
  split.
  { rewrite (finish_keeps_iv _ _ _ Hfin), (updates_keeps_iv _ _ _ _ Hupd).
    now rewrite Hself0. }
  exists t3.
  rewrite (bind_ok _ _ _ _ _ Hstart_t), (bind_ok _ _ _ _ _ Hupd_t).
  now rewrite (bind_ok _ _ _ _ _ Hfin_t).
Qed.

(** X16: with a primitive that can be restarted, and a remembered IV
    that a view of it still shows after [iv_data_] was assigned anew (a
    [buffer_t] that keeps it in place), a message that went through
    from [start] to [finish] leaves the remembered IV as it was, and
    running the same message again, whether [start] is called once or
    twice before the updates, returns the same outputs: those of each
    [update] and that of [finish].  The [start] in between hands the
    primitive the remembered IV and resets it. *)
Theorem restart_reproduces inputs s outs s1 :
  iv_stays_readable (iv_data_ (self s)) ->
  message inputs s = (Ok outs, s1) ->
  iv_data_ (self s1) = iv_data_ (self s) /\
  (exists s2, message inputs s1 = (Ok outs, s2)) /\
  (exists s1' s2,
     cipher.start s1 = (Ok tt, s1') /\
     calls s1' = calls s1 ++
       [call_set_iv (iv_data_ (self s)) 0; call_reset 0] /\
     message inputs s1' = (Ok outs, s2)).
Proof.
  intros Hread H.
  destruct (message_same_session inputs s s outs s1 Hread eq_refl eq_refl H)
    as (Hsess & Hiv & _).
  split; [exact Hiv|]. split.
  - destruct (message_same_session inputs s s1 outs s1 Hread Hsess Hiv H)
      as (_ & _ & Hre). exact Hre.
  - assert (Hstart : exists s0, cipher.start s = (Ok tt, s0)).
    { unfold message in H. apply bind_inv in H.
      destruct H as ([] & s0 & Hstart & _). now exists s0. }
    destruct Hstart as (s0 & Hstart).
    destruct (start_inv _ _ Hstart) as (a & b & E1 & E2 & _).
    rewrite (stale_view_readable _ Hread) in E1.
    destruct (restart_alike _ _ _ _ _ (eq_sym Hsess) E1 E2)
      as (a2 & b2 & E1t & E2t & _).
    rewrite <- Hiv in E1t.
    rewrite <- (stale_view_readable (self s1)) in E1t
      by (rewrite Hiv; exact Hread).
    destruct (start_intro s1 a2 b2 E1t E2t)
      as (s1' & Hstart1 & Hself1 & Hcalls1).
    rewrite (stale_view_readable (self s1)) in Hcalls1
      by (rewrite Hiv; exact Hread).
    rewrite Hiv in Hcalls1.
    assert (Hsess1 : session (ctx_ (self s1')) = session (ctx_ (self s))).
    { rewrite Hself1. simpl. rewrite (@session_reset _ _ _ _ _ HR _ _ E2t).
      rewrite (@session_set_iv _ _ _ _ _ HR _ _ _ E1t). exact Hsess. }
    assert (Hiv1 : iv_data_ (self s1') = iv_data_ (self s)).
    { rewrite Hself1. simpl. exact Hiv. }
    destruct (message_same_session inputs s s1' outs s1 Hread Hsess1 Hiv1 H)
      as (_ & _ & s2 & Hre).
    exists s1', s2. auto.
Qed.

End Restart.

(** ** Padding *)

Section Padding.
Context {L : mbedtls} {V : conversions L} {B : buffers L}.

(** C8: [padding(none)] returns normally with the state as it was: the
    context, the remembered IV and the journal are untouched, so no
    primitive was called and no earlier padding strategy was replaced.
    Any other mode is converted and handed to
    [mbedtls_cipher_set_padding_mode]. *)
Theorem padding_none_is_noop (s : world) :
  cipher.padding padding_t.none s = (Ok tt, s) /\
  forall p, p <> padding_t.none ->
    forall r c,
      cipher_set_padding_mode (ctx_ (self s)) (to_native_padding p) = (r, c) ->
      cipher.padding p s =
        (if (r =? 0)%Z then Ok tt
         else Throw (exception r "mbedtls_cipher_set_padding_mode"),
         after s c (call_set_padding_mode (to_native_padding p) r)).
Proof.
  split; [reflexivity|].
  intros p Hp r c Hset.
  unfold cipher.padding, cipher_impl.padding.
  destruct (padding_t.padding_eqb_spec p padding_t.none) as [E|_];
    [contradiction|].
  unfold c_call_impl, bind, mbedtls_cipher_set_padding_mode.
  rewrite Hset. destruct (r =? 0)%Z; reflexivity.
Qed.

End Padding.

(** ** Authenticated decryption *)

Section Aead.
Context {L : mbedtls} {V : conversions L} {B : buffers L}.

(** C4: in a build with AEAD, once the local context is set up and
    keyed, the outcome of [decrypt_aead] is decided by the code of
    [mbedtls_cipher_auth_decrypt] alone: the authentication-failed code
    gives the value (false, plaintext), zero gives (true, plaintext), any
    other code is thrown as [exception] with that code.  The plaintext is
    the output buffer cut to the length the primitive left in [olen]. *)
Theorem decrypt_aead_outcomes type iv key ad tag input j s r c w :
  MBEDTLS_CIPHER_MODE_AEAD = true ->
  keyed type key decrypt_mode j s ->
  cipher_auth_decrypt (ctx_ (self s)) iv ad input tag = (r, c, w) ->
  let olen := length input + cipher_impl.block_size (self s) in
  let plaintext := resize (olen_after olen w) (store (zeros olen) 0 (stored w)) in
  let result := cipher.decrypt_aead type iv key ad tag input j in
  snd result = calls s ++ [call_auth_decrypt iv ad input tag r w] /\
  (r = MBEDTLS_ERR_CIPHER_AUTH_FAILED -> fst result = Ok (false, plaintext)) /\
  (r = 0%Z -> fst result = Ok (true, plaintext)) /\
  (r <> 0%Z -> r <> MBEDTLS_ERR_CIPHER_AUTH_FAILED ->
   fst result = Throw (exception r "decrypt_aead")).
Proof.
  intros Haead Hkeyed Hprim olen plaintext result.
  unfold keyed in Hkeyed.
  subst result. unfold cipher.decrypt_aead. rewrite Haead.
  rewrite <- bind_assoc. rewrite (bind_ok _ _ _ _ _ Hkeyed).
  unfold bind, mbedtls_cipher_auth_decrypt. rewrite Hprim. simpl.
  fold olen. fold plaintext.
  destruct (r =? MBEDTLS_ERR_CIPHER_AUTH_FAILED)%Z eqn:E1;
    [apply Z.eqb_eq in E1 | apply Z.eqb_neq in E1;
     destruct (r =? 0)%Z eqn:E2;
     [apply Z.eqb_eq in E2 | apply Z.eqb_neq in E2]];
    unfold ret, throw; simpl;
    (split; [reflexivity|]); repeat split; intros;
    try reflexivity; try contradiction;
    unfold MBEDTLS_ERR_CIPHER_AUTH_FAILED in *; lia.
Qed.

End Aead.

(** ** Evaluations on the scripted primitive *)

Section C3_evaluation.
#[local] Existing Instance in_place.
Import scripted sample.
Let TL : mbedtls := lib cipher_bm.ecb 2 positive_first.

(** C3, as stated, fails: the primitive answers the first block with the
    non-zero code 1; the driver feeds the second block all the same and
    returns 0, not 1. *)
Lemma update_chunked_positive_code_goes_on :
  let r := cipher_impl.update_chunked (L := TL) [xaa; xbb; xcc; xdd]
             (zeros 4) 0 7 (fresh cipher_bm.ecb 2 positive_first) in
  fst r = Ok (0%Z, [x01; x02; x03; x04], 4) /\
  calls (snd r) =
    [call_setup (L := TL) (the_info cipher_bm.ecb 2) 0;
     call_update [xaa; xbb] 1 (says [x01; x02]);
     call_update [xcc; xdd] 0 (says [x03; x04])].
Proof. split; reflexivity. Qed.

Lemma update_chunked_feeds_blocks_witness :
  exists (es : list fed) r out' osize' s',
    cipher_impl.update_chunked (L := TL) [xaa; xbb; xcc; xdd] (zeros 4) 0 7
      (fresh cipher_bm.ecb 2 positive_first)
      = (Ok (r, out', osize'), s') /\
    calls s' = calls (fresh cipher_bm.ecb 2 positive_first)
               ++ map fed_call es /\
    map fed_input es = firstn (length es) [[xaa; xbb]; [xcc; xdd]] /\
    Forall (fun e => length (fed_input e) = 2) es.
Proof.
  destruct (update_chunked_feeds_blocks (L := TL) [xaa; xbb; xcc; xdd]
              (zeros 4) 0 7 (fresh cipher_bm.ecb 2 positive_first))
    as (_ & es & r & out' & osize' & s' & H1 & H2 & H3 & H4 & _).
  - simpl. lia.
  - reflexivity.
  - exists es, r, out', osize', s'. repeat split; assumption.
Defined.

End C3_evaluation.

Section C10_evaluation.
#[local] Existing Instance in_place.
Import scripted sample.

(** C10, as stated, fails: in CBC mode the primitive's [finish] stores 0
    into [*olen] and returns an error; the noexcept [finish] hands the
    caller's [output_size] to it, so the 7 it held is overwritten
    although the call failed.  The same happens in [update]. *)
Lemma noexcept_output_size_written_on_failure :
  fst (cipher.finish_noexcept (L := lib cipher_bm.cbc 2 failing_finish)
         (zeros 2) 7 (fresh cipher_bm.cbc 2 failing_finish))
    = Ok (MBEDTLS_ERR_CIPHER_FULL_BLOCK_EXPECTED, zeros 2, 0) /\
  fst (cipher.update_noexcept (V := conv cipher_bm.cbc 2 failing_update)
         [xaa; xbb] (zeros 2) 7 (fresh cipher_bm.cbc 2 failing_update))
    = Ok (BAD_INPUT_DATA, zeros 2, 0).
Proof. split; reflexivity. Qed.

Lemma noexcept_overloads_relay_codes_witness :
  cipher.update_noexcept (V := conv cipher_bm.cbc 2 failing_update)
    [xaa; xbb] (zeros 2) 7 (fresh cipher_bm.cbc 2 failing_update)
  = (Ok (BAD_INPUT_DATA, zeros 2, 0),
     after (fresh cipher_bm.cbc 2 failing_update) no_script
       (call_update [xaa; xbb] BAD_INPUT_DATA
          {| stored := []; olen := Some 0 |})).
Proof.
  destruct (noexcept_overloads_relay_codes
              (V := conv cipher_bm.cbc 2 failing_update)) as (_ & H & _).
  apply (H [xaa; xbb] (zeros 2) 7 (fresh cipher_bm.cbc 2 failing_update)
           BAD_INPUT_DATA no_script {| stored := []; olen := Some 0 |}).
  - discriminate.
  - reflexivity.
Defined.

End C10_evaluation.

Section C5_evaluation.
#[local] Existing Instance in_place.
Import scripted sample.
Let TL : mbedtls := lib cipher_bm.ecb 2 second_block_fails.
Let TV : conversions TL := conv cipher_bm.ecb 2 second_block_fails.

(** C5, as stated, fails: in ECB mode the second block makes the
    primitive fail; the overload writing through the caller's pointer
    returns the error code, yet the caller's memory, all zero before the
    call, holds the output of the first block. *)
Lemma failed_update_leaves_first_block :
  fst (cipher.update_noexcept (V := TV) [xaa; xbb; xcc; xdd] (zeros 4) 7
         (fresh cipher_bm.ecb 2 second_block_fails))
    = Ok (BAD_INPUT_DATA, [x01; x02; x00; x00], 7) /\
  [x01; x02; x00; x00] <> zeros 4.
Proof. split; [reflexivity | discriminate]. Qed.

End C5_evaluation.

(** ** The keystream cipher is a well-behaved primitive *)

Section KeystreamLaws.
#[local] Existing Instance in_place.
Import keystream.

Lemma bxor_involutive a k : bxor (bxor a k) k = a.
Proof.
  unfold bxor.
  destruct (Byte.to_bits a)
    as (a0 & a1 & a2 & a3 & a4 & a5 & a6 & a7) eqn:Ea.
  destruct (Byte.to_bits k)
    as (k0 & k1 & k2 & k3 & k4 & k5 & k6 & k7) eqn:Ek.
  rewrite Byte.to_bits_of_bits.
  rewrite <- (Byte.of_bits_to_bits a), Ea.
  repeat match goal with
  | |- context [xorb (xorb ?x ?y) ?y] =>
      replace (xorb (xorb x y) y) with x by (now destruct x, y)
  end.
  reflexivity.
Qed.

Lemma length_mask key iv p x : length (mask key iv p x) = length x.
Proof.
  revert p. induction x as [|b x IH]; intros p; simpl;
    [reflexivity | now rewrite IH].
Qed.

Lemma mask_involutive key iv p x :
  mask key iv p (mask key iv p x) = x.
Proof.
  revert p. induction x as [|b x IH]; intros p; simpl; [reflexivity|].
  now rewrite bxor_involutive, IH.
Qed.

Ltac crush_update H :=
  unfold update in H; simpl in H;
  repeat match type of H with
  | context [match ?c with _ => _ end] => destruct c eqn:?; simpl in H
  end;
  try discriminate; injection H; intros; subst.

#[local] Instance keystream_lengths : documented_lengths conv.
Proof.
  constructor; simpl.
  - intros c i c' H. injection H as <-. reflexivity.
  - intros c p c' H. injection H as <-. reflexivity.
  - intros c iv c' H. injection H as <-. reflexivity.
  - intros c k n op c'. unfold setkey.
    destruct (c_info c) as [i|]; [|discriminate].
    destruct (n =? info_key_bitlen i); [|discriminate].
    intros H. injection H as <-. reflexivity.
  - intros c x r c' w H. crush_update H; simpl; congruence.
  - intros c iv x c' w H. unfold crypt in H. crush_update H;
      simpl in *; congruence.
  - intros c i H. unfold block_size_of. now rewrite H.
  - intros c x c' w n H Ho. crush_update H; simpl in Ho;
      injection Ho as <-; rewrite length_mask; lia.
  - intros c c' w n H Ho. injection H as _ <-. simpl in Ho.
    injection Ho as <-. lia.
  - intros c iv x c' w n H Ho. unfold crypt in H. crush_update H;
      simpl in Ho; injection Ho as <-; rewrite length_mask; lia.
  - intros c iv ad x tl c' w t n H Ho. injection H as _ <- _.
    simpl in Ho. injection Ho as <-. rewrite length_mask. lia.
  - intros c i x r c' w n Hi He H Hr Ho. crush_update H; simpl in Ho;
      injection Ho as <-; try rewrite length_mask; try lia;
      unfold MBEDTLS_ERR_CIPHER_FULL_BLOCK_EXPECTED in Hr; lia.
  - intros c i iv x c' w n Hi He H Ho. unfold crypt in H. crush_update H;
      simpl in Ho; injection Ho as <-; rewrite length_mask; lia.
Qed.

Lemma keystream_crypt_says c iv x c' w :
  crypt c iv x = (0%Z, c', w) ->
  w = says (mask (c_key c) iv 0 x) /\
  c_info c' = c_info c /\ c_key c' = c_key c /\
  forall i, c_info c = Some i -> info_mode i = cipher_bm.ecb ->
            length x = info_block_size i.
Proof.
  intros H. unfold crypt in H. crush_update H; simpl in *.
  - repeat split; auto. intros i0 Hi _. apply Nat.eqb_eq. congruence.
  - repeat split; auto. intros i0 Hi He.
    assert (i0 = i) by congruence. subst i0. rewrite He in *. discriminate.
Qed.

Lemma keystream_crypt_intro c iv x i :
  c_info c = Some i ->
  (info_mode i = cipher_bm.ecb -> length x = info_block_size i) ->
  exists c', crypt c iv x = (0%Z, c', says (mask (c_key c) iv 0 x)).
Proof.
  intros Hi Hlen. unfold crypt, update. simpl. rewrite Hi.
  destruct (cipher_bm.bm_eqb_spec (info_mode i) cipher_bm.ecb) as [He|_].
  - rewrite (Hlen He), Nat.eqb_refl. now eexists.
  - now eexists.
Qed.

#[local] Instance keystream_inverts : crypt_inverts conv paired.
Proof.
  constructor.
  - exact keystream_lengths.
  - intros c iv x c' w H.
    destruct (keystream_crypt_says _ _ _ _ _ H) as (-> & _).
    eexists. split; [reflexivity|]. simpl. lia.
  - intros c i iv x c' w _ _ H.
    destruct (keystream_crypt_says _ _ _ _ _ H) as (-> & _).
    simpl. rewrite length_mask. split; reflexivity.
  - intros i cE cD (HE & HD & _). now split.
  - intros i cE cD iv x cE' w (HE & HD & Hk) H.
    destruct (keystream_crypt_says _ _ _ _ _ H) as (_ & Hi & Hkey & _).
    unfold paired. simpl in *. repeat split; congruence.
  - intros i cE cD iv y cD' w (HE & HD & Hk) H.
    destruct (keystream_crypt_says _ _ _ _ _ H) as (_ & Hi & Hkey & _).
    unfold paired. simpl in *. repeat split; congruence.
  - intros i cE cD iv x cE' w n (HE & HD & Hk) H Hn.
    destruct (keystream_crypt_says _ _ _ _ _ H) as (-> & _ & _ & Hlen).
    simpl in Hn. injection Hn as <-. simpl stored. rewrite firstn_all.
    destruct (keystream_crypt_intro cD iv (mask (c_key cE) iv 0 x) i HD)
      as (cD' & Hdec).
    { intros He. rewrite length_mask. now apply Hlen. }
    exists cD', (says (mask (c_key cD) iv 0 (mask (c_key cE) iv 0 x))).
    split; [exact Hdec|]. simpl.
    rewrite <- Hk, mask_involutive. split; [reflexivity|apply firstn_all].
Qed.

Lemma keystream_supported type pad iv key :
  supported (V := conv) paired type pad iv key.
Proof.
  intros i cE Hi Hcfg.
  pose proof (configured_info (HL := keystream_lengths) _ _ _ _ _ _ Hcfg)
    as HinfoE.
  destruct Hcfg as (c1 & c2 & c3 & E1 & Hpad & E3 & E4).
  change (c_info cE = Some i) in HinfoE.
  change (setkey c3 key (Nat.shiftl (length key) 3) MBEDTLS_ENCRYPT
          = (0%Z, cE)) in E4.
  unfold setkey in E4.
  destruct (c_info c3) as [i3|] eqn:H3;
    [|unfold BAD_INPUT_DATA in E4; discriminate].
  destruct (Nat.shiftl (length key) 3 =? info_key_bitlen i3) eqn:Eb;
    [|unfold BAD_INPUT_DATA in E4; discriminate].
  injection E4 as <-. simpl in HinfoE.
  exists {| c_info := Some i3; c_key := key; c_iv := c_iv c3;
            c_pos := c_pos c3 |}.
  split.
  - exists c1, c2, c3. repeat split; auto.
    change (setkey c3 key (Nat.shiftl (length key) 3) MBEDTLS_DECRYPT
            = (0%Z, {| c_info := Some i3; c_key := key; c_iv := c_iv c3;
                       c_pos := c_pos c3 |})).
    unfold setkey. now rewrite H3, Eb.
  - unfold paired. simpl. auto.
Qed.

#[local] Instance keystream_restarts : restartable conv session eq.
Proof.
  constructor; simpl.
  - intros c1 c2 ->. split; reflexivity.
  - intros c1 c2 x r c1' w -> H. now exists c1'.
  - intros c1 c2 r c1' w -> H. now exists c1'.
  - intros c x r c' w H. unfold session. crush_update H; simpl; congruence.
  - intros c r c' w H. injection H as _ <- _. reflexivity.
  - intros c iv c' H. injection H as <-. reflexivity.
  - intros c c' H. injection H as <-. reflexivity.
  - intros c1 c2 iv a1 b1 Hs H1 H2.
    injection H1 as <-. injection H2 as <-.
    do 2 eexists. split; [reflexivity|]. split; [reflexivity|].
    unfold session in Hs. injection Hs as Hi Hk. simpl.
    now rewrite Hi, Hk.
Qed.

End KeystreamLaws.

(** ** The padded cipher is a well-behaved primitive *)

Section PaddedLaws.
Import padded.










End PaddedLaws.

(** ** Evaluations on the keystream cipher *)

Section Keystream_evaluation.
#[local] Existing Instance in_place.
Import keystream keyed_sample.


(** C2, as stated, fails: an empty input is of length zero, yet the
    streaming [update] of an ECB context accepts it: it returns an empty
    buffer (the noexcept overload returns the code 0), not
    [FULL_BLOCK_EXPECTED].  And a one-shot ECB call on three bytes with
    a key the primitive rejects fails in [key], with the primitive's
    code, before the length is looked at: not with [usage_error]. *)
Lemma ecb_update_accepts_empty_input :
  cipher_impl.block_mode (V := conv) (self (ready xor_ecb)) = cipher_bm.ecb /\
  cipher.update (V := conv) [] (ready xor_ecb) = (Ok [], ready xor_ecb) /\
  fst (cipher.update_noexcept (V := conv) [] (zeros 2) 7 (ready xor_ecb))
    = Ok (0%Z, zeros 2, 0) /\
  0%Z <> MBEDTLS_ERR_CIPHER_FULL_BLOCK_EXPECTED /\
  fst (cipher.encrypt (V := conv) xor_ecb padding_t.none [] [x6b]
         [x68; x69; x21] [])
    = Throw (exception BAD_INPUT_DATA "mbedtls_cipher_setkey").
Proof. repeat split; discriminate. Qed.

Lemma ecb_length_precondition_witness :
  (exists e evs,
     one_shot (V := conv) encrypt_mode xor_ecb padding_t.none [] key2
       [x68; x69; x21] [] = (Throw e, [] ++ evs) /\
     forallb is_config evs = true /\
     (Forall (fun c => call_code c = 0%Z) evs ->
      e = usage_error ecb_usage_message)) /\
  cipher.update (V := conv) [x68; x69; x21] (ready xor_ecb) =
    (Throw (exception MBEDTLS_ERR_CIPHER_FULL_BLOCK_EXPECTED "update"),
     ready xor_ecb).
Proof.
  destruct (ecb_length_precondition (V := conv)) as (H1 & H2 & _).
  split.
  - apply (H1 encrypt_mode xor_ecb padding_t.none [] key2 [x68; x69; x21] []
             {| info_block_size := 2; info_iv_size := 0;
                info_key_bitlen := 16; info_mode := cipher_bm.ecb |}).
    + reflexivity.
    + reflexivity.
    + simpl. lia.
    + right. simpl. discriminate.
  - apply (H2 [x68; x69; x21] [] 0 0 (ready xor_ecb)).
    + reflexivity.
    + vm_compute. lia.
    + vm_compute. discriminate.
Defined.

Lemma decrypt_aead_outcomes_witness :
  fst (cipher.decrypt_aead (V := conv) xor_stream iv2 key2 [] [x00]
         [x68; x69; x21] [])
    = Ok (false, [x02; x0e; x4b]).
Proof.
  pose (s := snd ((cipher_impl.setup (V := conv) xor_stream ;;;
                   cipher_impl.key key2 decrypt_mode)
                    {| self := cipher_impl.new; calls := [] |})).
  destruct (decrypt_aead_outcomes (V := conv) xor_stream iv2 key2 [] [x00]
              [x68; x69; x21] [] s MBEDTLS_ERR_CIPHER_AUTH_FAILED
              (ctx_ (self s))
              (says [x02; x0e; x4b]))
    as (_ & H & _).
  - reflexivity.
  - reflexivity.
  - reflexivity.
  - exact (H eq_refl).
Defined.

Lemma output_sizing_witness :
  documented_lengths conv /\
  exists buf n,
    length buf = length [x68; x69; x21] + 1 + 32 /\
    n <= length [x68; x69; x21] + 1 + 32 /\
    [x02; x0e; x4b] = firstn n buf /\ n = 3.
Proof.
  split; [exact keystream_lengths|].
  destruct (output_sizing (HL := keystream_lengths)) as (H & _).
  destruct (H [x68; x69; x21] (ready xor_stream) [x02; x0e; x4b]
              (snd (cipher.update (V := conv) [x68; x69; x21]
                      (ready xor_stream))) eq_refl)
    as (buf & n & Hlen & Hn & Hout & Hl & _).
  exists buf, n. repeat split; auto.
Defined.

Lemma restart_reproduces_witness :
  restartable conv session eq /\
  fst (message (V := conv) [[x68]; [x69; x21]] (ready xor_stream))
    = Ok ([[x02]; [x0e; x4b]], []) /\
  exists s2,
    message (V := conv) [[x68]; [x69; x21]]
      (snd (message (V := conv) [[x68]; [x69; x21]] (ready xor_stream)))
    = (Ok ([[x02]; [x0e; x4b]], []), s2).
Proof.
  split; [exact keystream_restarts|]. split; [reflexivity|].
  destruct (restart_reproduces (HR := keystream_restarts)
              [[x68]; [x69; x21]] (ready xor_stream)
              ([[x02]; [x0e; x4b]], [])
              (snd (message (V := conv) [[x68]; [x69; x21]]
                      (ready xor_stream)))
              (in_place_readable lib iv2) eq_refl)
    as (_ & H & _).
  exact H.
Defined.

Lemma padding_none_is_noop_witness :
  cipher.padding (V := conv) padding_t.none (ready xor_stream)
    = (Ok tt, ready xor_stream) /\
  cipher.padding (V := conv) padding_t.pkcs7 (ready xor_stream)
    = (Ok tt,
       after (ready xor_stream) (ctx_ (self (ready xor_stream)))
         (call_set_padding_mode (L := lib) padding_t.pkcs7 0)).
Proof.
  destruct (padding_none_is_noop (V := conv) (ready xor_stream)) as (H1 & H2).
  split; [exact H1|].
  apply (H2 padding_t.pkcs7 ltac:(discriminate) 0%Z
           (ctx_ (self (ready xor_stream))) eq_refl).
Defined.

Lemma encrypt_aead_sizing_witness :
  documented_lengths conv /\
  fst (cipher.encrypt_aead (V := conv) xor_stream iv2 key2 []
         [x68; x69; x21] [])
    = Ok (repeat x2a 16, [x02; x0e; x4b]) /\
  length (repeat x2a 16) = 16.
Proof.
  split; [exact keystream_lengths|]. split; [reflexivity|].
  destruct (encrypt_aead_sizing (HL := keystream_lengths)
              xor_stream iv2 key2 [] [x68; x69; x21] []
              (repeat x2a 16) [x02; x0e; x4b]
              (snd (cipher.encrypt_aead (V := conv) xor_stream iv2 key2 []
                      [x68; x69; x21] [])) eq_refl)
    as (H & _).
  exact H.
Defined.

End Keystream_evaluation.

(** ** [start()] and an IV of 16 bytes *)

Section Restart_evaluation.
Import keystream keyed_sample.

(** C7 (a defect of the code): [start()] does not hand the primitive the
    remembered IV but what a view of it shows after [iv] assigned
    [iv_data_] anew ([reset_last_iv] passes [iv] a view of [iv_data_]
    itself).  On the keystream cipher, keyed, with the 16-byte IV
    [01 .. 10] set by [iv()], and a [buffer_t] that keeps up to 15 bytes
    in place: the IV is remembered and stays so, yet [start()] hands
    [mbedtls_cipher_set_iv] sixteen bytes of the released block; the
    message run from [start()] is then not the one the IV that was set
    gives, while with the 2-byte IV it is. *)
Theorem start_hands_over_released_storage :
  (forall (L : mbedtls) (B : buffers L) (s : world),
     exists r evs,
       calls (snd (cipher.start s)) =
         calls s ++ call_set_iv (stale_view (self s)) r :: evs) /\
  iv_data_ (self (ready16 xor_stream)) = iv16 /\
  calls (snd (cipher.start (B := scrubbing lib 15) (ready16 xor_stream)))
    = calls (ready16 xor_stream) ++
      [call_set_iv (repeat xdd 16) 0; call_reset 0] /\
  iv_data_ (self (snd (cipher.start (B := scrubbing lib 15)
                         (ready16 xor_stream)))) = iv16 /\
  fst (cipher.update (V := conv) [x68; x69; x21] (ready16 xor_stream))
    = Ok [x02; x0e; x49] /\
  fst (message (V := conv) (B := scrubbing lib 15) [[x68; x69; x21]]
         (ready16 xor_stream))
    = Ok ([[xde; xd1; x97]], []) /\
  fst (cipher.update (V := conv) [x68; x69; x21] (ready xor_stream))
    = Ok [x02; x0e; x4b] /\
  fst (message (V := conv) (B := scrubbing lib 15) [[x68; x69; x21]]
         (ready xor_stream))
    = Ok ([[x02; x0e; x4b]], []).
Proof.
  split.
  - intros L B s. destruct (start_first_call (B := B) s) as (evs & H).
    eexists. exists evs. exact H.
  - repeat split.
Qed.

End Restart_evaluation.

(** * Further properties of [cipher.cpp] *)

(** ** Cipher types without a registry entry *)

Section UnknownCipher.
Context {L : mbedtls} {V : conversions L} {B : buffers L}.

(** X1: for a cipher type mbedtls has no info for, every entry point
    that takes a type throws [unknown_cipher] before any primitive is
    called on a context: the static lookups, the constructor, the
    one-shot [encrypt] and [decrypt] and, in a build with AEAD,
    [encrypt_aead] and [decrypt_aead]. *)
Theorem unknown_cipher_everywhere type :
  cipher_info_from_type (to_native type) = None ->
  (cipher.block_size type = Throw unknown_cipher /\
   cipher.iv_size type = Throw unknown_cipher /\
   cipher.block_mode type = Throw unknown_cipher /\
   cipher.key_bitlen type = Throw unknown_cipher) /\
  (forall j, cipher.make type j =
     (Throw unknown_cipher, {| self := cipher_impl.new; calls := j |})) /\
  (forall m pad iv key input j,
     one_shot m type pad iv key input j = (Throw unknown_cipher, j)) /\
  (MBEDTLS_CIPHER_MODE_AEAD = true ->
   (forall iv key ad input j,
      cipher.encrypt_aead type iv key ad input j = (Throw unknown_cipher, j)) /\
   (forall iv key ad tag input j,
      cipher.decrypt_aead type iv key ad tag input j
        = (Throw unknown_cipher, j))).
Proof.
  intros Hnone.
  assert (Hu : cipher_impl.native_info type = Throw unknown_cipher).
  { unfold cipher_impl.native_info. now rewrite Hnone. }
  split.
  { unfold cipher.block_size, cipher.iv_size, cipher.block_mode,
      cipher.key_bitlen, cipher.on_info. rewrite Hu. auto. }
  split.
  { intros j. unfold cipher.make. now apply setup_unknown. }
  split.
  { intros. now apply one_shot_unknown. }
  intros Haead. split; intros.
  - unfold cipher.encrypt_aead. rewrite Haead.
    erewrite bind_throw by (apply setup_unknown; exact Hu). reflexivity.
  - unfold cipher.decrypt_aead. rewrite Haead.
    erewrite bind_throw by (apply setup_unknown; exact Hu). reflexivity.
Qed.

End UnknownCipher.

(** ** The remembered IV *)

Section RememberedIv.
Context {L : mbedtls} {V : conversions L} {B : buffers L}.

(** X2: [iv(x)] remembers [x] whatever the primitive answers, also when
    it rejects [x] and [iv] throws: [iv_data_] is assigned before
    [mbedtls_cipher_set_iv] is called.  The next [start()] makes
    [mbedtls_cipher_set_iv] its first call and hands it what a view of
    the remembered IV shows once [iv_data_] was assigned anew: such a
    view is what [reset_last_iv] passes to [iv].  That is [x] again when
    [x] stays readable through the view. *)
Theorem iv_is_remembered x s :
  let s' := snd (cipher.iv x s) in
  iv_data_ (self s') = x /\
  calls s' = calls s ++ [call_set_iv x (fst (cipher_set_iv (ctx_ (self s)) x))] /\
  (exists evs,
     calls (snd (cipher.start s')) =
       calls s' ++
       call_set_iv (stale_view (self s'))
         (fst (cipher_set_iv (ctx_ (self s')) (stale_view (self s')))) :: evs) /\
  (iv_stays_readable x -> stale_view (self s') = x).
Proof.
  intros s'.
  assert (H1 : iv_data_ (self s') = x /\
               calls s' = calls s ++
                 [call_set_iv x (fst (cipher_set_iv (ctx_ (self s)) x))]).
  { unfold s', cipher.iv.
    destruct (cipher_set_iv (ctx_ (self s)) x) as [r c] eqn:E.
    rewrite (iv_run _ _ _ _ E). simpl. auto. }
  destruct H1 as [Hiv Hcalls]. split; [exact Hiv|]. split; [exact Hcalls|].
  split.
  - apply start_first_call.
  - intros Hread.
    rewrite (stale_view_readable (self s')) by (rewrite Hiv; exact Hread).
    exact Hiv.
Qed.

End RememberedIv.

(** ** A constructed cipher *)

Section Constructed.
Context {L : mbedtls} {V : conversions L} {B : buffers L}
        {HL : documented_lengths V}.

(** X3: when the constructor [cipher(type)] returns, it made one call,
    [mbedtls_cipher_setup] with the info of the type, no IV is
    remembered, and (with a primitive that keeps the info it was set up
    with) the member accessors [block_size()], [iv_size()],
    [key_bitlen()] and [block_mode()] answer what the static lookups
    answer for the type. *)
Theorem constructed_metadata type j s :
  cipher.make type j = (Ok tt, s) ->
  exists i,
    cipher_info_from_type (to_native type) = Some i /\
    calls s = j ++ [call_setup i 0] /\
    iv_data_ (self s) = [] /\
    cipher.block_size type = Ok (cipher_impl.block_size (self s)) /\
    cipher.iv_size type = Ok (cipher_impl.iv_size (self s)) /\
    cipher.key_bitlen type = Ok (cipher_impl.key_bitlen (self s)) /\
    cipher.block_mode type = Ok (cipher_impl.block_mode (self s)).
Proof.
  unfold cipher.make. intros H.
  destruct (native_info_cases type) as [[i Hi]|Hu].
  2:{ rewrite (setup_unknown _ _ Hu) in H. discriminate. }
  exists i.
  assert (Hsome : cipher_info_from_type (to_native type) = Some i).
  { unfold cipher_impl.native_info in Hi.
    destruct (cipher_info_from_type (to_native type)); congruence. }
  split; [exact Hsome|].
  set (s0 := {| self := cipher_impl.new; calls := j |}) in *.
  destruct (cipher_setup (ctx_ (self s0)) i) as [r c] eqn:E.
  rewrite (setup_run _ _ _ _ _ Hi E) in H.
  destruct (r =? 0)%Z eqn:Er; [|discriminate].
  apply Z.eqb_eq in Er. subst r. injection H as <-.
  pose proof (setup_sets_info _ _ _ E) as Hinfo.
  split; [reflexivity|]. split; [reflexivity|].
  unfold cipher.block_size, cipher.iv_size, cipher.key_bitlen,
    cipher.block_mode, cipher.on_info, cipher_impl.block_size,
    cipher_impl.iv_size, cipher_impl.key_bitlen, cipher_impl.block_mode.
  rewrite Hi. simpl. rewrite Hinfo, (block_size_of_info _ _ Hinfo). auto.
Qed.

End Constructed.

(** ** [cipher::crypt(input)] *)

Section CryptMember.
Context {L : mbedtls} {V : conversions L} {B : buffers L}.

(** [crypt] returns exactly when its four calls return zero. *)
Lemma crypt_iff input s out s1 :
  cipher.crypt input s = (Ok out, s1) <->
  exists w1 w2 bsize,
    crypt_steps s input w1 w2 s1 bsize /\
    out = resize (olen_after 0 w1 + olen_after 0 w2)
            (store (store (zeros (32 + length input + bsize)) 0 (stored w1))
               (olen_after 0 w1) (stored w2)).
Proof.
  unfold cipher.crypt. split.
  - intros H. apply bind_inv in H. destruct H as ([] & s0 & Hstart & H).
    destruct (start_inv _ _ Hstart) as (a & b & E1 & E2 & Hself & Hcalls).
    apply bind_inv in H. destruct H as (w1 & s2 & Hu & H).
    apply bind_inv in H. destruct H as (w2 & s3 & Hf & Hret).
    apply c_call_out_inv in Hu. unfold mbedtls_cipher_update in Hu.
    rewrite Hself in Hu. simpl in Hu.
    destruct (cipher_update b input) as [[r1 c1] w1'] eqn:Eu.
    injection Hu as -> -> <-.
    apply c_call_out_inv in Hf. unfold mbedtls_cipher_finish in Hf.
    simpl in Hf.
    destruct (cipher_finish c1) as [[r2 c2] w2'] eqn:Ef.
    injection Hf as -> -> <-.
    unfold ret in Hret. injection Hret as <- <-.
    exists w1, w2, (cipher_get_block_size b). split.
    + exists a, b, c1, c2. repeat split; auto.
      unfold after. simpl. rewrite Hself, Hcalls. simpl. f_equal.
      rewrite <- !app_assoc. reflexivity.
    + unfold cipher_impl.block_size. rewrite Hself. reflexivity.
  - intros (w1 & w2 & bsize & (a & b & c1 & c2 & E1 & E2 & Eu & Ef & -> & ->)
            & ->).
    destruct (start_intro s a b E1 E2) as (s0 & Hstart & Hself & Hcalls).
    rewrite (bind_ok _ _ _ _ _ Hstart).
    unfold c_call_out, bind, mbedtls_cipher_update, mbedtls_cipher_finish.
    rewrite Hself. simpl. rewrite Eu. simpl. rewrite Ef. simpl.
    unfold ret, after, cipher_impl.block_size. simpl.
    rewrite Hself, Hcalls. simpl. rewrite <- !app_assoc. reflexivity.
Qed.

(** X4: when [crypt(input)] returns, it made exactly four calls, all of
    which returned zero: [set_iv], [reset], one [update] fed the whole
    input, and [finish].  This is so in every block mode: in ECB mode
    too the input goes to the primitive in one piece, the chunk driver
    of [update(input)] is not used.  What [set_iv] is handed is what a
    view of the remembered IV shows once [iv_data_] was assigned anew
    (the remembered IV itself when it stays readable).  The remembered
    IV is left as it was. *)
Theorem crypt_makes_four_calls input s out s1 :
  cipher.crypt input s = (Ok out, s1) ->
  iv_data_ (self s1) = iv_data_ (self s) /\
  (iv_stays_readable (iv_data_ (self s)) ->
   stale_view (self s) = iv_data_ (self s)) /\
  exists w1 w2,
    calls s1 = calls s ++
      [call_set_iv (stale_view (self s)) 0; call_reset 0;
       call_update input 0 w1; call_finish 0 w2] /\
    length out = olen_after 0 w1 + olen_after 0 w2.
Proof.
  intros H. apply crypt_iff in H.
  destruct H as (w1 & w2 & bsize & (a & b & c1 & c2 & _ & _ & _ & _ & _ & ->)
                 & ->).
  split; [reflexivity|]. split; [apply stale_view_readable|].
  exists w1, w2. split; [reflexivity|].
  apply length_resize.
Qed.

End CryptMember.

Section CryptStream.
Context {L : mbedtls} {V : conversions L} {B : buffers L}
        {HS : streams_as_reported V}.

(** X5: outside ECB mode, and with a block size of at most 32 bytes,
    [crypt(input)] is [start(); update(input); finish()]: it returns
    exactly when the streamed message returns, with the two outputs put
    end to end, and leaves the object in the same state after the same
    calls.  (The primitive stores what it reports, within the documented
    bounds.) *)
Theorem crypt_is_streamed_message input s s0 :
  cipher.start s = (Ok tt, s0) ->
  cipher_impl.block_mode (self s0) <> cipher_bm.ecb ->
  cipher_impl.block_size (self s0) <= 32 ->
  forall out s1,
    cipher.crypt input s = (Ok out, s1) <->
    exists o f, message [input] s = (Ok ([o], f), s1) /\ out = o ++ f.
Proof.
  intros Hstart Hmode Hbs out s1.
  pose proof streams_lengths as HL.
  unfold cipher.crypt, message. rewrite !(bind_ok _ _ _ _ _ Hstart).
  simpl updates. unfold cipher.update, cipher.finish.
  unfold c_call_out, bind, mbedtls_cipher_update, mbedtls_cipher_finish.
  destruct (cipher_bm.bm_eqb_spec (cipher_impl.block_mode (self s0))
              cipher_bm.ecb) as [|_]; [contradiction|].
  unfold cipher_impl.block_size in *.
  destruct (cipher_update (ctx_ (self s0)) input) as [[r1 c1] w1] eqn:Eu.
  cbn [fst snd ctx_ self after].
  destruct (r1 =? 0)%Z eqn:Er1.
  2:{ split; [discriminate|]. intros (o & f & H & _). discriminate. }
  apply Z.eqb_eq in Er1. subst r1. unfold ret. cbn [fst snd ctx_ self after].
  destruct (cipher_finish c1) as [[r2 c2] w2] eqn:Ef.
  cbn [fst snd ctx_ self after].
  destruct (r2 =? 0)%Z eqn:Er2.
  2:{ split; [discriminate|]. intros (o & f & H & _). discriminate. }
  apply Z.eqb_eq in Er2. subst r2.
  pose proof (update_stores_reported _ _ _ _ Eu) as R1.
  pose proof (finish_stores_reported _ _ _ Ef) as R2.
  pose proof (update_length _ _ _ _ _ Eu R1) as B1.
  pose proof (finish_length _ _ _ _ Ef R2) as B2.
  rewrite (update_keeps_block_size _ _ _ _ Eu) in B2.
  rewrite (update_keeps_block_size _ _ _ _ Eu).
  set (bs := cipher_get_block_size (ctx_ (self s0))) in *.
  unfold olen_after. rewrite R1, R2.
  rewrite !resize_store_exact by lia.
  assert (Hout : resize (length (stored w1) + length (stored w2))
                   (store (store (zeros (32 + length input + bs)) 0 (stored w1))
                      (length (stored w1)) (stored w2))
                 = stored w1 ++ stored w2).
  { rewrite resize_is_firstn
      by (rewrite !length_store, length_zeros; lia).
    rewrite store_block by (rewrite length_store, length_zeros; lia).
    f_equal. change (length (stored w1)) with (0 + length (stored w1)) at 1.
    rewrite store_block by (rewrite length_zeros; simpl; lia).
    reflexivity. }
  rewrite Hout. split.
  - intros H. injection H as <- <-. eauto.
  - intros (o & f & H & ->). injection H as <- <- <-. reflexivity.
Qed.

End CryptStream.

Section CryptRestart.
Context {L : mbedtls} {V : conversions L} {B : buffers L} {K : Type}
        {session : cipher_context_t -> K}
        {alike : cipher_context_t -> cipher_context_t -> Prop}
        {HR : restartable V session alike}.

(** X6: [crypt(input)] can be repeated, provided the remembered IV is
    one that a view of it still shows after [iv_data_] was assigned
    anew.  When it then returns on an object, it returns the same bytes
    again on the object it leaves behind, and on any object of the same
    session that remembers the same IV: the [start()] it begins with
    undoes what the call before left in the context.  (For a primitive
    that setting the same IV and resetting brings back to an equivalent
    state.) *)
Theorem crypt_is_repeatable input s out s1 :
  iv_stays_readable (iv_data_ (self s)) ->
  cipher.crypt input s = (Ok out, s1) ->
  (exists s2, cipher.crypt input s1 = (Ok out, s2)) /\
  forall t,
    session (ctx_ (self t)) = session (ctx_ (self s)) ->
    iv_data_ (self t) = iv_data_ (self s) ->
    exists t', cipher.crypt input t = (Ok out, t').
Proof.
  intros Hread H. apply crypt_iff in H.
  destruct H as (w1 & w2 & bsize &
                 (a & b & c1 & c2 & E1 & E2 & Eu & Ef & Hb & Hs1) & Hout).
  assert (G : forall t,
             session (ctx_ (self t)) = session (ctx_ (self s)) ->
             iv_data_ (self t) = iv_data_ (self s) ->
             exists t', cipher.crypt input t = (Ok out, t')).
  { intros t Hsess Hiv.
    assert (Hv : stale_view (self t) = stale_view (self s)).
    { rewrite (stale_view_readable (self s)) by exact Hread.
      rewrite (stale_view_readable (self t)) by (rewrite Hiv; exact Hread).
      exact Hiv. }
    destruct (restart_alike _ _ _ _ _ (eq_sym Hsess) E1 E2)
      as (a2 & b2 & E1' & E2' & Hal).
    destruct (alike_update _ _ _ _ _ _ Hal Eu) as (c1' & Eu' & Hal1).
    destruct (alike_finish _ _ _ _ _ Hal1 Ef) as (c2' & Ef' & _).
    destruct (alike_info _ _ Hal) as [_ Hbs].
    eexists. apply crypt_iff. exists w1, w2, bsize. split; [|exact Hout].
    exists a2, b2, c1', c2'. rewrite Hv.
    repeat split; auto. congruence. }
  split; [|exact G].
  apply G; subst s1; simpl; [|reflexivity].
  rewrite (@session_finish _ _ _ _ _ HR _ _ _ _ Ef),
    (@session_update _ _ _ _ _ HR _ _ _ _ _ Eu),
    (@session_reset _ _ _ _ _ HR _ _ E2),
    (@session_set_iv _ _ _ _ _ HR _ _ _ E1). reflexivity.
Qed.

End CryptRestart.

(** ** The chunk driver does not look at the output buffer *)

Section StoredBlocks.

Lemma store_exact (b : buffer_t) p (w : buffer_t) :
  p + length w <= length b ->
  store b p w = firstn p b ++ w ++ skipn (p + length w) b.
Proof.
  intros H. unfold store. now rewrite (firstn_all2 (n := length b - p) w) by lia.
Qed.

Lemma skipn_store (b : buffer_t) p (w : buffer_t) q :
  p + length w <= length b -> p + length w <= q ->
  skipn q (store b p w) = skipn q b.
Proof.
  intros H Hq. rewrite store_exact by exact H. rewrite app_assoc.
  rewrite skipn_app.
  rewrite skipn_all2 by (rewrite length_app, length_firstn; lia).
  rewrite length_app, length_firstn, skipn_skipn. simpl. f_equal. lia.
Qed.

Lemma total_len_exact es :
  Forall fed_exact es -> total_len es = length (fed_bytes es).
Proof.
  induction 1 as [|e es He _ IH]; [reflexivity|].
  unfold fed_bytes in *. simpl. rewrite length_app, IH.
  unfold fed_len, olen_after. now rewrite He.
Qed.

(** When every call reported what it stored and all of it fits, the
    bytes lie end to end from the starting offset on, and the rest of
    the buffer is as it was. *)
Lemma stores_at_exact es :
  Forall fed_exact es ->
  forall out p,
    p + length (fed_bytes es) <= length out ->
    stores_at out p es =
      firstn p out ++ fed_bytes es ++ skipn (p + length (fed_bytes es)) out.
Proof.
  induction 1 as [|e es He Hes IH]; intros out p Hfit.
  - simpl. rewrite Nat.add_0_r. symmetry. apply firstn_skipn.
  - unfold fed_bytes in *. simpl in *. rewrite length_app in Hfit.
    assert (Hn : fed_len e = length (stored (snd e))).
    { unfold fed_len, olen_after. now rewrite He. }
    rewrite Hn, IH by (rewrite length_store; lia).
    rewrite store_block by lia.
    rewrite skipn_store by lia.
    rewrite length_app, <- !app_assoc. do 3 f_equal. f_equal. lia.
Qed.

End StoredBlocks.

Section ChunkUniform.
Context {L : mbedtls} {V : conversions L} {B : buffers L}.

(** The calls the loop makes, the code it returns and the state it
    leaves do not depend on the output buffer, the offset into it or the
    size passed by reference: these only say where the bytes go. *)
Lemma update_chunked_loop_uniform n achunk bsize :
  forall i o s,
  exists (es : list fed) r s',
    fed_chain (ctx_ (self s)) es (ctx_ (self s')) /\
    map fed_input es = blocks_from (length es) achunk bsize i /\
    (r = 0%Z -> length es = n /\ Forall (fun e => (0 <= fed_code e)%Z) es) /\
    forall out base osize,
      cipher_impl.update_chunked_loop n achunk bsize i o out base osize s
      = (Ok (r, stores_at out (base + o) es,
             if (r =? 0)%Z then o + total_len es else osize), s').
Proof.
  induction n as [|n IH]; intros i o s.
  - exists [], 0%Z, s. split; [constructor|]. split; [reflexivity|].
    split; [auto|]. intros. simpl. unfold ret. now rewrite Nat.add_0_r.
  - destruct (cipher_update (ctx_ (self s)) (view achunk i bsize))
      as [[r c] w] eqn:Hupd.
    destruct (r <? 0)%Z eqn:Hneg.
    + exists [(view achunk i bsize, r, w)], r,
        (after s c (call_update (view achunk i bsize) r w)).
      split; [econstructor; [exact Hupd|constructor]|].
      split; [reflexivity|].
      apply Z.ltb_lt in Hneg. split; [lia|].
      intros. simpl. unfold bind at 1, mbedtls_cipher_update at 1.
      rewrite Hupd. simpl.
      replace (r <? 0)%Z with true by (symmetry; now apply Z.ltb_lt).
      replace (r =? 0)%Z with false by (symmetry; apply Z.eqb_neq; lia).
      reflexivity.
    + destruct (IH (i + bsize) (o + olen_after 0 w)
                  (after s c (call_update (view achunk i bsize) r w)))
        as (es & r' & s' & Hch & Hin & Hok & Hrun).
      exists ((view achunk i bsize, r, w) :: es), r', s'.
      split; [econstructor; [exact Hupd|exact Hch]|].
      split; [simpl; now rewrite Hin|].
      apply Z.ltb_ge in Hneg.
      split.
      { intros Hr. destruct (Hok Hr) as [Hl Hf]. split; [simpl; lia|].
        constructor; [exact Hneg|exact Hf]. }
      intros. simpl. unfold bind at 1, mbedtls_cipher_update at 1.
      rewrite Hupd. simpl.
      replace (r <? 0)%Z with false by (symmetry; now apply Z.ltb_ge).
      rewrite Hrun. unfold fed_len. simpl.
      now rewrite !Nat.add_assoc.
Qed.

Lemma update_chunked_uniform achunk s :
  exists (es : list fed) r s',
    fed_chain (ctx_ (self s)) es (ctx_ (self s')) /\
    iv_data_ (self s') = iv_data_ (self s) /\
    (r = 0%Z ->
     length achunk mod cipher_impl.block_size (self s) = 0 /\
     map fed_input es =
       blocks_from (length achunk / cipher_impl.block_size (self s)) achunk
         (cipher_impl.block_size (self s)) 0 /\
     Forall (fun e => (0 <= fed_code e)%Z) es) /\
    forall out base osize,
      cipher_impl.update_chunked achunk out base osize s
      = (Ok (r, stores_at out base es,
             if (r =? 0)%Z then total_len es else osize), s').
Proof.
  unfold cipher_impl.update_chunked.
  destruct (length achunk mod cipher_impl.block_size (self s) =? 0) eqn:Hmod;
    simpl negb; cbv iota.
  2:{ exists [], MBEDTLS_ERR_CIPHER_FULL_BLOCK_EXPECTED, s.
      split; [constructor|]. split; [reflexivity|].
      split; [unfold MBEDTLS_ERR_CIPHER_FULL_BLOCK_EXPECTED; discriminate|].
      reflexivity. }
  apply Nat.eqb_eq in Hmod.
  - destruct (update_chunked_loop_uniform
                (length achunk / cipher_impl.block_size (self s)) achunk
                (cipher_impl.block_size (self s)) 0 0 s)
      as (es & r & s' & Hch & Hin & Hok & Hrun).
    exists es, r, s'. split; [exact Hch|]. split.
    { destruct (update_chunked_loop_spec
                  (length achunk / cipher_impl.block_size (self s)) achunk
                  (cipher_impl.block_size (self s)) [] 0 0 0 0 s)
        as (es0 & r0 & o0 & z0 & s0 & Hrun0 & _ & Hiv & _).
      rewrite Hrun in Hrun0. injection Hrun0 as _ _ _ <-. exact Hiv. }
    split.
    { intros Hr. destruct (Hok Hr) as [Hl Hf]. split; [exact Hmod|].
      split; [|exact Hf]. now rewrite <- Hl. }
    intros. rewrite Hrun. now rewrite Nat.add_0_r.
Qed.

End ChunkUniform.

(** ** The streaming overloads *)

Section Overloads.
Context {L : mbedtls} {V : conversions L} {B : buffers L}
        {HS : streams_as_reported V}.

(** Calls that all went through stored what they reported and left the
    block size as it was. *)
Lemma fed_chain_exact c es c' :
  fed_chain c es c' ->
  Forall (fun e => (0 <= fed_code e)%Z) es ->
  Forall (fun e => fed_code e = 0%Z) es /\ Forall fed_exact es /\
  cipher_get_block_size c' = cipher_get_block_size c.
Proof.
  induction 1 as [c|c x r w c1 l c2 Hprim Hch IH]; intros Hf.
  - repeat split; constructor.
  - inversion Hf as [|e l' Hr Hl]; subst. unfold fed_code in Hr. simpl in Hr.
    pose proof (update_code_not_positive _ _ _ _ _ Hprim) as Hle.
    assert (r = 0%Z) by lia. subst r.
    destruct (IH Hl) as (H0 & He & Hb).
    split; [constructor; [reflexivity|exact H0]|].
    split; [constructor; [exact (update_stores_reported _ _ _ _ Hprim)|exact He]|].
    rewrite Hb. exact (update_keeps_block_size _ _ _ _ Hprim).
Qed.

(** In ECB mode they stored as many bytes as they were fed. *)
Lemma fed_chain_ecb i c es c' :
  from_native (info_mode i) = cipher_bm.ecb ->
  cipher_info c = Some i ->
  fed_chain c es c' ->
  Forall (fun e => fed_code e = 0%Z) es ->
  length (fed_bytes es) = length (concat (map fed_input es)).
Proof.
  intros Hecb Hinfo Hch. pose proof streams_lengths as HL.
  induction Hch as [c|c x r w c1 l c2 Hprim Hch IH]; intros Hf.
  - reflexivity.
  - inversion Hf as [|e l' Hr Hl]; subst. unfold fed_code in Hr. simpl in Hr.
    subst r. unfold fed_bytes in *. simpl. rewrite !length_app.
    rewrite IH; [|now rewrite (update_keeps_info _ _ _ _ _ Hprim)|exact Hl].
    now rewrite (ecb_update_whole_block _ _ _ _ _ Hinfo Hecb Hprim).
Qed.

(** The ECB [update(input)], taken apart. *)
Lemma ecb_update_inv input s out s' :
  cipher_impl.block_mode (self s) = cipher_bm.ecb ->
  cipher.update input s = (Ok out, s') ->
  exists es,
    fed_chain (ctx_ (self s)) es (ctx_ (self s')) /\
    map fed_input es =
      blocks_from (length input / cipher_impl.block_size (self s)) input
        (cipher_impl.block_size (self s)) 0 /\
    Forall (fun e => fed_code e = 0%Z) es /\
    Forall fed_exact es /\
    length (fed_bytes es) = length input /\
    out = fed_bytes es /\
    forall output base osize,
      cipher_impl.update_chunked input output base osize s
      = (Ok (0%Z, stores_at output base es, total_len es), s').
Proof.
  intros Hecb H. unfold cipher.update in H. cbv beta zeta in H.
  rewrite Hecb in H. simpl cipher_bm.eqb in H. cbv iota in H.
  destruct (update_chunked_uniform input s)
    as (es & r & s1 & Hch & _ & Hok & Hrun).
  rewrite (bind_ok _ _ _ _ _ (Hrun _ _ _)) in H. simpl in H.
  destruct (r =? 0)%Z eqn:Er; simpl in H; [|discriminate].
  apply Z.eqb_eq in Er. subst r.
  unfold ret in H. injection H as <- <-.
  destruct (Hok eq_refl) as (Hmod & Hin & Hnn).
  destruct (fed_chain_exact _ _ _ Hch Hnn) as (H0 & Hex & _).
  destruct (block_mode_ecb_info _ Hecb) as (i & Hinfo & Hmode).
  pose proof (fed_chain_ecb _ _ _ _ Hmode Hinfo Hch H0) as Hlen.
  assert (Hall : length (fed_bytes es) = length input).
  { rewrite Hlen, Hin.
    set (bs := cipher_impl.block_size (self s)) in *.
    destruct (blocks_from_exact (length input / bs) input bs 0) as [_ C].
    - pose proof (Nat.div_mod_eq (length input) bs). simpl. nia.
    - now rewrite C. }
  exists es. repeat split; auto.
  rewrite (total_len_exact _ Hex).
  rewrite resize_is_firstn by (rewrite length_stores_at, length_zeros; lia).
  rewrite stores_at_exact
    by (try exact Hex; rewrite length_zeros; simpl; lia).
  simpl. now apply firstn_front.
Qed.

(** X7: in ECB mode [update(input)] gives back as many bytes as it was
    given: when it returns, every block of the input went to the
    primitive in its own call, in order, each call returned zero, and
    the buffer returned is what these calls stored, end to end.  (The
    primitive stores what it reports, a block for a block, and returns
    no positive code.) *)
Theorem ecb_update_is_block_by_block input s out s' :
  cipher_impl.block_mode (self s) = cipher_bm.ecb ->
  cipher.update input s = (Ok out, s') ->
  length out = length input /\
  exists es,
    fed_chain (ctx_ (self s)) es (ctx_ (self s')) /\
    concat (map fed_input es) = input /\
    Forall (fun e => length (fed_input e) = cipher_impl.block_size (self s))
      es /\
    Forall (fun e => fed_code e = 0%Z) es /\
    out = fed_bytes es.
Proof.
  intros Hecb H.
  destruct (ecb_update_inv _ _ _ _ Hecb H)
    as (es & Hch & Hin & H0 & _ & Hlen & Hout & Hrun).
  split; [now rewrite Hout|]. exists es.
  set (bs := cipher_impl.block_size (self s)) in *.
  assert (Hmod : length input = 0 + length input / bs * bs).
  { destruct (update_chunked_uniform input s)
      as (es1 & r1 & s1 & _ & _ & Hok & Hrun1).
    specialize (Hrun [] 0 0). rewrite Hrun1 in Hrun.
    injection Hrun as -> _ _ _. destruct (Hok eq_refl) as (Hmod & _).
    pose proof (Nat.div_mod_eq (length input) bs).
    fold bs in Hmod. simpl. nia. }
  destruct (blocks_from_exact _ input bs 0 Hmod) as [F C].
  split; [exact Hch|]. split; [now rewrite Hin, C|].
  split; [|auto].
  rewrite <- Hin in F. clear - F.
  induction es as [|e es IH]; [constructor|].
  inversion F; subst. constructor; auto.
Qed.

End Overloads.

Section OverloadsAgree.
Context {L : mbedtls} {V : conversions L} {B : buffers L}
        {HS : streams_as_reported V}.

(** X8: for a primitive that stores exactly the bytes it reports,
    within the documented bounds, returns no positive code and in ECB
    mode gives a block for a block ([streams_as_reported]), the three
    overloads of [update] do the same work.  When [update] on the bytes
    [{input + in_index, count}] returns [out], the in-place overload on
    the same object with these indices, given room for [out] at
    [out_index], returns [length out], puts [out] at [out_index] and
    leaves every other byte of the caller's buffer as it was; the
    noexcept overload returns the code 0, sets [output_size] to
    [length out] and puts [out] at the pointer.  All three leave the
    object in the same state after the same calls, in ECB mode as in
    every other mode.  (A primitive that stores more than it reports
    leaves the surplus in the caller's buffer: the condition is
    needed.) *)
Theorem update_overloads_agree input in_index count s out s' :
  cipher.update (view input in_index count) s = (Ok out, s') ->
  (forall output out_index,
     out_index + length out <= length output ->
     cipher.update_at input in_index count output out_index s =
       (Ok (length out),
        firstn out_index output ++ out ++
          skipn (out_index + length out) output, s')) /\
  (forall output output_size,
     length out <= length output ->
     cipher.update_noexcept (view input in_index count) output output_size s
     =
       (Ok (0%Z, out ++ skipn (length out) output, length out), s')).
Proof.
  set (x := view input in_index count).
  intros H. pose proof streams_lengths as HL.
  destruct (cipher_bm.bm_eqb_spec (cipher_impl.block_mode (self s))
              cipher_bm.ecb) as [Hecb|Hne].
  - destruct (ecb_update_inv _ _ _ _ Hecb H)
      as (es & _ & _ & _ & Hex & _ & -> & Hrun).
    split.
    + intros output out_index Hfit.
      unfold cipher.update_at. rewrite Hecb. simpl cipher_bm.eqb. cbv iota.
      fold x. rewrite Hrun. simpl.
      rewrite (total_len_exact _ Hex), (stores_at_exact _ Hex) by exact Hfit.
      reflexivity.
    + intros output output_size Hfit.
      unfold cipher.update_noexcept. rewrite Hecb. simpl cipher_bm.eqb.
      cbv iota. rewrite Hrun.
      rewrite (total_len_exact _ Hex), (stores_at_exact _ Hex) by exact Hfit.
      reflexivity.
  - unfold cipher.update in H. cbv beta zeta in H.
    destruct (cipher_bm.bm_eqb_spec (cipher_impl.block_mode (self s))
                cipher_bm.ecb) as [|_]; [contradiction|].
    apply bind_inv in H. destruct H as (w & s1 & Hc & Hret).
    apply c_call_out_inv in Hc.
    assert (Hprim : cipher_update (ctx_ (self s)) x
                    = (0%Z, ctx_ (self s1), w)).
    { unfold mbedtls_cipher_update in Hc.
      destruct (cipher_update (ctx_ (self s)) x) as [[r c] w0].
      injection Hc as -> -> <-. reflexivity. }
    pose proof (update_stores_reported _ _ _ _ Hprim) as R.
    pose proof (update_length _ _ _ _ _ Hprim R) as Hbound.
    unfold ret in Hret. injection Hret as <- <-.
    unfold olen_after, cipher_impl.block_size. rewrite R.
    rewrite resize_store_exact by lia.
    split.
    + intros output out_index Hfit.
      unfold cipher.update_at.
      destruct (cipher_bm.bm_eqb_spec (cipher_impl.block_mode (self s))
                  cipher_bm.ecb) as [|_]; [contradiction|].
      fold x. rewrite Hc. simpl. unfold olen_after. rewrite R.
      now rewrite store_exact by exact Hfit.
    + intros output output_size Hfit.
      unfold cipher.update_noexcept.
      destruct (cipher_bm.bm_eqb_spec (cipher_impl.block_mode (self s))
                  cipher_bm.ecb) as [|_]; [contradiction|].
      rewrite (bind_ok _ _ _ _ _ Hc). unfold ret. simpl.
      unfold olen_after. rewrite R.
      now rewrite store_exact by exact Hfit.
Qed.

(** X9: for a primitive whose [finish] stores exactly the bytes it
    reports, within the documented bound ([streams_as_reported]), the
    three overloads of [finish] do the same work: when [finish()]
    returns [out], the in-place overload returns [length out] with [out]
    stored at [out_index] and nothing else touched, and the noexcept
    overload returns the code 0 with [output_size] set to [length out].
    (A [finish] that stores a whole block and reports less leaves the
    rest of the block in the caller's buffer: the condition is
    needed.) *)
Theorem finish_overloads_agree s out s' :
  cipher.finish s = (Ok out, s') ->
  (forall output out_index,
     out_index + length out <= length output ->
     cipher.finish_at output out_index s =
       (Ok (length out),
        firstn out_index output ++ out ++
          skipn (out_index + length out) output, s')) /\
  (forall output output_size,
     length out <= length output ->
     cipher.finish_noexcept (L := L) output output_size s =
       (Ok (0%Z, out ++ skipn (length out) output, length out), s')).
Proof.
  intros H. pose proof streams_lengths as HL.
  unfold cipher.finish in H. cbv beta zeta in H.
  apply bind_inv in H. destruct H as (w & s1 & Hc & Hret).
  apply c_call_out_inv in Hc.
  assert (Hprim : cipher_finish (ctx_ (self s)) = (0%Z, ctx_ (self s1), w)).
  { unfold mbedtls_cipher_finish in Hc.
    destruct (cipher_finish (ctx_ (self s))) as [[r c] w0].
    injection Hc as -> -> <-. reflexivity. }
  pose proof (finish_stores_reported _ _ _ Hprim) as R.
  pose proof (finish_length _ _ _ _ Hprim R) as Hbound.
  unfold ret in Hret. injection Hret as <- <-.
  unfold olen_after, cipher_impl.block_size. rewrite R.
  rewrite resize_store_exact by lia.
  split.
  - intros output out_index Hfit.
    unfold cipher.finish_at. rewrite Hc. simpl. unfold olen_after. rewrite R.
    now rewrite store_exact by exact Hfit.
  - intros output output_size Hfit.
    unfold cipher.finish_noexcept.
    rewrite (bind_ok _ _ _ _ _ Hc). unfold ret. simpl.
    unfold olen_after. rewrite R.
    now rewrite store_exact by exact Hfit.
Qed.

End OverloadsAgree.

(** ** Authenticated encryption and decryption *)

Section AeadRoundTrip.
Context {L : mbedtls} {V : conversions L} {B : buffers L}
        {HA : aead_inverts V}.

(** The local object of the AEAD entry points after [setup] and [key],
    in terms of the two primitive calls. *)
Lemma keyed_iff type key m j s :
  keyed type key m j s <->
  exists i c1 c,
    cipher_impl.native_info type = Ok i /\
    cipher_setup cipher_init i = (0%Z, c1) /\
    cipher_setkey c1 key (Nat.shiftl (length key) 3) (operation_of m)
      = (0%Z, c) /\
    s = {| self := {| ctx_ := c; iv_data_ := [] |};
           calls := j ++ [call_setup i 0;
                          call_setkey key (Nat.shiftl (length key) 3)
                            (operation_of m) 0] |}.
Proof.
  unfold keyed. set (s0 := {| self := cipher_impl.new; calls := j |}).
  split.
  - intros H. apply bind_inv in H. destruct H as ([] & s1 & Hs & Hk).
    destruct (native_info_cases type) as [[i Hi]|Hu].
    2:{ rewrite (setup_unknown _ _ Hu) in Hs. discriminate. }
    destruct (cipher_setup (ctx_ (self s0)) i) as [r1 c1] eqn:E1.
    rewrite (setup_run _ _ _ _ _ Hi E1) in Hs.
    destruct (r1 =? 0)%Z eqn:Er1; [|discriminate].
    apply Z.eqb_eq in Er1. subst r1. injection Hs as <-.
    destruct (cipher_setkey c1 key (Nat.shiftl (length key) 3)
                (operation_of m)) as [r2 c] eqn:E2.
    erewrite key_run in Hk by (simpl; exact E2).
    destruct (r2 =? 0)%Z eqn:Er2; [|discriminate].
    apply Z.eqb_eq in Er2. subst r2. injection Hk as <-.
    exists i, c1, c. repeat split; auto.
    unfold after. simpl. now rewrite <- app_assoc.
  - intros (i & c1 & c & Hi & E1 & E2 & ->).
    erewrite bind_ok by (erewrite setup_run by (try exact Hi; exact E1);
                         reflexivity).
    erewrite key_run by (simpl; exact E2).
    unfold after. simpl. now rewrite <- app_assoc.
Qed.

(** X10: [decrypt_aead] undoes [encrypt_aead].  When [encrypt_aead]
    returns a tag and a ciphertext, the tag has 16 bytes, the ciphertext
    is as long as the input, and [decrypt_aead] of that ciphertext with
    that tag under the same type, IV, key and additional data returns
    [true] and the input.  (For a primitive whose authenticated
    decryption undoes its authenticated encryption.) *)
Theorem decrypt_aead_after_encrypt_aead type iv key ad input j tag ct j' :
  cipher.encrypt_aead type iv key ad input j = (Ok (tag, ct), j') ->
  length tag = 16 /\ length ct = length input /\
  forall j2, exists j2',
    cipher.decrypt_aead type iv key ad tag ct j2 = (Ok (true, input), j2').
Proof.
  unfold cipher.encrypt_aead, cipher.decrypt_aead.
  destruct MBEDTLS_CIPHER_MODE_AEAD; [|discriminate].
  cbv zeta. intros H.
  destruct (bind _ _ _) as [[res|e] s'] eqn:Hr in H; [|discriminate].
  simpl in H. injection H as -> <-.
  rewrite <- bind_assoc in Hr.
  apply bind_inv in Hr. destruct Hr as ([] & s & Hkeyed & Hrest).
  apply keyed_iff in Hkeyed.
  destruct Hkeyed as (i & c1 & cE & Hi & E1 & E2 & ->).
  apply bind_inv in Hrest. destruct Hrest as ([w t] & s1 & Hc & Hret).
  apply c_call_out_inv in Hc. unfold mbedtls_cipher_auth_encrypt in Hc.
  cbn [ctx_ self] in Hc.
  destruct (cipher_auth_encrypt cE iv ad input 16)
    as [[[r cE'] w0] t0] eqn:Hprim.
  injection Hc as -> -> -> <-.
  unfold ret in Hret. cbn [fst snd] in Hret. injection Hret as <- <- _.
  destruct (aead_encrypt_exact _ _ _ _ _ _ _ _ Hprim) as (R & Hlen & Ht).
  destruct (aead_key_both_ways _ _ _ _ E2) as (cD & E2').
  destruct (aead_decrypt_inverts _ _ _ _ _ _ _ _ _ _ _ _ E2 E2' Hprim)
    as (cD' & w' & Hdec & Hst & Hol).
  assert (Htag : store (zeros 16) 0 t = t).
  { rewrite store_front by (rewrite length_zeros; lia).
    rewrite skipn_all2 by (rewrite length_zeros; lia). apply app_nil_r. }
  assert (Hct : resize
                  (olen_after
                     (length input + cipher_impl.block_size
                        {| ctx_ := cE; iv_data_ := [] |}) w)
                  (store (zeros (length input + cipher_impl.block_size
                                   {| ctx_ := cE; iv_data_ := [] |}))
                     0 (stored w))
                = stored w).
  { unfold olen_after. rewrite R. apply resize_store_exact. lia. }
  cbn [self] . rewrite Htag, Hct.
  split; [exact Ht|]. split; [exact Hlen|].
  intros j2.
  assert (Hk : keyed type key decrypt_mode j2
                 {| self := {| ctx_ := cD; iv_data_ := [] |};
                    calls := j2 ++ [call_setup i 0;
                                    call_setkey key
                                      (Nat.shiftl (length key) 3)
                                      (operation_of decrypt_mode) 0] |}).
  { apply keyed_iff. exists i, c1, cD. repeat split; auto. }
  unfold keyed in Hk. rewrite <- bind_assoc.
  rewrite (bind_ok _ _ _ _ _ Hk).
  unfold bind, mbedtls_cipher_auth_decrypt. cbn [ctx_ self].
  rewrite Hdec. cbn [fst snd].
  unfold MBEDTLS_ERR_CIPHER_AUTH_FAILED.
  change (0 =? -25344)%Z with false. change (0 =? 0)%Z with true.
  cbv iota beta. unfold ret, olen_after. cbn [fst snd]. rewrite Hol.
  subst input. rewrite resize_store_exact by lia.
  eexists. reflexivity.
Qed.

End AeadRoundTrip.

(** ** The GCM tag *)

Lemma skipn_zeros k n : skipn k (zeros n) = zeros (n - k).
Proof.
  revert k. induction n as [|n IH]; intros [|k]; simpl; auto.
Qed.

Section GcmTag.
Context {L : mbedtls} {G : mbedtls_gcm L}.

(** X11: the buffer [gcm_encryption_tag(length)] returns has exactly
    [length] bytes, whatever the primitive stored: it is allocated with
    that size and never resized.  It is returned only when
    [mbedtls_cipher_write_tag] returned zero, and is then what the
    primitive stored, cut at [length] bytes, and followed by zero bytes
    when it stored fewer; the remembered IV is left alone. *)
Theorem gcm_encryption_tag_length n s tag s' :
  gcm_encryption_tag n s = (Ok tag, s') ->
  length tag = n /\
  iv_data_ (self s') = iv_data_ (self s) /\
  exists t,
    cipher_write_tag (ctx_ (self s)) n = (0%Z, ctx_ (self s'), t) /\
    tag = firstn n t ++ zeros (n - length t).
Proof.
  unfold gcm_encryption_tag.
  destruct MBEDTLS_GCM_C; [|discriminate].
  intros H. apply bind_inv in H. destruct H as (t & s1 & Hc & Hret).
  apply c_call_out_inv in Hc. unfold mbedtls_cipher_write_tag in Hc.
  destruct (cipher_write_tag (ctx_ (self s)) n) as [[r c] t0] eqn:Hprim.
  injection Hc as -> <- <-. unfold ret in Hret. injection Hret as <- <-.
  split; [now rewrite length_store, length_zeros|].
  split; [reflexivity|]. exists t0. split; [reflexivity|].
  unfold store. simpl. rewrite length_zeros, Nat.sub_0_r. f_equal.
  apply skipn_zeros.
Qed.

(** X12: [gcm_check_decryption_tag(tag)] has three outcomes, chosen by
    the code of [mbedtls_cipher_check_tag] alone: [true] for 0, [false]
    for [MBEDTLS_ERR_CIPHER_AUTH_FAILED], and for every other code an
    exception that carries it.  A tag that fails authentication is
    therefore reported by the return value, never by an exception.  In
    a build without GCM the primitive is not reached: the call throws
    [gcm_error] and leaves the object as it was. *)
Theorem gcm_check_decryption_tag_outcomes tag s :
  (MBEDTLS_GCM_C = false ->
   gcm_check_decryption_tag tag s = (Throw gcm_error, s)) /\
  (MBEDTLS_GCM_C = true ->
   forall r c,
     cipher_check_tag (ctx_ (self s)) tag = (r, c) ->
     exists res,
       gcm_check_decryption_tag tag s = (res, with_ctx s c) /\
       (res = Ok true <-> r = 0%Z) /\
       (res = Ok false <-> r = MBEDTLS_ERR_CIPHER_AUTH_FAILED) /\
       (r <> 0%Z -> r <> MBEDTLS_ERR_CIPHER_AUTH_FAILED ->
        res = Throw (exception r "gcm_check_decryption_tag"))).
Proof.
  unfold gcm_check_decryption_tag. split; intros Hg; rewrite Hg.
  - reflexivity.
  - intros r c Hprim. unfold bind, mbedtls_cipher_check_tag.
    rewrite Hprim. unfold ret, throw.
    destruct (Z.eqb_spec r 0) as [->|H0].
    + eexists. split; [reflexivity|]. 
      unfold MBEDTLS_ERR_CIPHER_AUTH_FAILED.
      repeat split; intros; try reflexivity; try discriminate; congruence.
    + destruct (Z.eqb_spec r MBEDTLS_ERR_CIPHER_AUTH_FAILED) as [->|H1].
      * eexists. split; [reflexivity|].
        repeat split; intros; try reflexivity; try discriminate; congruence.
      * eexists. split; [reflexivity|].
        repeat split; intros; try reflexivity; try discriminate; congruence.
Qed.

End GcmTag.

(** ** The IV of the one-shot engine *)

Section OneShotIv.
Context {L : mbedtls} {V : conversions L} {B : buffers L}
        {HL : documented_lengths V}.



End OneShotIv.

(** ** What a one-shot call can throw *)

Section OneShotThrows.
Context {L : mbedtls} {V : conversions L} {B : buffers L}.

Lemma compute_loop_throws n e :
  forall pSrc pDes osize out s ex s',
    cipher.crypt_engine.compute_loop n e pSrc pDes osize out s
      = (Throw ex, s') ->
    exists r pre last,
      ex = exception r "mbedtls_cipher_crypt" /\ r <> 0%Z /\
      calls s' = calls s ++ pre ++ [last] /\ call_code last = r.
Proof.
  induction n as [|n IH]; intros pSrc pDes osize out s ex s' H; simpl in H.
  - discriminate.
  - unfold bind at 1 in H.
    destruct (cipher_crypt (ctx_ (self s))
                (crypt_iv (iv_data_ (self s)) (ctx_ (self s)))
                (view (cipher.crypt_engine.input_ e) pSrc
                   (cipher.crypt_engine.block_size_ e)))
      as [[r c] w] eqn:Hprim.
    rewrite (crypt_call_run _ _ _ _ _ Hprim) in H.
    destruct (r =? 0)%Z eqn:Er.
    + apply IH in H. destruct H as (r' & pre & last & -> & Hr & Hc & Hl).
      exists r', (call_crypt (crypt_iv (iv_data_ (self s)) (ctx_ (self s)))
                    (view (cipher.crypt_engine.input_ e) pSrc
                       (cipher.crypt_engine.block_size_ e)) r w :: pre),
        last.
      repeat split; auto. rewrite Hc. simpl. now rewrite <- app_assoc.
    + apply Z.eqb_neq in Er. injection H as <- <-.
      exists r, [], (call_crypt (crypt_iv (iv_data_ (self s)) (ctx_ (self s)))
                       (view (cipher.crypt_engine.input_ e) pSrc
                          (cipher.crypt_engine.block_size_ e)) r w).
      repeat split; auto.
Qed.

Lemma compute_throws e s ex s' :
  cipher.crypt_engine.compute e s = (Throw ex, s') ->
  exists r pre last,
    ex = exception r "mbedtls_cipher_crypt" /\ r <> 0%Z /\
    calls s' = calls s ++ pre ++ [last] /\ call_code last = r.
Proof.
  unfold cipher.crypt_engine.compute.
  destruct (cipher.crypt_engine.chunks_ e =? 1); intros H.
  - unfold bind in H.
    destruct (cipher_crypt (ctx_ (self s))
                (crypt_iv (iv_data_ (self s)) (ctx_ (self s)))
                (view (cipher.crypt_engine.input_ e) 0
                   (cipher.crypt_engine.input_size_ e)))
      as [[r c] w] eqn:Hprim.
    rewrite (crypt_call_run _ _ _ _ _ Hprim) in H.
    destruct (r =? 0)%Z eqn:Er; [discriminate|].
    apply Z.eqb_neq in Er. injection H as <- <-.
    exists r, [], (call_crypt (crypt_iv (iv_data_ (self s)) (ctx_ (self s)))
                     (view (cipher.crypt_engine.input_ e) 0
                        (cipher.crypt_engine.input_size_ e)) r w).
    repeat split; auto.
  - unfold bind in H.
    destruct (cipher.crypt_engine.compute_loop _ _ _ _ _ _ s)
      as [[[k o]|ex0] s1] eqn:Hloop; [discriminate|].
    injection H as <- <-. exact (compute_loop_throws _ _ _ _ _ _ _ _ _ Hloop).
Qed.

(** The ways the engine's [run] throws. *)
Lemma run_throws type pad iv key m input j e j' :
  cipher.crypt_engine.run type pad iv key m input j = (Throw e, j') ->
  (e = unknown_cipher /\ j' = j) \/
  (e = usage_error ecb_usage_message /\
   exists evs, j' = j ++ evs /\ forallb is_config evs = true /\
               Forall (fun c => call_code c = 0%Z) evs) \/
  (exists r tag pre last,
     e = exception r tag /\ r <> 0%Z /\
     j' = j ++ pre ++ [last] /\ call_code last = r).
Proof.
  intros H.
  destruct (native_info_cases type) as [[i Hi]|Hu].
  2:{ rewrite <- (one_shot_run m) in H.
      rewrite (one_shot_unknown (V := V)) in H by exact Hu.
      injection H as <- <-. now left. }
  right. unfold cipher.crypt_engine.run in H.
  set (s0 := {| self := cipher_impl.new; calls := j |}) in H.
  destruct (config_chain_journal type pad iv key m i s0 Hi)
    as (o & s1 & evs & Hcfg & Hcalls & Hconf & Ho).
  simpl in Hcalls.
  destruct o as [[]|ec].
  - destruct (engine_of (from_native (info_mode i)) (info_block_size i) input)
      as [en|ee] eqn:Heng.
    + assert (Hmake : cipher.crypt_engine.make type pad iv key m input s0
                      = (Ok en, s1)).
      { rewrite (make_eq _ _ _ _ _ _ _ _ Hi).
        rewrite (bind_ok _ _ _ _ _ Hcfg). unfold lift. now rewrite Heng. }
      rewrite (bind_ok _ _ _ _ _ Hmake) in H.
      destruct (cipher.crypt_engine.compute en s1) as [[o|ex] s2] eqn:Hc;
        simpl in H; [discriminate|].
      injection H as <- <-.
      destruct (compute_throws _ _ _ _ Hc)
        as (r & pre & last & -> & Hr & Hc2 & Hl).
      right. exists r, "mbedtls_cipher_crypt", (evs ++ pre), last.
      repeat split; auto. rewrite Hc2, Hcalls.
      now rewrite <- !app_assoc.
    + assert (Hmake : cipher.crypt_engine.make type pad iv key m input s0
                      = (Throw ee, s1)).
      { rewrite (make_eq _ _ _ _ _ _ _ _ Hi).
        rewrite (bind_ok _ _ _ _ _ Hcfg). unfold lift. now rewrite Heng. }
      rewrite (bind_throw _ _ _ _ _ Hmake) in H. simpl in H.
      injection H as <- <-. left.
      unfold engine_of in Heng.
      destruct (cipher_bm.eqb _ _); [|discriminate].
      destruct (_ || _); [|discriminate].
      injection Heng as <-. split; [reflexivity|].
      exists evs. repeat split; auto.
  - assert (Hmake : cipher.crypt_engine.make type pad iv key m input s0
                    = (Throw ec, s1)).
    { rewrite (make_eq _ _ _ _ _ _ _ _ Hi).
      now rewrite (bind_throw _ _ _ _ _ Hcfg). }
    rewrite (bind_throw _ _ _ _ _ Hmake) in H. simpl in H.
    injection H as <- <-.
    destruct Ho as (r & tag & pre & last & -> & Hr & -> & Hl).
    right. exists r, tag, pre, last. repeat split; auto.
Qed.

(** X14: a one-shot [encrypt] or [decrypt] that fails throws one of
    three things.  [unknown_cipher], having made no call at all; the
    usage error of the ECB length check, after a configuration whose
    calls all returned zero and before any data reached the primitive;
    or an [exception] whose code is not zero and is the code returned by
    the last primitive call made: the engine makes no call after one
    that failed.  It never throws the AEAD or GCM errors. *)
Theorem one_shot_throws m type pad iv key input j e j' :
  one_shot m type pad iv key input j = (Throw e, j') ->
  (e = unknown_cipher /\ j' = j) \/
  (e = usage_error ecb_usage_message /\
   exists evs, j' = j ++ evs /\ forallb is_config evs = true /\
               Forall (fun c => call_code c = 0%Z) evs) \/
  (exists r tag pre last,
     e = exception r tag /\ r <> 0%Z /\
     j' = j ++ pre ++ [last] /\ call_code last = r).
Proof.
  intros H. rewrite one_shot_run in H.
  destruct (run_throws _ _ _ _ _ _ _ _ _ H) as [Hu|[Hl|He]].
  - left. exact Hu.
  - right. left. exact Hl.
  - right. right. exact He.
Qed.

End OneShotThrows.

(** ** AEAD support *)

Section AeadSupport.
Context {L : mbedtls} {V : conversions L} {B : buffers L}.

(** After [setup] and [key], a continuation that throws no [aead_error]
    makes a whole that throws none. *)
Lemma keyed_then_no_aead_error {A} type key m (k : M A) j :
  (forall s, fst (k s) <> Throw aead_error) ->
  fst ((cipher_impl.setup type ;;; cipher_impl.key key m ;;; k)
         {| self := cipher_impl.new; calls := j |}) <> Throw aead_error.
Proof.
  intros Hk. set (s0 := {| self := cipher_impl.new; calls := j |}).
  destruct (native_info_cases type) as [[i Hi]|Hu].
  2:{ rewrite (bind_throw _ _ _ _ _ (setup_unknown _ _ Hu)). discriminate. }
  destruct (cipher_setup (ctx_ (self s0)) i) as [r1 c1] eqn:E1.
  pose proof (setup_run _ _ _ _ _ Hi E1) as R1.
  destruct (r1 =? 0)%Z eqn:Er1.
  2:{ rewrite (bind_throw _ _ _ _ _ R1). discriminate. }
  apply Z.eqb_eq in Er1. subst r1.
  rewrite (bind_ok _ _ _ _ _ R1).
  destruct (cipher_setkey c1 key (Nat.shiftl (length key) 3) (operation_of m))
    as [r2 c2] eqn:E2.
  assert (R2 : cipher_impl.key key m
                 (after s0 c1 (call_setup i 0%Z)) = _)
    by (apply key_run; simpl; exact E2).
  destruct (r2 =? 0)%Z.
  2:{ rewrite (bind_throw _ _ _ _ _ R2). discriminate. }
  rewrite (bind_ok _ _ _ _ _ R2). apply Hk.
Qed.

(** X15: [supports_aead()] tells exactly when the AEAD entry points
    throw [aead_error]: when it is [false] they throw it without making
    a call, and when it is [true] they never throw it, whatever the
    type, the key and the primitive's answers. *)
Theorem aead_error_iff_unsupported type iv key ad tag input j :
  (fst (cipher.encrypt_aead type iv key ad input j) = Throw aead_error
   <-> cipher.supports_aead = false) /\
  (fst (cipher.decrypt_aead type iv key ad tag input j) = Throw aead_error
   <-> cipher.supports_aead = false) /\
  (cipher.supports_aead = false ->
   snd (cipher.encrypt_aead type iv key ad input j) = j /\
   snd (cipher.decrypt_aead type iv key ad tag input j) = j).
Proof.
  unfold cipher.supports_aead, cipher.encrypt_aead, cipher.decrypt_aead.
  destruct MBEDTLS_CIPHER_MODE_AEAD.
  - cbv zeta. simpl fst.
    split; [|split; [|discriminate]]; (split; [|discriminate]); intros H;
      exfalso; revert H; apply keyed_then_no_aead_error; intros s.
    + unfold c_call_out, bind, mbedtls_cipher_auth_encrypt.
      destruct (cipher_auth_encrypt _ _ _ _ _) as [[[r c] w] t]. simpl.
      destruct (r =? 0)%Z; discriminate.
    + unfold bind, mbedtls_cipher_auth_decrypt.
      destruct (cipher_auth_decrypt _ _ _ _ _) as [[r c] w]. simpl.
      destruct (r =? MBEDTLS_ERR_CIPHER_AUTH_FAILED)%Z; [discriminate|].
      destruct (r =? 0)%Z; discriminate.
  - simpl. repeat split; auto.
Qed.

End AeadSupport.

(** ** Failures, operation by operation *)

Section AllFailures.
Context {L : mbedtls} {V : conversions L} {B : buffers L}.

(** C5 (as amended): every operation that returns its buffer by value
    returns it only when the call succeeded; a failure is thrown and
    the exception carries the code and no bytes.  So for
    [update(input)] (in ECB mode the driver's non-zero code, in the
    other modes the primitive's), [finish()], the one-shot [encrypt]
    and [decrypt] (which throw [unknown_cipher], the ECB usage error or
    the non-zero code of the last call made), [crypt(input)],
    [encrypt_aead], [decrypt_aead] for every code but the tag check's,
    and [gcm_encryption_tag].  The overloads that write into memory of
    the caller do not undo what was written: the raw-pointer [update]
    reports a mid-stream ECB failure by its code and leaves
    [output_size] as it was, while the caller's memory holds what the
    primitive stored for the blocks fed, one after the other; the
    in-place [update] and [finish] throw, and the noexcept [update]
    (outside ECB mode) and [finish] return the code, with what the
    failing call stored left in the caller's buffer. *)
Theorem failure_returns_no_buffer :
  (forall input output output_size s r out' n s',
     cipher_impl.block_mode (self s) = cipher_bm.ecb ->
     cipher.update_noexcept input output output_size s
       = (Ok (r, out', n), s') ->
     r <> 0%Z ->
     cipher.update input s = (Throw (exception r "update"), s') /\
     n = output_size /\
     exists es, calls s' = calls s ++ map fed_call es /\
                out' = stores_at output 0 es) /\
  (forall input s r c w,
     cipher_impl.block_mode (self s) <> cipher_bm.ecb ->
     cipher_update (ctx_ (self s)) input = (r, c, w) ->
     r <> 0%Z ->
     cipher.update input s =
       (Throw (exception r "mbedtls_cipher_update"),
        after s c (call_update input r w))) /\
  (forall s r c w,
     cipher_finish (ctx_ (self s)) = (r, c, w) ->
     r <> 0%Z ->
     cipher.finish s =
       (Throw (exception r "mbedtls_cipher_finish"),
        after s c (call_finish r w))) /\
  (forall m type pad iv key input j out j',
     one_shot m type pad iv key input j = (Ok out, j') ->
     exists evs, j' = j ++ evs /\ Forall (fun c => call_code c = 0%Z) evs) /\
  (* a one-shot call that fails *)
  (forall m type pad iv key input j e j',
     one_shot m type pad iv key input j = (Throw e, j') ->
     (e = unknown_cipher /\ j' = j) \/
     (e = usage_error ecb_usage_message /\
      exists evs, j' = j ++ evs /\ forallb is_config evs = true /\
                  Forall (fun c => call_code c = 0%Z) evs) \/
     (exists r tag pre last,
        e = exception r tag /\ r <> 0%Z /\
        j' = j ++ pre ++ [last] /\ call_code last = r)) /\
  (* [crypt(input)]: a failure of [start], of the update, of the finish *)
  (forall input s e s0,
     cipher.start s = (Throw e, s0) ->
     cipher.crypt input s = (Throw e, s0)) /\
  (forall input s s0 r c w,
     cipher.start s = (Ok tt, s0) ->
     cipher_update (ctx_ (self s0)) input = (r, c, w) ->
     r <> 0%Z ->
     cipher.crypt input s =
       (Throw (exception r "mbedtls_cipher_update"),
        after s0 c (call_update input r w))) /\
  (forall input s s0 c w r c2 w2,
     cipher.start s = (Ok tt, s0) ->
     cipher_update (ctx_ (self s0)) input = (0%Z, c, w) ->
     cipher_finish c = (r, c2, w2) ->
     r <> 0%Z ->
     cipher.crypt input s =
       (Throw (exception r "mbedtls_cipher_finish"),
        after (after s0 c (call_update input 0 w)) c2 (call_finish r w2))) /\
  (* [encrypt_aead], and [decrypt_aead] for the codes it throws *)
  (forall type iv key ad input j s r c w t,
     MBEDTLS_CIPHER_MODE_AEAD = true ->
     keyed type key encrypt_mode j s ->
     cipher_auth_encrypt (ctx_ (self s)) iv ad input 16 = (r, c, w, t) ->
     r <> 0%Z ->
     cipher.encrypt_aead type iv key ad input j =
       (Throw (exception r "mbedtls_cipher_auth_encrypt"),
        calls s ++ [call_auth_encrypt iv ad input 16 r w t])) /\
  (forall type iv key ad tag input j s r c w,
     MBEDTLS_CIPHER_MODE_AEAD = true ->
     keyed type key decrypt_mode j s ->
     cipher_auth_decrypt (ctx_ (self s)) iv ad input tag = (r, c, w) ->
     r <> 0%Z -> r <> MBEDTLS_ERR_CIPHER_AUTH_FAILED ->
     cipher.decrypt_aead type iv key ad tag input j =
       (Throw (exception r "decrypt_aead"),
        calls s ++ [call_auth_decrypt iv ad input tag r w])) /\
  (* [gcm_encryption_tag] *)
  (forall (G : mbedtls_gcm L) n s r c t,
     MBEDTLS_GCM_C = true ->
     cipher_write_tag (ctx_ (self s)) n = (r, c, t) ->
     r <> 0%Z ->
     gcm_encryption_tag n s =
       (Throw (exception r "mbedtls_cipher_write_tag"), with_ctx s c)) /\
  (* the in-place [update]: what was stored stays in [output] *)
  (forall input in_index count output out_index s r c w,
     cipher_impl.block_mode (self s) <> cipher_bm.ecb ->
     cipher_update (ctx_ (self s)) (view input in_index count) = (r, c, w) ->
     r <> 0%Z ->
     cipher.update_at input in_index count output out_index s =
       (Throw (exception r "mbedtls_cipher_update"),
        store output out_index (stored w),
        after s c (call_update (view input in_index count) r w))) /\
  (forall input in_index count output out_index s e out' s',
     cipher_impl.block_mode (self s) = cipher_bm.ecb ->
     cipher.update_at input in_index count output out_index s
       = (Throw e, out', s') ->
     exists r es,
       e = exception r "update" /\ r <> 0%Z /\
       calls s' = calls s ++ map fed_call es /\
       out' = stores_at output out_index es) /\
  (* the in-place [finish] *)
  (forall output out_index s r c w,
     cipher_finish (ctx_ (self s)) = (r, c, w) ->
     r <> 0%Z ->
     cipher.finish_at output out_index s =
       (Throw (exception r "mbedtls_cipher_finish"),
        store output out_index (stored w),
        after s c (call_finish r w))) /\
  (* the noexcept [update] outside ECB mode, and the noexcept [finish] *)
  (forall input output output_size s r c w,
     cipher_impl.block_mode (self s) <> cipher_bm.ecb ->
     cipher_update (ctx_ (self s)) input = (r, c, w) ->
     cipher.update_noexcept input output output_size s =
       (Ok (r, store output 0 (stored w), olen_after output_size w),
        after s c (call_update input r w))) /\
  (forall output output_size s r c w,
     cipher_finish (ctx_ (self s)) = (r, c, w) ->
     cipher.finish_noexcept output output_size s =
       (Ok (r, store output 0 (stored w), olen_after output_size w),
        after s c (call_finish r w))).
Proof.
  repeat match goal with |- _ /\ _ => split end.
  - intros input output output_size s r out' n s' Hecb Hrun Hr.
    unfold cipher.update_noexcept in Hrun. rewrite Hecb in Hrun.
    simpl in Hrun.
    destruct (update_chunked_total input output 0 output_size s)
      as (es & r0 & out0 & n0 & s0 & Hrun0 & Hcalls & _ & Hout & Hfail & _).
    rewrite Hrun in Hrun0. injection Hrun0 as <- <- <- <-.
    split.
    + unfold cipher.update. rewrite Hecb. simpl cipher_bm.eqb. cbv iota.
      destruct (update_chunked_frame input output 0 output_size
                  (zeros (length input + cipher_impl.block_size (self s) + 32))
                  0 (length input + cipher_impl.block_size (self s) + 32)
                  s r out' n s' Hrun) as (x2 & k2 & Hrun2).
      rewrite (bind_ok _ _ _ _ _ Hrun2). simpl.
      apply Z.eqb_neq in Hr. now rewrite Hr.
    + split; [now apply Hfail|]. now exists es.
  - intros input s r c w Hne Hupd Hr.
    unfold cipher.update.
    destruct (cipher_bm.bm_eqb_spec (cipher_impl.block_mode (self s))
                cipher_bm.ecb) as [Hecb|_]; [contradiction|].
    unfold c_call_out, bind, mbedtls_cipher_update. rewrite Hupd. simpl.
    apply Z.eqb_neq in Hr. now rewrite Hr.
  - intros s r c w Hfin Hr.
    unfold cipher.finish, c_call_out, bind, mbedtls_cipher_finish.
    rewrite Hfin. simpl. apply Z.eqb_neq in Hr. now rewrite Hr.
  - exact one_shot_journal.
  - intros m type pad iv key input j e j' H. rewrite one_shot_run in H.
    exact (run_throws _ _ _ _ _ _ _ _ _ H).
  - intros input s e s0 H. unfold cipher.crypt.
    exact (bind_throw _ _ _ _ _ H).
  - intros input s s0 r c w Hstart Hupd Hr. unfold cipher.crypt.
    rewrite (bind_ok _ _ _ _ _ Hstart).
    unfold c_call_out, bind, mbedtls_cipher_update. rewrite Hupd. simpl.
    apply Z.eqb_neq in Hr. now rewrite Hr.
  - intros input s s0 c w r c2 w2 Hstart Hupd Hfin Hr. unfold cipher.crypt.
    rewrite (bind_ok _ _ _ _ _ Hstart).
    unfold c_call_out, bind, mbedtls_cipher_update, mbedtls_cipher_finish.
    rewrite Hupd. simpl. rewrite Hfin. simpl.
    apply Z.eqb_neq in Hr. now rewrite Hr.
  - intros type iv key ad input j s r c w t Haead Hkeyed Hprim Hr.
    unfold keyed in Hkeyed. unfold cipher.encrypt_aead. rewrite Haead.
    rewrite <- bind_assoc. rewrite (bind_ok _ _ _ _ _ Hkeyed).
    unfold c_call_out, bind, mbedtls_cipher_auth_encrypt.
    rewrite Hprim. simpl. apply Z.eqb_neq in Hr. now rewrite Hr.
  - intros type iv key ad tag input j s r c w Haead Hkeyed Hprim Hr Hra.
    unfold keyed in Hkeyed. unfold cipher.decrypt_aead. rewrite Haead.
    rewrite <- bind_assoc. rewrite (bind_ok _ _ _ _ _ Hkeyed).
    unfold bind, mbedtls_cipher_auth_decrypt. rewrite Hprim. simpl.
    apply Z.eqb_neq in Hr, Hra. now rewrite Hr, Hra.
  - intros G n s r c t Hg Hprim Hr. unfold gcm_encryption_tag. rewrite Hg.
    unfold c_call_out, bind, mbedtls_cipher_write_tag. rewrite Hprim. simpl.
    apply Z.eqb_neq in Hr. now rewrite Hr.
  - intros input in_index count output out_index s r c w Hne Hupd Hr.
    unfold cipher.update_at.
    destruct (cipher_bm.bm_eqb_spec (cipher_impl.block_mode (self s))
                cipher_bm.ecb) as [Hecb|_]; [contradiction|].
    unfold mbedtls_cipher_update. rewrite Hupd.
    apply Z.eqb_neq in Hr. now rewrite Hr.
  - intros input in_index count output out_index s e out' s' Hecb H.
    unfold cipher.update_at in H. rewrite Hecb in H.
    simpl cipher_bm.eqb in H. cbv iota in H.
    destruct (update_chunked_total (view input in_index count) output
                out_index 0 s)
      as (es & r0 & out0 & n0 & s0 & Hrun0 & Hcalls & _ & Hout & _).
    rewrite Hrun0 in H.
    destruct (r0 =? 0)%Z eqn:Er; simpl in H; [discriminate|].
    injection H as <- <- <-. apply Z.eqb_neq in Er.
    exists r0, es. repeat split; auto.
  - intros output out_index s r c w Hfin Hr.
    unfold cipher.finish_at, mbedtls_cipher_finish. rewrite Hfin.
    apply Z.eqb_neq in Hr. now rewrite Hr.
  - intros input output output_size s r c w Hne Hupd.
    unfold cipher.update_noexcept.
    destruct (cipher_bm.bm_eqb_spec (cipher_impl.block_mode (self s))
                cipher_bm.ecb) as [Hecb|_]; [contradiction|].
    unfold bind, mbedtls_cipher_update. rewrite Hupd. reflexivity.
  - intros output output_size s r c w Hfin.
    unfold cipher.finish_noexcept, bind, mbedtls_cipher_finish.
    rewrite Hfin. reflexivity.
Qed.

End AllFailures.

Section C5_witness.
#[local] Existing Instance in_place.
Import scripted sample.
Let TL : mbedtls := lib cipher_bm.ecb 2 second_block_fails.
Let TV : conversions TL := conv cipher_bm.ecb 2 second_block_fails.

Lemma failure_returns_no_buffer_witness :
  fst (cipher.update (V := TV) [xaa; xbb; xcc; xdd]
         (fresh cipher_bm.ecb 2 second_block_fails))
    = Throw (exception BAD_INPUT_DATA "update").
Proof.
  destruct (failure_returns_no_buffer (V := TV)) as (H & _).
  destruct (cipher.update_noexcept (V := TV) [xaa; xbb; xcc; xdd] (zeros 4) 7
              (fresh cipher_bm.ecb 2 second_block_fails))
    as [o s'] eqn:E.
  assert (Ho : o = Ok (BAD_INPUT_DATA, [x01; x02; x00; x00], 7)).
  { change o with (fst (o, s')). rewrite <- E. reflexivity. }
  subst o.
  destruct (H [xaa; xbb; xcc; xdd] (zeros 4) 7
              (fresh cipher_bm.ecb 2 second_block_fails)
              BAD_INPUT_DATA [x01; x02; x00; x00] 7 s'
              eq_refl E ltac:(discriminate)) as (Hthrow & _).
  now rewrite Hthrow.
Defined.

End C5_witness.

(** ** Further laws of the keystream cipher *)

Section KeystreamFurther.
#[local] Existing Instance in_place.
Import keystream.

Ltac crush_stream H :=
  unfold update in H; simpl in H;
  repeat match type of H with
  | context [match ?c with _ => _ end] => destruct c eqn:?; simpl in H
  end;
  try discriminate; injection H; intros; subst.

Lemma keystream_streams : streams_as_reported conv.
Proof.
  constructor; simpl.
  - exact keystream_lengths.
  - intros c x r c' w H. crush_stream H;
      unfold BAD_INPUT_DATA, MBEDTLS_ERR_CIPHER_FULL_BLOCK_EXPECTED; lia.
  - intros c x c' w H. crush_stream H; reflexivity.
  - intros c c' w H. injection H as _ <-. reflexivity.
  - intros c x c' w H. crush_stream H; unfold block_size_of; simpl;
      repeat match goal with E : c_info _ = _ |- _ => rewrite E end;
      reflexivity.
  - intros c i x c' w Hi He H. crush_stream H; simpl; apply length_mask.
Qed.

Lemma keystream_setkey_says c k n op c' :
  setkey c k n op = (0%Z, c') -> c_key c' = k.
Proof.
  unfold setkey. destruct (c_info c) as [i|];
    [|unfold BAD_INPUT_DATA; discriminate].
  destruct (n =? info_key_bitlen i);
    [|unfold BAD_INPUT_DATA; discriminate].
  intros H. injection H as <-. reflexivity.
Qed.

Lemma forallb_the_tag n : forallb (Byte.eqb x2a) (the_tag n) = true.
Proof. induction n as [|n IH]; simpl; [reflexivity|exact IH]. Qed.

Lemma keystream_aead : aead_inverts conv.
Proof.
  constructor; simpl.
  - intros c k n cE. unfold setkey.
    destruct (c_info c) as [i|]; [|unfold BAD_INPUT_DATA; discriminate].
    destruct (n =? info_key_bitlen i);
      [|unfold BAD_INPUT_DATA; discriminate].
    intros _. now eexists.
  - intros c iv ad x tl c' w t H. unfold auth_encrypt in H.
    injection H as _ <- <-. simpl. rewrite length_mask.
    repeat split. apply repeat_length.
  - intros c k n cE cD iv ad x tl cE' w t HE HD H.
    apply keystream_setkey_says in HE. apply keystream_setkey_says in HD.
    unfold auth_encrypt in H. injection H as _ <- <-.
    unfold auth_decrypt. rewrite forallb_the_tag. simpl.
    do 2 eexists. split; [reflexivity|]. simpl.
    rewrite HE, HD, mask_involutive. split; reflexivity.
Qed.

End KeystreamFurther.

(** ** Further evaluations on the keystream cipher *)

Section Further_evaluation.
#[local] Existing Instance in_place.
Import keystream keyed_sample.

Lemma unknown_cipher_everywhere_witness :
  cipher_info_from_type (@to_native lib conv xor_unknown) = None /\
  cipher.block_size (V := conv) xor_unknown = Throw unknown_cipher /\
  cipher.encrypt (V := conv) xor_unknown padding_t.none iv2 key2 [x68] []
    = (Throw unknown_cipher, []).
Proof.
  split; [reflexivity|].
  destruct (unknown_cipher_everywhere (V := conv) xor_unknown eq_refl)
    as ((H1 & _) & _ & H3 & _).
  split; [exact H1|].
  exact (H3 encrypt_mode padding_t.none iv2 key2 [x68] []).
Defined.

Lemma constructed_metadata_witness :
  documented_lengths conv /\
  cipher.block_size (V := conv) xor_stream
    = Ok (cipher_impl.block_size
            (self (snd (cipher.make (V := conv) xor_stream [])))) /\
  cipher.iv_size (V := conv) xor_stream = Ok 2.
Proof.
  split; [exact keystream_lengths|].
  destruct (constructed_metadata (HL := keystream_lengths) xor_stream []
              (snd (cipher.make (V := conv) xor_stream [])) eq_refl)
    as (i & _ & _ & _ & Hb & Hi & _).
  split; [exact Hb|]. reflexivity.
Defined.

Lemma crypt_makes_four_calls_witness :
  fst (cipher.crypt (L := lib) [x68; x69; x21] (ready xor_stream))
    = Ok [x02; x0e; x4b] /\
  exists w1 w2,
    calls (snd (cipher.crypt (L := lib) [x68; x69; x21] (ready xor_stream)))
    = calls (ready xor_stream) ++
      [call_set_iv iv2 0; call_reset 0;
       call_update [x68; x69; x21] 0 w1; call_finish 0 w2].
Proof.
  split; [reflexivity|].
  destruct (crypt_makes_four_calls (B := in_place lib) [x68; x69; x21]
              (ready xor_stream) [x02; x0e; x4b]
              (snd (cipher.crypt (L := lib) [x68; x69; x21]
                      (ready xor_stream))) eq_refl)
    as (_ & _ & w1 & w2 & H & _).
  now exists w1, w2.
Defined.

Lemma crypt_is_streamed_message_witness :
  streams_as_reported conv /\
  exists o f,
    message (V := conv) [[x68; x69; x21]] (ready xor_stream)
    = (Ok ([o], f),
       snd (cipher.crypt (L := lib) [x68; x69; x21] (ready xor_stream))) /\
    [x02; x0e; x4b] = o ++ f.
Proof.
  split; [exact keystream_streams|].
  apply (crypt_is_streamed_message (HS := keystream_streams)
           [x68; x69; x21] (ready xor_stream)
           (snd (cipher.start (L := lib) (ready xor_stream)))).
  - reflexivity.
  - vm_compute. discriminate.
  - vm_compute. lia.
  - reflexivity.
Defined.

Lemma crypt_is_repeatable_witness :
  restartable conv session eq /\
  exists s2,
    cipher.crypt (L := lib) [x68; x69; x21]
      (snd (cipher.crypt (L := lib) [x68; x69; x21] (ready xor_stream)))
    = (Ok [x02; x0e; x4b], s2).
Proof.
  split; [exact keystream_restarts|].
  destruct (crypt_is_repeatable (HR := keystream_restarts)
              [x68; x69; x21] (ready xor_stream) [x02; x0e; x4b]
              (snd (cipher.crypt (L := lib) [x68; x69; x21]
                      (ready xor_stream)))
              (in_place_readable lib iv2) eq_refl)
    as (H & _).
  exact H.
Defined.

Lemma ecb_update_is_block_by_block_witness :
  streams_as_reported conv /\
  cipher_impl.block_mode (V := conv) (self (ready xor_ecb)) = cipher_bm.ecb /\
  fst (cipher.update (V := conv) [x68; x69; x21; x3f] (ready xor_ecb))
    = Ok [x02; x0e; x4b; x58] /\
  length [x02; x0e; x4b; x58] = length [x68; x69; x21; x3f].
Proof.
  split; [exact keystream_streams|]. split; [reflexivity|].
  split; [reflexivity|].
  destruct (ecb_update_is_block_by_block (HS := keystream_streams)
              [x68; x69; x21; x3f] (ready xor_ecb) [x02; x0e; x4b; x58]
              (snd (cipher.update (V := conv) [x68; x69; x21; x3f]
                      (ready xor_ecb))) eq_refl eq_refl)
    as (H & _).
  exact H.
Defined.

Lemma update_overloads_agree_witness :
  streams_as_reported conv /\
  fst (cipher.update (V := conv) (view [x68; x69; x21] 1 2)
         (ready xor_stream)) = Ok [x03; x46] /\
  fst (cipher.update_at (V := conv) [x68; x69; x21] 1 2 (zeros 5) 2
         (ready xor_stream))
    = (Ok 2, [x00; x00; x03; x46; x00]).
Proof.
  split; [exact keystream_streams|]. split; [reflexivity|].
  destruct (update_overloads_agree (HS := keystream_streams)
              [x68; x69; x21] 1 2 (ready xor_stream) [x03; x46]
              (snd (cipher.update (V := conv) (view [x68; x69; x21] 1 2)
                      (ready xor_stream))) eq_refl)
    as (H & _).
  rewrite (H (zeros 5) 2); [reflexivity|simpl; lia].
Defined.

Lemma finish_overloads_agree_witness :
  streams_as_reported conv /\
  fst (cipher.finish_noexcept (L := lib) (zeros 3) 7 (ready xor_stream))
    = Ok (0%Z, zeros 3, 0).
Proof.
  split; [exact keystream_streams|].
  destruct (finish_overloads_agree (HS := keystream_streams)
              (ready xor_stream) []
              (snd (cipher.finish (L := lib) (ready xor_stream))) eq_refl)
    as (_ & H).
  rewrite (H (zeros 3) 7); [reflexivity|simpl; lia].
Defined.

Lemma decrypt_aead_after_encrypt_aead_witness :
  aead_inverts conv /\
  fst (cipher.encrypt_aead (V := conv) xor_stream iv2 key2 [x61]
         [x68; x69; x21] [])
    = Ok (repeat x2a 16, [x02; x0e; x4b]) /\
  exists j2',
    cipher.decrypt_aead (V := conv) xor_stream iv2 key2 [x61]
      (repeat x2a 16) [x02; x0e; x4b] []
    = (Ok (true, [x68; x69; x21]), j2').
Proof.
  split; [exact keystream_aead|]. split; [reflexivity|].
  destruct (decrypt_aead_after_encrypt_aead (HA := keystream_aead)
              xor_stream iv2 key2 [x61] [x68; x69; x21] []
              (repeat x2a 16) [x02; x0e; x4b]
              (snd (cipher.encrypt_aead (V := conv) xor_stream iv2 key2
                      [x61] [x68; x69; x21] [])) eq_refl)
    as (_ & _ & H).
  exact (H []).
Defined.

Lemma gcm_encryption_tag_length_witness :
  fst (gcm_encryption_tag (G := keystream_gcm) 4 (ready xor_stream))
    = Ok [x2a; x2a; x2a; x2a] /\
  length [x2a; x2a; x2a; x2a] = 4.
Proof.
  split; [reflexivity|].
  destruct (gcm_encryption_tag_length (G := keystream_gcm) 4
              (ready xor_stream) [x2a; x2a; x2a; x2a]
              (snd (gcm_encryption_tag (G := keystream_gcm) 4
                      (ready xor_stream))) eq_refl)
    as (H & _).
  exact H.
Defined.

Lemma gcm_check_decryption_tag_outcomes_witness :
  gcm_check_decryption_tag (G := without_gcm lib) [x2a] (ready xor_stream)
    = (Throw gcm_error, ready xor_stream) /\
  exists res,
    fst (gcm_check_decryption_tag (G := keystream_gcm) [x00]
           (ready xor_stream)) = res /\
    (res = Ok false <-> MBEDTLS_ERR_CIPHER_AUTH_FAILED
                        = MBEDTLS_ERR_CIPHER_AUTH_FAILED).
Proof.
  split.
  - destruct (gcm_check_decryption_tag_outcomes (G := without_gcm lib)
                [x2a] (ready xor_stream)) as (H & _).
    exact (H eq_refl).
  - destruct (gcm_check_decryption_tag_outcomes (G := keystream_gcm)
                [x00] (ready xor_stream)) as (_ & H).
    destruct (H eq_refl MBEDTLS_ERR_CIPHER_AUTH_FAILED
                (ctx_ (self (ready xor_stream))) eq_refl)
      as (res & Hrun & _ & Hf & _).
    exists res. split; [now rewrite Hrun|exact Hf].
Defined.


Lemma one_shot_throws_witness :
  fst (one_shot (V := conv) encrypt_mode xor_ecb padding_t.none [] [x6b]
         [x68; x69; x21] [])
    = Throw (exception BAD_INPUT_DATA "mbedtls_cipher_setkey") /\
  exists r tag pre last,
    exception BAD_INPUT_DATA "mbedtls_cipher_setkey" = exception r tag /\
    r <> 0%Z /\
    snd (one_shot (V := conv) encrypt_mode xor_ecb padding_t.none [] [x6b]
           [x68; x69; x21] []) = [] ++ pre ++ [last] /\
    call_code last = r.
Proof.
  split; [reflexivity|].
  destruct (one_shot_throws (V := conv) encrypt_mode xor_ecb padding_t.none
              [] [x6b] [x68; x69; x21] []
              (exception BAD_INPUT_DATA "mbedtls_cipher_setkey")
              (snd (one_shot (V := conv) encrypt_mode xor_ecb padding_t.none
                      [] [x6b] [x68; x69; x21] [])) eq_refl)
    as [[H _]|[[H _]|H]]; [discriminate H|discriminate H|exact H].
Defined.

End Further_evaluation.
